(** * AiaudioGen: the client-side orchestration core, embedded in Rocq

    The development follows the TypeScript sources:
    - [Codec]    : [utils/audioUtils] (base64 decoding, PCM decoding, WAV
                   encoding and merging);
    - [App]      : the state, refs, handlers and effects of [App.tsx]
                   (playback engine, lecture content pipeline, auto-advance,
                   video job poller, course regeneration, script edits);
    - [DownloadAll] : [handleDownloadAll], the bulk export with its bounded
                   wait;
    - [Gemini]   : the request building and result handling of
                   [services/geminiService] (speech synthesis, video jobs,
                   script improvement), with [Constants] for the voices;
    - [EditLectureModal] : the editor of a lecture's title and script.

    JavaScript numbers that carry times and sample values are exact rationals
    here ([Q]); bytes are [Byte.byte]; objects used as maps ([Record<number, _>])
    are [gmap nat _]; typed arrays and the lecture array are lists. *)

From Stdlib Require Import ZArith Lia String Ascii QArith Qround List.
From coqutil Require Import Byte Word.LittleEndianList Z.bitblast.
From stdpp Require Import base option list gmap.
From Equations Require Import Equations.

#[local] Open Scope string_scope.
#[local] Open Scope Z_scope.
#[local] Open Scope list_scope.

(** ** Exceptions and fallible results *)

Inductive exn :=
| RangeError
| NotSupportedError
| InvalidCharacterError
| TypeError
| Error (message : string).

Inductive result (A : Type) :=
| Ok (a : A)
| Throw (e : exn).
Arguments Ok {A} a.
Arguments Throw {A} e.

#[export] Instance result_ret : MRet result := λ A a, Ok a.
#[export] Instance result_bind : MBind result := λ A B f r,
  match r with Ok a => f a | Throw e => Throw e end.
#[export] Instance result_fmap : FMap result := λ A B f r,
  match r with Ok a => Ok (f a) | Throw e => Throw e end.

Definition is_ok {A} (r : result A) : bool :=
  match r with Ok _ => true | Throw _ => false end.

(** JavaScript numbers: a finite value or NaN. *)
Inductive num :=
| Fin (q : Q)
| NaN.

Module Codec.

(** *** [atob]: the platform's forgiving base64 decoder *)

Definition isAsciiWhitespace (c : ascii) : bool :=
  let n := nat_of_ascii c in
  ((n =? 9) || (n =? 10) || (n =? 12) || (n =? 13) || (n =? 32))%nat.

Definition base64Value (c : ascii) : option Z :=
  let n := Z.of_nat (nat_of_ascii c) in
  if (65 <=? n) && (n <=? 90) then Some (n - 65)
  else if (97 <=? n) && (n <=? 122) then Some (n - 71)
  else if (48 <=? n) && (n <=? 57) then Some (n + 4)
  else if n =? 43 then Some 62
  else if n =? 47 then Some 63
  else None.

Definition isEquals (c : ascii) : bool := (nat_of_ascii c =? 61)%nat.

(** Drops one or two trailing [=] when the length is a multiple of four. *)
Definition stripPadding (cs : list ascii) : list ascii :=
  if (length cs mod 4 =? 0)%nat then
    match rev cs with
    | c1 :: c2 :: r =>
        if isEquals c1 then (if isEquals c2 then rev r else rev (c2 :: r)) else cs
    | _ => cs
    end
  else cs.

Fixpoint sextets (cs : list ascii) : option (list Z) :=
  match cs with
  | [] => Some []
  | c :: cs' =>
      v ← base64Value c;
      vs ← sextets cs';
      Some (v :: vs)
  end.

Fixpoint decodeSextets (vs : list Z) : list byte :=
  match vs with
  | a :: b :: c :: d :: rest =>
      let n := Z.lor (Z.lor (Z.shiftl a 18) (Z.shiftl b 12)) (Z.lor (Z.shiftl c 6) d) in
      byte.of_Z (Z.shiftr n 16) :: byte.of_Z (Z.shiftr n 8) :: byte.of_Z n
        :: decodeSextets rest
  | [a; b; c] =>
      let n := Z.shiftr (Z.lor (Z.lor (Z.shiftl a 12) (Z.shiftl b 6)) c) 2 in
      [byte.of_Z (Z.shiftr n 8); byte.of_Z n]
  | [a; b] =>
      let n := Z.shiftr (Z.lor (Z.shiftl a 6) b) 4 in
      [byte.of_Z n]
  | _ => []
  end.

(** [atob] returns a binary string: one character per decoded byte. *)
Definition atob (data : string) : result string :=
  let cs := filter (λ c, negb (isAsciiWhitespace c)) (list_ascii_of_string data) in
  let cs := stripPadding cs in
  if (length cs mod 4 =? 1)%nat then Throw InvalidCharacterError
  else match sextets cs with
       | None => Throw InvalidCharacterError
       | Some vs =>
           Ok (string_of_list_ascii (map ascii_of_byte (decodeSextets vs)))
       end.

(** [charCodeAt] yields NaN out of range; a NaN stored in a [Uint8Array]
    becomes 0. *)
Definition charCodeAt (s : string) (i : nat) : Z :=
  match String.get i s with
  | Some c => Z.of_nat (nat_of_ascii c)
  | None => 0
  end.

(** *** [decode] *)

Definition decode (base64 : string) : result (list byte) :=
  binaryString ← atob base64;
  let len := String.length binaryString in
  let bytes := repeat Byte.x00 len in
  Ok (foldl (λ (bytes : list byte) (i : nat),
              <[i := byte.of_Z (charCodeAt binaryString i)]> bytes)
            bytes (seq 0 len)).

(** *** [DataView] and typed-array writes

    A write that does not fit in the buffer raises [RangeError]. *)

Definition writeBytes (buf : list byte) (offset : nat) (bs : list byte)
  : result (list byte) :=
  if (offset + length bs <=? length buf)%nat
  then Ok (take offset buf ++ bs ++ drop (offset + length bs) buf)
  else Throw RangeError.

Definition setUint8 (view : list byte) (offset : nat) (v : Z) : result (list byte) :=
  writeBytes view offset [byte.of_Z v].

(** [setUint16(offset, v, true)] and [setUint32(offset, v, true)]: the value
    wraps to the field width and is stored low byte first. *)
Definition setUint16 (view : list byte) (offset : nat) (v : Z) : result (list byte) :=
  writeBytes view offset (le_split 2 v).

Definition setUint32 (view : list byte) (offset : nat) (v : Z) : result (list byte) :=
  writeBytes view offset (le_split 4 v).

(** [target.set(source, offset)] on a [Uint8Array]. *)
Definition typedSet (target : list byte) (source : list byte) (offset : nat)
  : result (list byte) :=
  writeBytes target offset source.

Definition writeString (view : list byte) (offset : nat) (s : string)
  : result (list byte) :=
  foldl (λ (acc : result (list byte)) (i : nat),
           view ← acc; setUint8 view (offset + i) (charCodeAt s i))
        (Ok view) (seq 0 (String.length s)).

Record Blob := { blobBytes : list byte; blobType : string }.

(** *** [pcmToWavBlob] *)

Definition pcmToWavBlob (pcmData : list byte) : result Blob :=
  let sampleRate := 24000 in
  let numChannels := 1 in
  let bitsPerSample := 16 in
  let dataSize := length pcmData in
  let buffer := repeat Byte.x00 (44 + dataSize) in
  view ← writeString buffer 0 "RIFF";
  view ← setUint32 view 4 (36 + Z.of_nat dataSize);
  view ← writeString view 8 "WAVE";
  view ← writeString view 12 "fmt ";
  view ← setUint32 view 16 16;
  view ← setUint16 view 20 1;
  view ← setUint16 view 22 numChannels;
  view ← setUint32 view 24 sampleRate;
  view ← setUint32 view 28 (sampleRate * numChannels * (bitsPerSample / 8));
  view ← setUint16 view 32 (numChannels * (bitsPerSample / 8));
  view ← setUint16 view 34 bitsPerSample;
  view ← writeString view 36 "data";
  view ← setUint32 view 40 (Z.of_nat dataSize);
  view ← typedSet view pcmData 44;
  Ok {| blobBytes := view; blobType := "audio/wav" |}.

(** *** [createWavBlob] and [createMergedWavBlob] *)

Definition createWavBlob (base64 : string) : result Blob :=
  pcmData ← decode base64;
  pcmToWavBlob pcmData.

Definition createMergedWavBlob (base64Audios : list string) : result Blob :=
  pcmChunks ← mapM decode base64Audios;
  let totalLength := foldl (λ (acc : nat) (chunk : list byte), (acc + length chunk)%nat)
                           0%nat pcmChunks in
  let mergedPcm := repeat Byte.x00 totalLength in
  merged ← foldl (λ (st : result (list byte * nat)) (chunk : list byte),
                    '(mergedPcm, offset) ← st;
                    mergedPcm ← typedSet mergedPcm chunk offset;
                    Ok (mergedPcm, (offset + length chunk)%nat))
                 (Ok (mergedPcm, 0%nat)) pcmChunks;
  pcmToWavBlob merged.1.

(** *** Reading a WAV back (used to state the properties) *)

Definition getUint16 (view : list byte) (offset : nat) : Z :=
  le_combine (take 2 (drop offset view)).

Definition getUint32 (view : list byte) (offset : nat) : Z :=
  le_combine (take 4 (drop offset view)).

Definition asciiAt (view : list byte) (offset n : nat) : string :=
  string_of_list_ascii (map ascii_of_byte (take n (drop offset view))).

(** The data section: everything after the 44-byte header. *)
Definition dataSection (wav : list byte) : list byte := drop 44 wav.

(** *** [decodeAudioData] *)

(** The capabilities of the audio context that [createBuffer] checks. *)
Record AudioContext := {
  maxChannels : nat;
  rateSupported : Q → bool
}.

Record AudioBuffer := {
  numberOfChannels : nat;
  frames : nat;
  sampleRate : Q;
  channels : list (list num)
}.

Definition duration (b : AudioBuffer) : Q :=
  (Z.of_nat (frames b) # 1) / sampleRate b.

(** A two's-complement 16-bit value from its unsigned reading. *)
Definition toInt16 (u : Z) : Z := if u <? 32768 then u else u - 65536.

(** The elements of [new Int16Array(buffer)] (little-endian platform). *)
Fixpoint int16Elements (bs : list byte) : list Z :=
  match bs with
  | lo :: hi :: rest => toInt16 (le_combine [lo; hi]) :: int16Elements rest
  | _ => []
  end.

(** [new Int16Array(buffer)] raises [RangeError] unless the byte length is a
    multiple of the element size. *)
Definition newInt16Array (buffer : list byte) : result (list Z) :=
  if (length buffer mod 2 =? 0)%nat then Ok (int16Elements buffer)
  else Throw RangeError.

(** [a / b] on array lengths: [None] stands for the non-finite results of a
    division by zero. *)
Definition divLengths (a b : nat) : option Q :=
  match b with
  | O => None
  | S _ => Some (Z.of_nat a # Pos.of_nat b)
  end.

(** Conversion of a number to the [unsigned long] argument of [createBuffer]:
    non-finite values give 0, others are truncated and wrapped. *)
Definition toUnsignedLong (x : option Q) : Z :=
  match x with
  | None => 0
  | Some q => (Qfloor q) mod 2 ^ 32
  end.

Definition createBuffer (ctx : AudioContext) (numberOfChannels : nat)
    (length : option Q) (sampleRate : Q) : result AudioBuffer :=
  let len := Z.to_nat (toUnsignedLong length) in
  if (numberOfChannels =? 0)%nat || (maxChannels ctx <? numberOfChannels)%nat
     || (len =? 0)%nat || negb (rateSupported ctx sampleRate)
  then Throw NotSupportedError
  else Ok {| numberOfChannels := numberOfChannels;
             frames := len;
             sampleRate := sampleRate;
             channels := repeat (repeat (Fin 0) len) numberOfChannels |}.

(** The number of iterations of [for (i = 0; i < x; i++)]. *)
Definition iterations (x : option Q) : nat :=
  match x with
  | None => 0%nat
  | Some q => Z.to_nat (Qceiling q)
  end.

(** [dataInt16[k] / 32768.0]: an index out of range reads [undefined], and
    the quotient is NaN. *)
Definition scaled (x : option Z) : num :=
  match x with
  | Some v => Fin (v # 32768)
  | None => NaN
  end.

Definition decodeAudioData (data : list byte) (ctx : AudioContext)
    (sampleRate : Q) (numChannels : nat) : result AudioBuffer :=
  dataInt16 ← newInt16Array data;
  let frameCount := divLengths (length dataInt16) numChannels in
  buffer ← createBuffer ctx numChannels frameCount sampleRate;
  Ok (foldl (λ (buffer : AudioBuffer) (channel : nat),
        let channelData := default [] (channels buffer !! channel) in
        let channelData :=
          foldl (λ (channelData : list num) (i : nat),
                   <[i := scaled (dataInt16 !! (i * numChannels + channel)%nat)]>
                     channelData)
                channelData (seq 0 (iterations frameCount)) in
        {| numberOfChannels := numberOfChannels buffer;
           frames := frames buffer;
           sampleRate := Codec.sampleRate buffer;
           channels := <[channel := channelData]> (channels buffer) |})
      buffer (seq 0 numChannels)).

(** The context the application creates: the channel and rate ranges every
    implementation has to support. *)
Definition defaultContext : AudioContext :=
  {| maxChannels := 32;
     rateSupported := λ r, Qle_bool 8000 r && Qle_bool r 96000 |}.

End Codec.


(** ** Vocabulary for the properties of the codec *)

Module CodecSpec.
Import Codec.

Definition bytesOfString (s : string) : list byte :=
  map byte_of_ascii (list_ascii_of_string s).

(** The 44 bytes that precede [dataSize] bytes of PCM. *)
Definition wavHeader (dataSize : nat) : list byte :=
  bytesOfString "RIFF" ++ le_split 4 (36 + Z.of_nat dataSize)
  ++ bytesOfString "WAVE"
  ++ bytesOfString "fmt " ++ le_split 4 16 ++ le_split 2 1 ++ le_split 2 1
  ++ le_split 4 24000 ++ le_split 4 48000 ++ le_split 2 2 ++ le_split 2 16
  ++ bytesOfString "data" ++ le_split 4 (Z.of_nat dataSize).

(** One step of a loop that stores at index [k] a value computed from [k]
    and the element found there. *)
Definition updateStep {A : Type} (d : A) (g : nat → A → A) (l : list A) (k : nat)
  : list A :=
  <[k := g k (default d (l !! k))]> l.

(** The two loops of [decodeAudioData]. *)
Definition fillChannel (dataInt16 : list Z) (c iters ch : nat) (channelData : list num)
  : list num :=
  foldl (updateStep NaN (λ i _, scaled (dataInt16 !! (i * c + ch)%nat)))
        channelData (seq 0 iters).

Definition fillStep (dataInt16 : list Z) (c iters : nat) (buffer : AudioBuffer)
    (channel : nat) : AudioBuffer :=
  {| numberOfChannels := numberOfChannels buffer;
     frames := frames buffer;
     sampleRate := sampleRate buffer;
     channels := updateStep [] (fillChannel dataInt16 c iters) (channels buffer) channel |}.

End CodecSpec.
(* ================================================================== *)
(** * The application: state, handlers and effects of [App.tsx] *)
(* ================================================================== *)

(** JavaScript truthiness of an optional string: [undefined], [null] and the
    empty string are falsy. *)
Definition truthy (s : option string) : bool :=
  match s with
  | Some s => negb (String.eqb s EmptyString)
  | None => false
  end.

(** [s.includes(p)] *)
Fixpoint includes (p s : string) : bool :=
  String.prefix p s ||
  match s with
  | EmptyString => false
  | String _ s' => includes p s'
  end.

(** ** [types.ts] *)

Module Lecture.
Record t := {
  title : string;
  duration : option string;
  goals : string;
  script : option string;
  summary : option string;
  quiz : option (list string)
}.
End Lecture.

Module Course.
Record t := {
  courseTitle : string;
  totalDuration : string;
  lectures : list Lecture.t
}.
End Course.

(** What [generateLectureDetails] returns: [Omit<Lecture, 'title' | 'goals'>]. *)
Module Details.
Record t := {
  duration : string;
  script : string;
  summary : string;
  quiz : list string
}.
End Details.

Module AudioState.
Inductive t := idle | content_loading | loading | loaded | error.
#[global] Instance eq_dec : EqDecision t.
Proof. solve_decision. Defined.
End AudioState.

Module PlayerState.
Record t := {
  isLoading : bool;
  isPlaying : bool;
  progress : Q;
  currentTime : Q;
  duration : Q;
  volume : Q;
  error : option string
}.
End PlayerState.

Module Toast.
Inductive kind := success | error | info.
Record t := { id : nat; message : string; type : kind }.
End Toast.

Module VideoStateStatus.
Inductive t := idle | generating | ready | error.
End VideoStateStatus.

Module VideoState.
Record t := {
  status : VideoStateStatus.t;
  url : option string;
  error : option string
}.
End VideoState.

(** ** The platform *)

(** An [AudioBufferSourceNode].  [onended] holds the lecture index captured
    by the handler that [startPlayback] installs; [endedQueued] says that the
    platform has queued the node's [ended] event; [stopCalled] records that
    [stop()] was invoked on the node. *)
Module SourceNode.
Record t := {
  buffer : Codec.AudioBuffer;
  startOffset : Q;
  connected : bool;
  playing : bool;
  onended : option nat;
  endedQueued : bool;
  stopCalled : bool
}.
End SourceNode.

(** The answer of [getVideosOperation]. *)
Module Operation.
Record t := {
  done : bool;
  response : option (option string);   (* the response, and the video URI in it *)
  errorMessage : option string
}.
End Operation.

(** Calls made to the external collaborators, in the order they are issued. *)
Inductive Request :=
| GenerateCourseOutline
| GenerateLectureDetails (courseTitle lectureTitle goals : string)
| GenerateLectureAudio (script : option string)
| HasSelectedApiKey
| OpenSelectKey
| StartVideoGeneration (script : option string)
| GetVideoOperationStatus (operation : nat).

(** Their answers. A rejected promise is [Throw]. *)
Inductive Response :=
| OutlineResponse (r : result Course.t)
| DetailsResponse (r : result Details.t)
| AudioResponse (r : result string)
| HasKeyResponse (hasKey : bool)
| SelectKeyResponse (r : result unit)
| StartVideoResponse (r : result nat)
| StatusResponse (r : result Operation.t).

(** What a caller does with the value of [generateSingleAudio]. *)
Inductive AfterAudio :=
| ThenNothing     (* handleUpdateLecture *)
| ThenPlay        (* handleSetLectureToPlay, handleRetryAudioGeneration *)
| ThenDownload.   (* handleDownload *)

(** The action kept in [pendingAction] while the key dialog is open. *)
Inductive PendingAction :=
| GenerationLogic (lecture : option Lecture.t) (index : nat) (closure : option Course.t)
| RetryGenerateVideo (lecture : option Lecture.t) (index : nat) (closure : option Course.t).

(** An asynchronous function suspended at an [await] of a collaborator call,
    with the values its continuation has captured.  [closure] is the [course]
    of the render in which the callback was created. *)
Inductive Pending :=
| AwaitOutline
| AwaitDetails (run index : nat) (lecture : Lecture.t)
| AwaitPipelineAudio (run index : nat) (lecture : Lecture.t)
| AwaitSingleAudio (lecture : Lecture.t) (index : nat) (k : AfterAudio)
| AwaitHasKey (lecture : option Lecture.t) (index : nat) (force : bool)
    (closure : option Course.t)
| AwaitOpenSelectKey (action : option PendingAction)
| AwaitStartVideo (lecture : option Lecture.t) (index : nat) (closure : option Course.t)
| AwaitPollStatus (index : nat) (closure : option Course.t).

(** An interval timer set by [pollForVideo]. *)
Record PollTimer := {
  operation : nat;
  pollIndex : nat;
  pollClosure : option Course.t
}.

(** A file offered for download. *)
Record Download := { fileName : string; file : Codec.Blob }.

(** ** The state *)

(** Refs of the playback engine and the audio graph they point into. *)
Record Engine := {
  audioContextRef : option Codec.AudioContext;   (* set together with gainNodeRef *)
  contextTime : Q;                               (* audioContext.currentTime *)
  nodes : list SourceNode.t;
  currentSourceRef : option nat;
  playbackStartTimeRef : Q;
  playbackPausedTimeRef : Q;
  intentionallyStoppedRef : bool
}.

(** Per-lecture data, keyed by the lecture's position. *)
Record Caches := {
  lectureUiState : gmap nat AudioState.t;
  audioDataCache : gmap nat string;
  audioBufferCache : gmap nat Codec.AudioBuffer;
  actualDurations : gmap nat Q
}.

Record Player := {
  currentlyPlaying : option (Lecture.t * nat);
  playerState : PlayerState.t;
  lastPlayedIndex : option nat
}.

Record Video := {
  videoStates : gmap nat VideoState.t;
  pollingIntervals : gmap nat nat;
  isApiKeyModalOpen : bool;
  pendingAction : option PendingAction;
  apiKey : string                                (* process.env.API_KEY *)
}.

(** Timers, suspended continuations, running [populateAllLectures] calls
    (each with the number of its tasks that have not settled), the calls
    issued so far and the files offered for download. *)
Record Platform := {
  timers : gmap nat PollTimer;
  nextTimer : nat;
  inflight : gmap nat Pending;
  nextRequest : nat;
  requests : list Request;
  runs : gmap nat nat;
  nextRun : nat;
  downloads : list Download
}.

Record App := {
  course : option Course.t;
  courseChanged : bool;         (* [course] was set since the effects last ran *)
  isOutlining : bool;
  toasts : list Toast.t;
  toastIdCounter : nat;
  engine : Engine;
  caches : Caches;
  player : Player;
  video : Video;
  platform : Platform
}.
(** ** Field updates

    [upd_x f r] applies [f] to field [x] of the record [r]; [set_x f s] does
    so inside the application state, as [setX(prev => f prev)] or an
    assignment to [xRef.current] does. *)

Definition upd_audioContextRef f (r : Engine) : Engine :=
  {| audioContextRef := f (audioContextRef r);
     contextTime := contextTime r;
     nodes := nodes r;
     currentSourceRef := currentSourceRef r;
     playbackStartTimeRef := playbackStartTimeRef r;
     playbackPausedTimeRef := playbackPausedTimeRef r;
     intentionallyStoppedRef := intentionallyStoppedRef r |}.

Definition upd_contextTime f (r : Engine) : Engine :=
  {| audioContextRef := audioContextRef r;
     contextTime := f (contextTime r);
     nodes := nodes r;
     currentSourceRef := currentSourceRef r;
     playbackStartTimeRef := playbackStartTimeRef r;
     playbackPausedTimeRef := playbackPausedTimeRef r;
     intentionallyStoppedRef := intentionallyStoppedRef r |}.

Definition upd_nodes f (r : Engine) : Engine :=
  {| audioContextRef := audioContextRef r;
     contextTime := contextTime r;
     nodes := f (nodes r);
     currentSourceRef := currentSourceRef r;
     playbackStartTimeRef := playbackStartTimeRef r;
     playbackPausedTimeRef := playbackPausedTimeRef r;
     intentionallyStoppedRef := intentionallyStoppedRef r |}.

Definition upd_currentSourceRef f (r : Engine) : Engine :=
  {| audioContextRef := audioContextRef r;
     contextTime := contextTime r;
     nodes := nodes r;
     currentSourceRef := f (currentSourceRef r);
     playbackStartTimeRef := playbackStartTimeRef r;
     playbackPausedTimeRef := playbackPausedTimeRef r;
     intentionallyStoppedRef := intentionallyStoppedRef r |}.

Definition upd_playbackStartTimeRef f (r : Engine) : Engine :=
  {| audioContextRef := audioContextRef r;
     contextTime := contextTime r;
     nodes := nodes r;
     currentSourceRef := currentSourceRef r;
     playbackStartTimeRef := f (playbackStartTimeRef r);
     playbackPausedTimeRef := playbackPausedTimeRef r;
     intentionallyStoppedRef := intentionallyStoppedRef r |}.

Definition upd_playbackPausedTimeRef f (r : Engine) : Engine :=
  {| audioContextRef := audioContextRef r;
     contextTime := contextTime r;
     nodes := nodes r;
     currentSourceRef := currentSourceRef r;
     playbackStartTimeRef := playbackStartTimeRef r;
     playbackPausedTimeRef := f (playbackPausedTimeRef r);
     intentionallyStoppedRef := intentionallyStoppedRef r |}.

Definition upd_intentionallyStoppedRef f (r : Engine) : Engine :=
  {| audioContextRef := audioContextRef r;
     contextTime := contextTime r;
     nodes := nodes r;
     currentSourceRef := currentSourceRef r;
     playbackStartTimeRef := playbackStartTimeRef r;
     playbackPausedTimeRef := playbackPausedTimeRef r;
     intentionallyStoppedRef := f (intentionallyStoppedRef r) |}.

Definition upd_lectureUiState f (r : Caches) : Caches :=
  {| lectureUiState := f (lectureUiState r);
     audioDataCache := audioDataCache r;
     audioBufferCache := audioBufferCache r;
     actualDurations := actualDurations r |}.

Definition upd_audioDataCache f (r : Caches) : Caches :=
  {| lectureUiState := lectureUiState r;
     audioDataCache := f (audioDataCache r);
     audioBufferCache := audioBufferCache r;
     actualDurations := actualDurations r |}.

Definition upd_audioBufferCache f (r : Caches) : Caches :=
  {| lectureUiState := lectureUiState r;
     audioDataCache := audioDataCache r;
     audioBufferCache := f (audioBufferCache r);
     actualDurations := actualDurations r |}.

Definition upd_actualDurations f (r : Caches) : Caches :=
  {| lectureUiState := lectureUiState r;
     audioDataCache := audioDataCache r;
     audioBufferCache := audioBufferCache r;
     actualDurations := f (actualDurations r) |}.

Definition upd_currentlyPlaying f (r : Player) : Player :=
  {| currentlyPlaying := f (currentlyPlaying r);
     playerState := playerState r;
     lastPlayedIndex := lastPlayedIndex r |}.

Definition upd_playerState f (r : Player) : Player :=
  {| currentlyPlaying := currentlyPlaying r;
     playerState := f (playerState r);
     lastPlayedIndex := lastPlayedIndex r |}.

Definition upd_lastPlayedIndex f (r : Player) : Player :=
  {| currentlyPlaying := currentlyPlaying r;
     playerState := playerState r;
     lastPlayedIndex := f (lastPlayedIndex r) |}.

Definition upd_videoStates f (r : Video) : Video :=
  {| videoStates := f (videoStates r);
     pollingIntervals := pollingIntervals r;
     isApiKeyModalOpen := isApiKeyModalOpen r;
     pendingAction := pendingAction r;
     apiKey := apiKey r |}.

Definition upd_pollingIntervals f (r : Video) : Video :=
  {| videoStates := videoStates r;
     pollingIntervals := f (pollingIntervals r);
     isApiKeyModalOpen := isApiKeyModalOpen r;
     pendingAction := pendingAction r;
     apiKey := apiKey r |}.

Definition upd_isApiKeyModalOpen f (r : Video) : Video :=
  {| videoStates := videoStates r;
     pollingIntervals := pollingIntervals r;
     isApiKeyModalOpen := f (isApiKeyModalOpen r);
     pendingAction := pendingAction r;
     apiKey := apiKey r |}.

Definition upd_pendingAction f (r : Video) : Video :=
  {| videoStates := videoStates r;
     pollingIntervals := pollingIntervals r;
     isApiKeyModalOpen := isApiKeyModalOpen r;
     pendingAction := f (pendingAction r);
     apiKey := apiKey r |}.

Definition upd_timers f (r : Platform) : Platform :=
  {| timers := f (timers r);
     nextTimer := nextTimer r;
     inflight := inflight r;
     nextRequest := nextRequest r;
     requests := requests r;
     runs := runs r;
     nextRun := nextRun r;
     downloads := downloads r |}.

Definition upd_nextTimer f (r : Platform) : Platform :=
  {| timers := timers r;
     nextTimer := f (nextTimer r);
     inflight := inflight r;
     nextRequest := nextRequest r;
     requests := requests r;
     runs := runs r;
     nextRun := nextRun r;
     downloads := downloads r |}.

Definition upd_inflight f (r : Platform) : Platform :=
  {| timers := timers r;
     nextTimer := nextTimer r;
     inflight := f (inflight r);
     nextRequest := nextRequest r;
     requests := requests r;
     runs := runs r;
     nextRun := nextRun r;
     downloads := downloads r |}.

Definition upd_nextRequest f (r : Platform) : Platform :=
  {| timers := timers r;
     nextTimer := nextTimer r;
     inflight := inflight r;
     nextRequest := f (nextRequest r);
     requests := requests r;
     runs := runs r;
     nextRun := nextRun r;
     downloads := downloads r |}.

Definition upd_requests f (r : Platform) : Platform :=
  {| timers := timers r;
     nextTimer := nextTimer r;
     inflight := inflight r;
     nextRequest := nextRequest r;
     requests := f (requests r);
     runs := runs r;
     nextRun := nextRun r;
     downloads := downloads r |}.

Definition upd_runs f (r : Platform) : Platform :=
  {| timers := timers r;
     nextTimer := nextTimer r;
     inflight := inflight r;
     nextRequest := nextRequest r;
     requests := requests r;
     runs := f (runs r);
     nextRun := nextRun r;
     downloads := downloads r |}.

Definition upd_nextRun f (r : Platform) : Platform :=
  {| timers := timers r;
     nextTimer := nextTimer r;
     inflight := inflight r;
     nextRequest := nextRequest r;
     requests := requests r;
     runs := runs r;
     nextRun := f (nextRun r);
     downloads := downloads r |}.

Definition upd_downloads f (r : Platform) : Platform :=
  {| timers := timers r;
     nextTimer := nextTimer r;
     inflight := inflight r;
     nextRequest := nextRequest r;
     requests := requests r;
     runs := runs r;
     nextRun := nextRun r;
     downloads := f (downloads r) |}.

Definition set_course f (r : App) : App :=
  {| course := f (course r);
     courseChanged := courseChanged r;
     isOutlining := isOutlining r;
     toasts := toasts r;
     toastIdCounter := toastIdCounter r;
     engine := engine r;
     caches := caches r;
     player := player r;
     video := video r;
     platform := platform r |}.

Definition set_courseChanged f (r : App) : App :=
  {| course := course r;
     courseChanged := f (courseChanged r);
     isOutlining := isOutlining r;
     toasts := toasts r;
     toastIdCounter := toastIdCounter r;
     engine := engine r;
     caches := caches r;
     player := player r;
     video := video r;
     platform := platform r |}.

Definition set_isOutlining f (r : App) : App :=
  {| course := course r;
     courseChanged := courseChanged r;
     isOutlining := f (isOutlining r);
     toasts := toasts r;
     toastIdCounter := toastIdCounter r;
     engine := engine r;
     caches := caches r;
     player := player r;
     video := video r;
     platform := platform r |}.

Definition set_toasts f (r : App) : App :=
  {| course := course r;
     courseChanged := courseChanged r;
     isOutlining := isOutlining r;
     toasts := f (toasts r);
     toastIdCounter := toastIdCounter r;
     engine := engine r;
     caches := caches r;
     player := player r;
     video := video r;
     platform := platform r |}.

Definition set_toastIdCounter f (r : App) : App :=
  {| course := course r;
     courseChanged := courseChanged r;
     isOutlining := isOutlining r;
     toasts := toasts r;
     toastIdCounter := f (toastIdCounter r);
     engine := engine r;
     caches := caches r;
     player := player r;
     video := video r;
     platform := platform r |}.

Definition set_engine f (r : App) : App :=
  {| course := course r;
     courseChanged := courseChanged r;
     isOutlining := isOutlining r;
     toasts := toasts r;
     toastIdCounter := toastIdCounter r;
     engine := f (engine r);
     caches := caches r;
     player := player r;
     video := video r;
     platform := platform r |}.

Definition set_caches f (r : App) : App :=
  {| course := course r;
     courseChanged := courseChanged r;
     isOutlining := isOutlining r;
     toasts := toasts r;
     toastIdCounter := toastIdCounter r;
     engine := engine r;
     caches := f (caches r);
     player := player r;
     video := video r;
     platform := platform r |}.

Definition set_player f (r : App) : App :=
  {| course := course r;
     courseChanged := courseChanged r;
     isOutlining := isOutlining r;
     toasts := toasts r;
     toastIdCounter := toastIdCounter r;
     engine := engine r;
     caches := caches r;
     player := f (player r);
     video := video r;
     platform := platform r |}.

Definition set_video f (r : App) : App :=
  {| course := course r;
     courseChanged := courseChanged r;
     isOutlining := isOutlining r;
     toasts := toasts r;
     toastIdCounter := toastIdCounter r;
     engine := engine r;
     caches := caches r;
     player := player r;
     video := f (video r);
     platform := platform r |}.

Definition set_platform f (r : App) : App :=
  {| course := course r;
     courseChanged := courseChanged r;
     isOutlining := isOutlining r;
     toasts := toasts r;
     toastIdCounter := toastIdCounter r;
     engine := engine r;
     caches := caches r;
     player := player r;
     video := video r;
     platform := f (platform r) |}.

Definition set_audioContextRef f (s : App) : App := set_engine (upd_audioContextRef f) s.

Definition set_contextTime f (s : App) : App := set_engine (upd_contextTime f) s.

Definition set_nodes f (s : App) : App := set_engine (upd_nodes f) s.

Definition set_currentSourceRef f (s : App) : App := set_engine (upd_currentSourceRef f) s.

Definition set_playbackStartTimeRef f (s : App) : App := set_engine (upd_playbackStartTimeRef f) s.

Definition set_playbackPausedTimeRef f (s : App) : App := set_engine (upd_playbackPausedTimeRef f) s.

Definition set_intentionallyStoppedRef f (s : App) : App := set_engine (upd_intentionallyStoppedRef f) s.

Definition set_lectureUiState f (s : App) : App := set_caches (upd_lectureUiState f) s.

Definition set_audioDataCache f (s : App) : App := set_caches (upd_audioDataCache f) s.

Definition set_audioBufferCache f (s : App) : App := set_caches (upd_audioBufferCache f) s.

Definition set_actualDurations f (s : App) : App := set_caches (upd_actualDurations f) s.

Definition set_currentlyPlaying f (s : App) : App := set_player (upd_currentlyPlaying f) s.

Definition set_playerState f (s : App) : App := set_player (upd_playerState f) s.

Definition set_lastPlayedIndex f (s : App) : App := set_player (upd_lastPlayedIndex f) s.

Definition set_videoStates f (s : App) : App := set_video (upd_videoStates f) s.

Definition set_pollingIntervals f (s : App) : App := set_video (upd_pollingIntervals f) s.

Definition set_isApiKeyModalOpen f (s : App) : App := set_video (upd_isApiKeyModalOpen f) s.

Definition set_pendingAction f (s : App) : App := set_video (upd_pendingAction f) s.

Definition set_timers f (s : App) : App := set_platform (upd_timers f) s.

Definition set_nextTimer f (s : App) : App := set_platform (upd_nextTimer f) s.

Definition set_inflight f (s : App) : App := set_platform (upd_inflight f) s.

Definition set_nextRequest f (s : App) : App := set_platform (upd_nextRequest f) s.

Definition set_requests f (s : App) : App := set_platform (upd_requests f) s.

Definition set_runs f (s : App) : App := set_platform (upd_runs f) s.

Definition set_nextRun f (s : App) : App := set_platform (upd_nextRun f) s.

Definition set_downloads f (s : App) : App := set_platform (upd_downloads f) s.

Notation "s |> f" := (f s) (at level 45, left associativity, only parsing).

Definition quoted (s : string) : string :=
  let q := String (ascii_of_nat 34) EmptyString in
  String.append q (String.append s q).

(** ** Platform operations *)

(** Issues a call to a collaborator and suspends the caller on it. *)
Definition send (rq : Request) (p : Pending) (s : App) : App :=
  let r := nextRequest (platform s) in
  s |> set_requests (λ l, l ++ [rq])
    |> set_inflight (<[r := p]>)
    |> set_nextRequest (λ _, S r).

(** [clearInterval(id)]; [id] may be [undefined]. *)
Definition clearInterval (id : option nat) (s : App) : App :=
  match id with
  | Some id => set_timers (delete id) s
  | None => s
  end.

(** [source.stop()]: a playing node stops and its [ended] event is queued. *)
Definition stopNode (node : SourceNode.t) : SourceNode.t :=
  {| SourceNode.buffer := SourceNode.buffer node;
     SourceNode.startOffset := SourceNode.startOffset node;
     SourceNode.connected := SourceNode.connected node;
     SourceNode.playing := false;
     SourceNode.onended := SourceNode.onended node;
     SourceNode.endedQueued := SourceNode.endedQueued node || SourceNode.playing node;
     SourceNode.stopCalled := true |}.

(** [source.disconnect()] *)
Definition disconnectNode (node : SourceNode.t) : SourceNode.t :=
  {| SourceNode.buffer := SourceNode.buffer node;
     SourceNode.startOffset := SourceNode.startOffset node;
     SourceNode.connected := false;
     SourceNode.playing := SourceNode.playing node;
     SourceNode.onended := SourceNode.onended node;
     SourceNode.endedQueued := SourceNode.endedQueued node;
     SourceNode.stopCalled := SourceNode.stopCalled node |}.

(** [source.onended = h] *)
Definition setOnended (h : option nat) (node : SourceNode.t) : SourceNode.t :=
  {| SourceNode.buffer := SourceNode.buffer node;
     SourceNode.startOffset := SourceNode.startOffset node;
     SourceNode.connected := SourceNode.connected node;
     SourceNode.playing := SourceNode.playing node;
     SourceNode.onended := h;
     SourceNode.endedQueued := SourceNode.endedQueued node;
     SourceNode.stopCalled := SourceNode.stopCalled node |}.

(** The audio thread reaches the end of the buffer. *)
Definition finishNode (node : SourceNode.t) : SourceNode.t :=
  {| SourceNode.buffer := SourceNode.buffer node;
     SourceNode.startOffset := SourceNode.startOffset node;
     SourceNode.connected := SourceNode.connected node;
     SourceNode.playing := false;
     SourceNode.onended := SourceNode.onended node;
     SourceNode.endedQueued := SourceNode.endedQueued node || SourceNode.playing node;
     SourceNode.stopCalled := SourceNode.stopCalled node |}.

(** The [ended] event leaves the queue. *)
Definition dequeueEnded (node : SourceNode.t) : SourceNode.t :=
  {| SourceNode.buffer := SourceNode.buffer node;
     SourceNode.startOffset := SourceNode.startOffset node;
     SourceNode.connected := SourceNode.connected node;
     SourceNode.playing := SourceNode.playing node;
     SourceNode.onended := SourceNode.onended node;
     SourceNode.endedQueued := false;
     SourceNode.stopCalled := SourceNode.stopCalled node |}.

(** ** [addToast] *)

Definition addToast (message : string) (type : Toast.kind) (s : App) : App :=
  let id := toastIdCounter s in
  s |> set_toastIdCounter (λ _, S id)
    |> set_toasts (λ prev, prev ++ [{| Toast.id := id; Toast.message := message;
                                       Toast.type := type |}]).

(** ** The playback engine *)

Definition stopPlayback (clearPlayer : bool) (s : App) : App :=
  let s := set_intentionallyStoppedRef (λ _, true) s in
  let s :=
    match currentSourceRef (engine s) with
    | Some n =>
        s |> set_nodes (alter (setOnended None) n)
          |> set_nodes (alter stopNode n)
          |> set_nodes (alter disconnectNode n)
          |> set_currentSourceRef (λ _, None)
    | None => s
    end in
  if clearPlayer then
    s |> set_currentlyPlaying (λ _, None)
      |> set_playbackPausedTimeRef (λ _, 0%Q)
      |> set_playerState (λ prev,
           {| PlayerState.isLoading := PlayerState.isLoading prev;
              PlayerState.isPlaying := false;
              PlayerState.progress := 0%Q;
              PlayerState.currentTime := 0%Q;
              PlayerState.duration := 0%Q;
              PlayerState.volume := PlayerState.volume prev;
              PlayerState.error := None |})
  else
    s |> set_playerState (λ prev,
           {| PlayerState.isLoading := PlayerState.isLoading prev;
              PlayerState.isPlaying := false;
              PlayerState.progress := PlayerState.progress prev;
              PlayerState.currentTime := PlayerState.currentTime prev;
              PlayerState.duration := PlayerState.duration prev;
              PlayerState.volume := PlayerState.volume prev;
              PlayerState.error := PlayerState.error prev |}).

Definition startPlayback (buffer : Codec.AudioBuffer) (index : nat) (offset : Q)
    (s : App) : App :=
  match audioContextRef (engine s) with
  | None => s
  | Some _ =>
      let s := stopPlayback false s in
      let s := set_intentionallyStoppedRef (λ _, false) s in
      let source := length (nodes (engine s)) in
      let now := contextTime (engine s) in
      s |> set_nodes (λ ns, ns ++ [{| SourceNode.buffer := buffer;
                                      SourceNode.startOffset := offset;
                                      SourceNode.connected := true;
                                      SourceNode.playing := true;
                                      SourceNode.onended := Some index;
                                      SourceNode.endedQueued := false;
                                      SourceNode.stopCalled := false |}])
        |> set_playbackStartTimeRef (λ _, (now - offset)%Q)
        |> set_playbackPausedTimeRef (λ _, offset)
        |> set_currentSourceRef (λ _, Some source)
        |> set_playerState (λ prev,
             {| PlayerState.isLoading := false;
                PlayerState.isPlaying := true;
                PlayerState.progress := PlayerState.progress prev;
                PlayerState.currentTime := PlayerState.currentTime prev;
                PlayerState.duration := Codec.duration buffer;
                PlayerState.volume := PlayerState.volume prev;
                PlayerState.error := PlayerState.error prev |})
  end.

(** The [onended] handler installed by [startPlayback] on [source] for
    lecture [index]. *)
Definition onendedHandler (source index : nat) (s : App) : App :=
  if bool_decide (currentSourceRef (engine s) = Some source)
     && negb (intentionallyStoppedRef (engine s))
  then
    s |> set_playerState (λ prev,
           {| PlayerState.isLoading := PlayerState.isLoading prev;
              PlayerState.isPlaying := false;
              PlayerState.progress := 1%Q;
              PlayerState.currentTime := PlayerState.duration prev;
              PlayerState.duration := PlayerState.duration prev;
              PlayerState.volume := PlayerState.volume prev;
              PlayerState.error := PlayerState.error prev |})
      |> set_lastPlayedIndex (λ _, Some index)
  else s.

(** [playAudioFromCache]: every exception is caught and replaced; nothing has
    been written when one is raised. *)
Definition playAudioFromCache (index : nat) (s : App) : result App :=
  let attempt : result App :=
    '(bufferToPlay, s) ←
      match audioBufferCache (caches s) !! index with
      | Some bufferToPlay => Ok (bufferToPlay, s)
      | None =>
          let base64Audio := audioDataCache (caches s) !! index in
          if negb (truthy base64Audio)
          then Throw (Error "No audio data found in cache.")
          else
            data ← Codec.decode (default EmptyString base64Audio);
            ctx ← match audioContextRef (engine s) with
                  | Some ctx => Ok ctx
                  | None => Throw TypeError
                  end;
            bufferToPlay ← Codec.decodeAudioData data ctx 24000 1;
            Ok (bufferToPlay, set_audioBufferCache (<[index := bufferToPlay]>) s)
      end;
    Ok (s |> set_actualDurations (<[index := Codec.duration bufferToPlay]>)
          |> startPlayback bufferToPlay index 0) in
  match attempt with
  | Ok s => Ok s
  | Throw _ => Throw (Error "Failed to decode audio data.")
  end.

(** ** Audio synthesis for one lecture *)

Definition generateSingleAudio (lecture : Lecture.t) (index : nat) (k : AfterAudio)
    (s : App) : App :=
  s |> set_lectureUiState (<[index := AudioState.loading]>)
    |> send (GenerateLectureAudio (Lecture.script lecture))
            (AwaitSingleAudio lecture index k).

(** The catch block shared by [handleSetLectureToPlay] and
    [handleRetryAudioGeneration]. *)
Definition playbackFailed (s : App) : App :=
  s |> set_playerState (λ prev,
         {| PlayerState.isLoading := false;
            PlayerState.isPlaying := PlayerState.isPlaying prev;
            PlayerState.progress := PlayerState.progress prev;
            PlayerState.currentTime := PlayerState.currentTime prev;
            PlayerState.duration := PlayerState.duration prev;
            PlayerState.volume := PlayerState.volume prev;
            PlayerState.error := Some "Audio failed to load." |}).

(** The end of their try block, once [audioData] is known. *)
Definition playResolved (index : nat) (audioData : option string) (s : App) : App :=
  if negb (truthy audioData) then playbackFailed s
  else match playAudioFromCache index s with
       | Ok s' => s'
       | Throw _ => playbackFailed s
       end.

(** The characters the class [\s] of a regular expression matches, among
    the code units below 256: tab to carriage return, space and the no-break
    space. *)
Definition isWhitespace (c : ascii) : bool :=
  let n := nat_of_ascii c in
  ((n =? 32) || ((9 <=? n) && (n <=? 13)) || (n =? 160))%nat.

(** [name.replace(/\s/g, '_')] *)
Fixpoint underscored (name : string) : string :=
  match name with
  | EmptyString => EmptyString
  | String c rest =>
      String (if isWhitespace c then ascii_of_nat 95 else c) (underscored rest)
  end.

Definition endsWith (s suffix : string) : bool :=
  let n := String.length s in
  let m := String.length suffix in
  (m <=? n)%nat && String.eqb (String.substring (n - m) m s) suffix.

(** [downloadWav] *)
Definition downloadWav (base64 filename : string) (s : App) : result App :=
  blob ← Codec.createWavBlob base64;
  let name := if endsWith filename ".wav" then filename
              else String.append filename ".wav" in
  Ok (set_downloads (λ l, l ++ [{| fileName := name; file := blob |}]) s).

(** The end of the try block of [handleDownload], with its catch. *)
Definition downloadResolved (lecture : Lecture.t) (audioData : option string)
    (s : App) : App :=
  if truthy audioData then
    match downloadWav (default EmptyString audioData)
                      (underscored (Lecture.title lecture)) s with
    | Ok s' => s'
    | Throw _ =>
        addToast (String.append "Could not download audio for "
                    (String.append (Lecture.title lecture) ".")) Toast.error s
    end
  else s.

Definition afterAudio (k : AfterAudio) (lecture : Lecture.t) (index : nat)
    (audioData : option string) (s : App) : App :=
  match k with
  | ThenNothing => s
  | ThenPlay => playResolved index audioData s
  | ThenDownload => downloadResolved lecture audioData s
  end.

(** [generateSingleAudio] resumes when [generateLectureAudio] settles. *)
Definition resumeSingleAudio (lecture : Lecture.t) (index : nat) (k : AfterAudio)
    (r : result string) (s : App) : App :=
  match r with
  | Ok base64Audio =>
      s |> set_audioDataCache (<[index := base64Audio]>)
        |> set_audioBufferCache (delete index)
        |> set_lectureUiState (<[index := AudioState.loaded]>)
        |> afterAudio k lecture index (Some base64Audio)
  | Throw _ =>
      s |> set_lectureUiState (<[index := AudioState.error]>)
        |> addToast (String.append "Audio generation failed for "
                       (String.append (quoted (Lecture.title lecture)) "."))
                    Toast.error
        |> afterAudio k lecture index None
  end.

(** ** Lecture selection *)

Definition handleSetLectureToPlay (lecture : Lecture.t) (index : nat) (s : App) : App :=
  if bool_decide (snd <$> currentlyPlaying (player s) = Some index) then
    if truthy (PlayerState.error (playerState (player s))) then s
    else if PlayerState.isPlaying (playerState (player s)) then
      let s := match audioContextRef (engine s) with
               | Some _ =>
                   set_playbackPausedTimeRef
                     (λ paused, (paused + (contextTime (engine s)
                                           - playbackStartTimeRef (engine s)))%Q) s
               | None => s
               end in
      stopPlayback false s
    else
      match audioBufferCache (caches s) !! index with
      | Some buffer => startPlayback buffer index (playbackPausedTimeRef (engine s)) s
      | None => s
      end
  else
    let audioState := lectureUiState (caches s) !! index in
    let s := s |> stopPlayback true
               |> set_currentlyPlaying (λ _, Some (lecture, index))
               |> set_playerState (λ prev,
                    {| PlayerState.isLoading := true;
                       PlayerState.isPlaying := PlayerState.isPlaying prev;
                       PlayerState.progress := 0%Q;
                       PlayerState.currentTime := 0%Q;
                       PlayerState.duration := PlayerState.duration prev;
                       PlayerState.volume := PlayerState.volume prev;
                       PlayerState.error := None |}) in
    let audioData := audioDataCache (caches s) !! index in
    if negb (truthy audioData) || bool_decide (audioState = Some AudioState.error)
    then generateSingleAudio lecture index ThenPlay s
    else playResolved index audioData s.

Definition handleRetryAudioGeneration (s : App) : App :=
  match currentlyPlaying (player s) with
  | None => s
  | Some (lecture, index) =>
      s |> set_playerState (λ prev,
             {| PlayerState.isLoading := true;
                PlayerState.isPlaying := PlayerState.isPlaying prev;
                PlayerState.progress := PlayerState.progress prev;
                PlayerState.currentTime := PlayerState.currentTime prev;
                PlayerState.duration := PlayerState.duration prev;
                PlayerState.volume := PlayerState.volume prev;
                PlayerState.error := None |})
        |> generateSingleAudio lecture index ThenPlay
  end.

Definition handleSeek (newProgress : Q) (s : App) : App :=
  match currentlyPlaying (player s) with
  | None => s
  | Some (_, index) =>
      let ps := playerState (player s) in
      if Qeq_bool (PlayerState.duration ps) 0 then s
      else
        let newTime := (PlayerState.duration ps * newProgress)%Q in
        let s' :=
          s |> set_playbackPausedTimeRef (λ _, newTime)
            |> set_playerState (λ prev,
                 {| PlayerState.isLoading := PlayerState.isLoading prev;
                    PlayerState.isPlaying := PlayerState.isPlaying prev;
                    PlayerState.progress := newProgress;
                    PlayerState.currentTime := newTime;
                    PlayerState.duration := PlayerState.duration prev;
                    PlayerState.volume := PlayerState.volume prev;
                    PlayerState.error := PlayerState.error prev |}) in
        match audioBufferCache (caches s) !! index with
        | Some buffer =>
            if PlayerState.isPlaying ps then startPlayback buffer index newTime s'
            else s'
        | None => s'
        end
  end.

Definition handleVolumeChange (newVolume : Q) (s : App) : App :=
  s |> set_playerState (λ prev,
         {| PlayerState.isLoading := PlayerState.isLoading prev;
            PlayerState.isPlaying := PlayerState.isPlaying prev;
            PlayerState.progress := PlayerState.progress prev;
            PlayerState.currentTime := PlayerState.currentTime prev;
            PlayerState.duration := PlayerState.duration prev;
            PlayerState.volume := newVolume;
            PlayerState.error := PlayerState.error prev |}).

(** [updateProgress], run on an animation frame.  When the browser runs a
    frame is left open: the request and the cancellation of frames
    ([animationFrameRef]) are not part of the state, and an [AnimationFrame]
    event may come in any state, also in states in which the application has
    no frame pending.  What holds in every reachable state of this model
    holds in every state of the application; no statement below says that a
    frame does run. *)
Definition updateProgress (s : App) : App :=
  let ps := playerState (player s) in
  if negb (PlayerState.isPlaying ps)
     || negb (bool_decide (is_Some (currentSourceRef (engine s))))
     || negb (bool_decide (is_Some (audioContextRef (engine s))))
  then s
  else
    let elapsedTime := (contextTime (engine s) - playbackStartTimeRef (engine s))%Q in
    let newCurrentTime := (playbackPausedTimeRef (engine s) + elapsedTime)%Q in
    if Qle_bool (PlayerState.duration ps) newCurrentTime then
      s |> set_playerState (λ prev,
             {| PlayerState.isLoading := PlayerState.isLoading prev;
                PlayerState.isPlaying := PlayerState.isPlaying prev;
                PlayerState.progress := 1%Q;
                PlayerState.currentTime := PlayerState.duration prev;
                PlayerState.duration := PlayerState.duration prev;
                PlayerState.volume := PlayerState.volume prev;
                PlayerState.error := PlayerState.error prev |})
    else
      s |> set_playerState (λ prev,
             {| PlayerState.isLoading := PlayerState.isLoading prev;
                PlayerState.isPlaying := PlayerState.isPlaying prev;
                PlayerState.progress := (newCurrentTime / PlayerState.duration prev)%Q;
                PlayerState.currentTime := newCurrentTime;
                PlayerState.duration := PlayerState.duration prev;
                PlayerState.volume := PlayerState.volume prev;
                PlayerState.error := PlayerState.error prev |}).

(** The effect on [lastPlayedIndex]: auto-advance. *)
Definition autoAdvanceEffect (s : App) : App :=
  match lastPlayedIndex (player s), course s with
  | Some last, Some c =>
      let nextIndex := (last + 1)%nat in
      let s :=
        if (nextIndex <? length (Course.lectures c))%nat then
          match Course.lectures c !! nextIndex with
          | Some lecture => handleSetLectureToPlay lecture nextIndex s
          | None => s
          end
        else stopPlayback true s in
      set_lastPlayedIndex (λ _, None) s
  | _, _ => s
  end.

(** The click listener that creates the audio context once. *)
Definition initializeAudio (s : App) : App :=
  match audioContextRef (engine s) with
  | None => set_audioContextRef (λ _, Some Codec.defaultContext) s
  | Some _ => s
  end.

(** ** The lecture content pipeline *)

(** A lecture object none of whose properties is set. *)
Definition undefinedLecture : Lecture.t :=
  {| Lecture.title := EmptyString; Lecture.duration := None;
     Lecture.goals := EmptyString; Lecture.script := None;
     Lecture.summary := None; Lecture.quiz := None |}.

(** [{ ...lecture, ...details }] *)
Definition mergeDetails (lecture : Lecture.t) (details : Details.t) : Lecture.t :=
  {| Lecture.title := Lecture.title lecture;
     Lecture.duration := Some (Details.duration details);
     Lecture.goals := Lecture.goals lecture;
     Lecture.script := Some (Details.script details);
     Lecture.summary := Some (Details.summary details);
     Lecture.quiz := Some (Details.quiz details) |}.

(** [newLectures[index] = { ...newLectures[index], ...details }] on a copy of
    the array.  An index past the end extends the array; the elements in
    between, which JavaScript leaves empty, are [undefinedLecture] here. *)
Definition mergeAt (index : nat) (details : Details.t) (lectures : list Lecture.t)
  : list Lecture.t :=
  match lectures !! index with
  | Some lecture => <[index := mergeDetails lecture details]> lectures
  | None =>
      lectures ++ replicate (index - length lectures) undefinedLecture
               ++ [mergeDetails undefinedLecture details]
  end.

(** [setCourse]: the effects that depend on [course] run after the render. *)
Definition setCourse (c : option Course.t) (s : App) : App :=
  s |> set_course (λ _, c) |> set_courseChanged (λ _, true).

(** A task of [populateAllLectures] settles; once all have, the promise of
    [Promise.all] resolves and the function shows its toast. *)
Definition taskSettled (run : nat) (s : App) : App :=
  match runs (platform s) !! run with
  | Some (S (S n)) => set_runs (<[run := S n]>) s
  | Some _ =>
      s |> set_runs (delete run)
        |> addToast "Your course is fully generated and ready!" Toast.success
  | None => s
  end.

(** The catch block of a task. *)
Definition taskFailed (run index : nat) (lecture : Lecture.t) (s : App) : App :=
  s |> set_lectureUiState (<[index := AudioState.error]>)
    |> addToast (String.append "Failed to generate content for "
                   (quoted (Lecture.title lecture))) Toast.error
    |> taskSettled run.

Definition populateAllLectures (c : Course.t) (s : App) : App :=
  let run := nextRun (platform s) in
  let s := s |> set_nextRun (λ _, S run)
             |> set_runs (<[run := length (Course.lectures c)]>) in
  foldl (λ (s : App) '(index, lecture),
           send (GenerateLectureDetails (Course.courseTitle c)
                   (Lecture.title lecture) (Lecture.goals lecture))
                (AwaitDetails run index lecture) s)
        s (imap (λ index lecture, (index, lecture)) (Course.lectures c)).

(** A task resumes when [generateLectureDetails] settles. *)
Definition resumeDetails (run index : nat) (lecture : Lecture.t)
    (r : result Details.t) (s : App) : App :=
  match r with
  | Ok details =>
      let s := match course s with
               | Some currentCourse =>
                   setCourse (Some {| Course.courseTitle := Course.courseTitle currentCourse;
                                      Course.totalDuration := Course.totalDuration currentCourse;
                                      Course.lectures :=
                                        mergeAt index details (Course.lectures currentCourse) |}) s
               | None => s
               end in
      s |> set_lectureUiState (<[index := AudioState.loading]>)
        |> send (GenerateLectureAudio (Some (Details.script details)))
                (AwaitPipelineAudio run index lecture)
  | Throw _ => taskFailed run index lecture s
  end.

(** It resumes again when [generateLectureAudio] settles. *)
Definition resumePipelineAudio (run index : nat) (lecture : Lecture.t)
    (r : result string) (s : App) : App :=
  match r with
  | Ok base64Audio =>
      s |> set_audioDataCache (<[index := base64Audio]>)
        |> set_lectureUiState (<[index := AudioState.loaded]>)
        |> taskSettled run
  | Throw _ => taskFailed run index lecture s
  end.

(** The effect on [course]: a course whose first lecture has no script yet
    starts [populateAllLectures]. *)
Definition populateEffect (s : App) : App :=
  if courseChanged s then
    let s := set_courseChanged (λ _, false) s in
    match course s with
    | Some c =>
        match Course.lectures c with
        | first :: _ =>
            if negb (truthy (Lecture.script first)) then populateAllLectures c s else s
        | [] => s
        end
    | None => s
    end
  else s.

(** ** Course generation *)

(** [err.message].  An [Error] carries the message it was made with.  For the
    exceptions the platform raises the message is the platform's text, which
    the code does not determine: the name of the exception stands for it
    here, and no statement below depends on what it is. *)
Definition exnMessage (e : exn) : string :=
  match e with
  | Error message => message
  | RangeError => "RangeError"
  | NotSupportedError => "NotSupportedError"
  | InvalidCharacterError => "InvalidCharacterError"
  | TypeError => "TypeError"
  end.

Definition handleGenerateCourse (s : App) : App :=
  s |> stopPlayback true
    |> (λ s, foldr (λ id s, clearInterval (Some id) s) s
                   (map_to_list (pollingIntervals (video s))).*2)
    |> set_pollingIntervals (λ _, ∅)
    |> set_audioDataCache (λ _, ∅)
    |> set_audioBufferCache (λ _, ∅)
    |> set_lectureUiState (λ _, ∅)
    |> set_actualDurations (λ _, ∅)
    |> set_videoStates (λ _, ∅)
    |> set_isOutlining (λ _, true)
    |> setCourse None
    |> send GenerateCourseOutline AwaitOutline.

(** It resumes when [generateCourseOutline] settles. *)
Definition resumeOutline (r : result Course.t) (s : App) : App :=
  let s :=
    match r with
    | Ok courseOutline =>
        s |> setCourse (Some courseOutline)
          |> set_lectureUiState (λ _,
               foldl (λ (initialUiState : gmap nat AudioState.t) (index : nat),
                        <[index := AudioState.content_loading]> initialUiState)
                     ∅ (seq 0 (length (Course.lectures courseOutline))))
    | Throw e => addToast (exnMessage e) Toast.error s
    end in
  set_isOutlining (λ _, false) s.

(** ** Script edits *)

Definition handleUpdateLecture (index : nat) (updatedLecture : Lecture.t) (s : App)
  : App :=
  match course s with
  | None => s
  | Some c =>
      match Course.lectures c !! index with
      | None => s   (* reading [.script] of [undefined] raises *)
      | Some oldLecture =>
          let oldScript := Lecture.script oldLecture in
          let s := setCourse (Some {| Course.courseTitle := Course.courseTitle c;
                                      Course.totalDuration := Course.totalDuration c;
                                      Course.lectures :=
                                        <[index := updatedLecture]> (Course.lectures c) |}) s in
          if bool_decide (oldScript ≠ Lecture.script updatedLecture) then
            s |> set_audioDataCache (delete index)
              |> set_audioBufferCache (delete index)
              |> set_actualDurations (delete index)
              |> set_videoStates (delete index)
              |> generateSingleAudio updatedLecture index ThenNothing
          else s
      end
  end.

(** ** Single-lecture download *)

Definition handleDownload (lecture : Lecture.t) (index : nat) (s : App) : App :=
  let audioState := lectureUiState (caches s) !! index in
  let audioData := audioDataCache (caches s) !! index in
  if negb (truthy audioData) || bool_decide (audioState = Some AudioState.error)
  then generateSingleAudio lecture index ThenDownload s
  else downloadResolved lecture audioData s.

(** ** The video job poller *)

Definition videoError (message : string) : VideoState.t :=
  {| VideoState.status := VideoStateStatus.error;
     VideoState.url := None;
     VideoState.error := Some message |}.

Definition handleGenerateVideo (lecture : option Lecture.t) (index : nat)
    (forceKeySelection : bool) (closure : option Course.t) (s : App) : App :=
  send HasSelectedApiKey (AwaitHasKey lecture index forceKeySelection closure) s.

Definition generationLogic (lecture : option Lecture.t) (index : nat)
    (closure : option Course.t) (s : App) : App :=
  let s := set_videoStates
             (<[index := {| VideoState.status := VideoStateStatus.generating;
                            VideoState.url := None; VideoState.error := None |}]>) s in
  match lecture with
  | Some lecture =>
      send (StartVideoGeneration (Lecture.script lecture))
           (AwaitStartVideo (Some lecture) index closure) s
  | None => set_videoStates (<[index := videoError (exnMessage TypeError)]>) s
  end.

(** [handleGenerateVideo] resumes when [hasSelectedApiKey] settles. *)
Definition resumeHasKey (lecture : option Lecture.t) (index : nat)
    (forceKeySelection : bool) (closure : option Course.t) (hasKey : bool) (s : App)
  : App :=
  if negb hasKey || forceKeySelection then
    s |> set_pendingAction (λ _, Some (GenerationLogic lecture index closure))
      |> set_isApiKeyModalOpen (λ _, true)
  else generationLogic lecture index closure s.

Definition pollForVideo (operation index : nat) (closure : option Course.t) (s : App)
  : App :=
  let s := match pollingIntervals (video s) !! index with
           | Some O | None => s
           | Some id => clearInterval (Some id) s
           end in
  let id := nextTimer (platform s) in
  s |> set_nextTimer (λ _, S id)
    |> set_timers (<[id := {| operation := operation; pollIndex := index;
                              pollClosure := closure |}]>)
    |> set_pollingIntervals (<[index := id]>).

(** [generationLogic] resumes when [startVideoGeneration] settles. *)
Definition resumeStartVideo (lecture : option Lecture.t) (index : nat)
    (closure : option Course.t) (r : result nat) (s : App) : App :=
  match r with
  | Ok operation => pollForVideo operation index closure s
  | Throw e =>
      let errorMessage := exnMessage e in
      if includes "API key is invalid" errorMessage then
        s |> set_pendingAction (λ _, Some (RetryGenerateVideo lecture index closure))
          |> set_isApiKeyModalOpen (λ _, true)
      else set_videoStates (<[index := videoError errorMessage]>) s
  end.

(** The interval callback, up to its [await]. *)
Definition pollTick (id : nat) (s : App) : App :=
  match timers (platform s) !! id with
  | Some t =>
      send (GetVideoOperationStatus (operation t))
           (AwaitPollStatus (pollIndex t) (pollClosure t)) s
  | None => s
  end.

(** The catch block of the interval callback. *)
Definition pollFailed (index : nat) (closure : option Course.t) (errorMessage : string)
    (s : App) : App :=
  let s := s |> clearInterval (pollingIntervals (video s) !! index)
             |> set_pollingIntervals (delete index) in
  if includes "API key is invalid" errorMessage then
    match closure with
    | Some c =>
        s |> handleGenerateVideo (Course.lectures c !! index) index true closure
          |> set_videoStates (<[index := videoError errorMessage]>)
    | None => s   (* [course!.lectures] raises; the rest of the block is skipped *)
    end
  else set_videoStates (<[index := videoError errorMessage]>) s.

(** The interval callback resumes when [getVideoOperationStatus] settles. *)
Definition resumePollStatus (index : nat) (closure : option Course.t)
    (r : result Operation.t) (s : App) : App :=
  match r with
  | Ok newOperation =>
      if Operation.done newOperation then
        let s := s |> clearInterval (pollingIntervals (video s) !! index)
                   |> set_pollingIntervals (delete index) in
        match Operation.response newOperation with
        | Some downloadLink =>
            if truthy downloadLink && truthy (Some (apiKey (video s))) then
              let fullUrl := String.append (default EmptyString downloadLink)
                               (String.append "&key=" (apiKey (video s))) in
              set_videoStates
                (<[index := {| VideoState.status := VideoStateStatus.ready;
                               VideoState.url := Some fullUrl;
                               VideoState.error := None |}]>) s
            else pollFailed index closure "Video generated, but no URI found." s
        | None =>
            pollFailed index closure
              (if truthy (Operation.errorMessage newOperation)
               then default EmptyString (Operation.errorMessage newOperation)
               else "Video generation finished with an error.") s
        end
      else s
  | Throw e => pollFailed index closure (exnMessage e) s
  end.

Definition runPendingAction (a : PendingAction) (s : App) : App :=
  match a with
  | GenerationLogic lecture index closure => generationLogic lecture index closure s
  | RetryGenerateVideo lecture index closure =>
      handleGenerateVideo lecture index true closure s
  end.

Definition handleSelectApiKey (s : App) : App :=
  send OpenSelectKey (AwaitOpenSelectKey (pendingAction (video s))) s.

(** It resumes when [openSelectKey] settles. *)
Definition resumeSelectKey (action : option PendingAction) (r : result unit) (s : App)
  : App :=
  match r with
  | Ok _ =>
      let s := set_isApiKeyModalOpen (λ _, false) s in
      match action with
      | Some a => s |> runPendingAction a |> set_pendingAction (λ _, None)
      | None => s
      end
  | Throw _ =>
      s |> set_pendingAction (λ _, None) |> set_isApiKeyModalOpen (λ _, false)
  end.

Definition closeApiKeyModal (s : App) : App :=
  s |> set_isApiKeyModalOpen (λ _, false) |> set_pendingAction (λ _, None).

(** ** The event loop

    One event is one turn of the loop: a user action reaching its handler, a
    collaborator promise settling and resuming the function suspended on it, a
    timer firing, or the audio platform reporting on a source node.  The
    effects that depend on what the turn changed run at its end. *)

Inductive Event :=
(* the user *)
| ClickGenerateCourse
| ClickPlay (index : nat)
| ClickPlayPause
| ClickClose
| ClickRetry
| Seek (newProgress : Q)
| ChangeVolume (newVolume : Q)
| SaveLecture (index : nat) (updatedLecture : Lecture.t)
| ClickDownload (index : nat)
| ClickGenerateVideo (index : nat)
| ClickRetryVideo (index : nat)
| ClickSelectKey
| CloseKeyModal
(* the platform *)
| Settle (request : nat) (r : Response)
| TimerFires (id : nat)
| SourceEnds (node : nat)
| EndedEvent (node : nat)
| AnimationFrame
| ClockAdvances (dt : Q).

(** The function suspended on a request resumes with the answer. *)
Definition resume (p : Pending) (r : Response) (s : App) : App :=
  match p, r with
  | AwaitOutline, OutlineResponse r => resumeOutline r s
  | AwaitDetails run index lecture, DetailsResponse r =>
      resumeDetails run index lecture r s
  | AwaitPipelineAudio run index lecture, AudioResponse r =>
      resumePipelineAudio run index lecture r s
  | AwaitSingleAudio lecture index k, AudioResponse r =>
      resumeSingleAudio lecture index k r s
  | AwaitHasKey lecture index force closure, HasKeyResponse hasKey =>
      resumeHasKey lecture index force closure hasKey s
  | AwaitOpenSelectKey action, SelectKeyResponse r => resumeSelectKey action r s
  | AwaitStartVideo lecture index closure, StartVideoResponse r =>
      resumeStartVideo lecture index closure r s
  | AwaitPollStatus index closure, StatusResponse r =>
      resumePollStatus index closure r s
  | _, _ => s
  end.

(** Whether an answer has the type the suspended function awaits. *)
Definition answers (p : Pending) (r : Response) : bool :=
  match p, r with
  | AwaitOutline, OutlineResponse _
  | AwaitDetails _ _ _, DetailsResponse _
  | AwaitPipelineAudio _ _ _, AudioResponse _
  | AwaitSingleAudio _ _ _, AudioResponse _
  | AwaitHasKey _ _ _ _, HasKeyResponse _
  | AwaitOpenSelectKey _, SelectKeyResponse _
  | AwaitStartVideo _ _ _, StartVideoResponse _
  | AwaitPollStatus _ _, StatusResponse _ => true
  | _, _ => false
  end.

Definition settle (request : nat) (r : Response) (s : App) : App :=
  match inflight (platform s) !! request with
  | Some p =>
      if answers p r then s |> set_inflight (delete request) |> resume p r else s
  | None => s
  end.

(** The platform dispatches the [ended] event of a node. *)
Definition dispatchEnded (n : nat) (s : App) : App :=
  match nodes (engine s) !! n with
  | Some node =>
      if SourceNode.endedQueued node then
        let s := set_nodes (alter dequeueEnded n) s in
        match SourceNode.onended node with
        | Some index => onendedHandler n index s
        | None => s
        end
      else s
  | None => s
  end.

Definition lectureAt (index : nat) (s : App) : option Lecture.t :=
  c ← course s; Course.lectures c !! index.

Definition videoStatus (index : nat) (s : App) : VideoStateStatus.t :=
  match videoStates (video s) !! index with
  | Some v => VideoState.status v
  | None => VideoStateStatus.idle
  end.

(** The handler an event reaches, behind the conditions under which the
    interface offers the control. *)
Definition handle (ev : Event) (s : App) : App :=
  match ev with
  | ClickGenerateCourse =>
      if isOutlining s then s else handleGenerateCourse s
  | ClickPlay index =>
      match lectureAt index s with
      | Some lecture =>
          let state := lectureUiState (caches s) !! index in
          if negb (truthy (Lecture.script lecture))
             || bool_decide (state = Some AudioState.content_loading)
             || bool_decide (state = Some AudioState.loading)
             || bool_decide (state = Some AudioState.error)
          then s
          else handleSetLectureToPlay lecture index s
      | None => s
      end
  | ClickPlayPause =>
      match currentlyPlaying (player s) with
      | Some (lecture, index) =>
          if truthy (PlayerState.error (playerState (player s))) then s
          else handleSetLectureToPlay lecture index s
      | None => s
      end
  | ClickClose =>
      match currentlyPlaying (player s) with
      | Some _ => stopPlayback true s
      | None => s
      end
  | ClickRetry =>
      match currentlyPlaying (player s) with
      | Some _ =>
          if truthy (PlayerState.error (playerState (player s)))
             && negb (PlayerState.isLoading (playerState (player s)))
          then handleRetryAudioGeneration s
          else s
      | None => s
      end
  | Seek newProgress =>
      match currentlyPlaying (player s) with
      | Some _ =>
          if truthy (PlayerState.error (playerState (player s))) then s
          else handleSeek newProgress s
      | None => s
      end
  | ChangeVolume newVolume =>
      match currentlyPlaying (player s) with
      | Some _ =>
          if truthy (PlayerState.error (playerState (player s))) then s
          else handleVolumeChange newVolume s
      | None => s
      end
  | SaveLecture index updatedLecture =>
      match lectureAt index s with
      | Some lecture =>
          if truthy (Lecture.script lecture)
          then handleUpdateLecture index updatedLecture s
          else s
      | None => s
      end
  | ClickDownload index =>
      match lectureAt index s with
      | Some lecture =>
          if bool_decide (lectureUiState (caches s) !! index = Some AudioState.loaded)
          then handleDownload lecture index s
          else s
      | None => s
      end
  | ClickGenerateVideo index =>
      match lectureAt index s, videoStatus index s with
      | Some lecture, VideoStateStatus.idle =>
          if truthy (Lecture.script lecture)
          then handleGenerateVideo (Some lecture) index false (course s) s
          else s
      | _, _ => s
      end
  | ClickRetryVideo index =>
      match lectureAt index s, videoStatus index s with
      | Some lecture, VideoStateStatus.error =>
          if truthy (Lecture.script lecture)
          then handleGenerateVideo (Some lecture) index true (course s) s
          else s
      | _, _ => s
      end
  | ClickSelectKey =>
      if isApiKeyModalOpen (video s) then handleSelectApiKey s else s
  | CloseKeyModal =>
      if isApiKeyModalOpen (video s) then closeApiKeyModal s else s
  | Settle request r => settle request r s
  | TimerFires id => pollTick id s
  | SourceEnds n =>
      match nodes (engine s) !! n with
      | Some node =>
          if SourceNode.playing node then set_nodes (alter finishNode n) s else s
      | None => s
      end
  | EndedEvent n => dispatchEnded n s
  | AnimationFrame => updateProgress s
  | ClockAdvances dt =>
      if Qle_bool 0 dt then set_contextTime (λ t, (t + dt)%Q) s else s
  end.

(** Events that come with a click in the document. *)
Definition isClick (ev : Event) : bool :=
  match ev with
  | Settle _ _ | TimerFires _ | SourceEnds _ | EndedEvent _ | AnimationFrame
  | ClockAdvances _ => false
  | _ => true
  end.

(** The effects, in the order the component declares them. *)
Definition runEffects (s : App) : App :=
  s |> autoAdvanceEffect |> populateEffect.

Definition step (s : App) (ev : Event) : App :=
  let s := handle ev s in
  let s := if isClick ev then initializeAudio s else s in
  runEffects s.

Definition run (s : App) (evs : list Event) : App := foldl step s evs.

(** The state after mounting. *)
Definition initialState (key : string) : App :=
  {| course := None;
     courseChanged := false;
     isOutlining := false;
     toasts := [];
     toastIdCounter := 0;
     engine := {| audioContextRef := None;
                  contextTime := 0%Q;
                  nodes := [];
                  currentSourceRef := None;
                  playbackStartTimeRef := 0%Q;
                  playbackPausedTimeRef := 0%Q;
                  intentionallyStoppedRef := false |};
     caches := {| lectureUiState := ∅;
                  audioDataCache := ∅;
                  audioBufferCache := ∅;
                  actualDurations := ∅ |};
     player := {| currentlyPlaying := None;
                  playerState := {| PlayerState.isLoading := false;
                                    PlayerState.isPlaying := false;
                                    PlayerState.progress := 0%Q;
                                    PlayerState.currentTime := 0%Q;
                                    PlayerState.duration := 0%Q;
                                    PlayerState.volume := 1%Q;
                                    PlayerState.error := None |};
                  lastPlayedIndex := None |};
     video := {| videoStates := ∅;
                 pollingIntervals := ∅;
                 isApiKeyModalOpen := false;
                 pendingAction := None;
                 apiKey := key |};
     platform := {| timers := ∅;
                    nextTimer := 1;
                    inflight := ∅;
                    nextRequest := 0;
                    requests := [];
                    runs := ∅;
                    nextRun := 0;
                    downloads := [] |} |}.

Definition reachable (s : App) : Prop :=
  ∃ (key : string) (evs : list Event), s = run (initialState key) evs.

(** ** Sample data

    A two-lecture course and the answers of the collaborators, used to run
    the event loop on concrete traces. *)

Module Sample.

Definition outlineLecture (title : string) : Lecture.t :=
  {| Lecture.title := title; Lecture.duration := None;
     Lecture.goals := "Understand the topic";
     Lecture.script := None; Lecture.summary := None; Lecture.quiz := None |}.

Definition outline : Course.t :=
  {| Course.courseTitle := "Sound";
     Course.totalDuration := "20 Minutes";
     Course.lectures := [outlineLecture "Waves"; outlineLecture "Sampling"] |}.

Definition details (script : string) : Details.t :=
  {| Details.duration := "10 min"; Details.script := script;
     Details.summary := "Key points"; Details.quiz := ["What is a wave?"] |}.

(** Two frames and one frame of 16-bit PCM, base64-encoded. *)
Definition audioA : string := "AAEC/w==".
Definition audioB : string := "AQI=".

(** Course generation up to the point where both lectures are loaded: the
    outline arrives, the details arrive in lecture order, then the audio. *)
Definition generated : list Event :=
  [ ClickGenerateCourse;
    Settle 0 (OutlineResponse (Ok outline));
    Settle 1 (DetailsResponse (Ok (details "A wave is a disturbance.")));
    Settle 2 (DetailsResponse (Ok (details "Sampling measures a signal.")));
    Settle 3 (AudioResponse (Ok audioA));
    Settle 4 (AudioResponse (Ok audioB)) ].

End Sample.

(** ** Vocabulary for the properties of the playback engine *)

Module EngineSpec.

(** The invariant of the audio graph: a node that is playing or still has
    its [onended] handler is the one [currentSourceRef] points to, and a node
    on which [stop()] was called neither plays nor has a handler. *)
Definition NodesInv (ns : list SourceNode.t) (cur : option nat) : Prop :=
  ∀ (n : nat) (node : SourceNode.t), ns !! n = Some node →
    (SourceNode.playing node = true → cur = Some n)
    ∧ (SourceNode.onended node ≠ None → cur = Some n)
    ∧ (SourceNode.stopCalled node = true →
         SourceNode.playing node = false ∧ SourceNode.onended node = None).

(** While a source is current, [intentionallyStoppedRef] is clear. *)
Definition Inv (s : App) : Prop :=
  NodesInv (nodes (engine s)) (currentSourceRef (engine s))
  ∧ (is_Some (currentSourceRef (engine s)) → intentionallyStoppedRef (engine s) = false).

(** The effects have run: nothing is left for them to do. *)
Definition Quiescent (s : App) : Prop :=
  courseChanged s = false
  ∧ (lastPlayedIndex (player s) = None ∨ course s = None).

(** The nodes after [stopPlayback]. *)
Definition stoppedNodes (ns : list SourceNode.t) (cur : option nat) : list SourceNode.t :=
  match cur with
  | Some n => alter disconnectNode n (alter stopNode n (alter (setOnended None) n ns))
  | None => ns
  end.

(** The node that [startPlayback] creates. *)
Definition startedNode (buffer : Codec.AudioBuffer) (index : nat) (offset : Q)
  : SourceNode.t :=
  {| SourceNode.buffer := buffer;
     SourceNode.startOffset := offset;
     SourceNode.connected := true;
     SourceNode.playing := true;
     SourceNode.onended := Some index;
     SourceNode.endedQueued := false;
     SourceNode.stopCalled := false |}.

(** Only the platform record differs. *)
Definition samePlatformOnly (s s' : App) : Prop :=
  course s' = course s ∧ courseChanged s' = courseChanged s
  ∧ isOutlining s' = isOutlining s ∧ toasts s' = toasts s
  ∧ toastIdCounter s' = toastIdCounter s ∧ engine s' = engine s
  ∧ caches s' = caches s ∧ player s' = player s ∧ video s' = video s.

(** What a successful [playAudioFromCache] did: it took the decoded buffer
    from the cache, or decoded the cached bytes and stored the result, and
    started playback of that buffer from the beginning. *)
Definition playedFromCache (index : nat) (s s' : App) (b : Codec.AudioBuffer) : Prop :=
  ∃ s0 : App,
    s' = startPlayback b index 0
           (set_actualDurations (<[index := Codec.duration b]>) s0)
    ∧ ((audioBufferCache (caches s) !! index = Some b ∧ s0 = s)
       ∨ (audioBufferCache (caches s) !! index = None
          ∧ ∃ (base64Audio : string) (data : list byte) (ctx : Codec.AudioContext),
              audioDataCache (caches s) !! index = Some base64Audio
              ∧ truthy (Some base64Audio) = true
              ∧ Codec.decode base64Audio = Ok data
              ∧ audioContextRef (engine s) = Some ctx
              ∧ Codec.decodeAudioData data ctx 24000 1 = Ok b
              ∧ s0 = set_audioBufferCache (<[index := b]>) s)).


(** Playback of [b] for lecture [index] has just started in [s'], on a node
    created after the nodes of [s]. *)
Definition startedPlaying (index : nat) (b : Codec.AudioBuffer) (s s' : App) : Prop :=
  PlayerState.isPlaying (playerState (player s')) = true
  ∧ PlayerState.isLoading (playerState (player s')) = false
  ∧ currentSourceRef (engine s') = Some (length (nodes (engine s)))
  ∧ nodes (engine s') !! length (nodes (engine s)) = Some (startedNode b index 0).


(** The first part of the path [handleSetLectureToPlay] takes for a lecture
    other than the current one: full stop, selection, loading. *)
Definition selected (lecture : Lecture.t) (index : nat) (s : App) : App :=
  s |> stopPlayback true
    |> set_currentlyPlaying (λ _, Some (lecture, index))
    |> set_playerState (λ prev,
         {| PlayerState.isLoading := true;
            PlayerState.isPlaying := PlayerState.isPlaying prev;
            PlayerState.progress := 0%Q;
            PlayerState.currentTime := 0%Q;
            PlayerState.duration := PlayerState.duration prev;
            PlayerState.volume := PlayerState.volume prev;
            PlayerState.error := None |}).

End EngineSpec.

(** ** Vocabulary for the properties of the pipeline and the video poller *)

Module PipelineSpec.

(** How many times the course-ready notification was shown. *)
Definition courseReadyToasts (s : App) : nat :=
  length (filter (λ t, Toast.message t = "Your course is fully generated and ready!")
                 (toasts s)).

(** What [playAudioFromCache] would decode from a byte payload. *)
Definition decoded (base64Audio : string) : result Codec.AudioBuffer :=
  data ← Codec.decode base64Audio;
  Codec.decodeAudioData data Codec.defaultContext 24000 1.

(** The details of lecture 1 arrive before those of lecture 0; every call is
    answered, successfully, exactly once. *)
Definition outOfOrder : list Event :=
  [ ClickGenerateCourse;
    Settle 0 (OutlineResponse (Ok Sample.outline));
    Settle 2 (DetailsResponse (Ok (Sample.details "Sampling measures a signal.")));
    Settle 1 (DetailsResponse (Ok (Sample.details "A wave is a disturbance.")));
    Settle 3 (AudioResponse (Ok Sample.audioB));
    Settle 6 (AudioResponse (Ok Sample.audioA));
    Settle 4 (DetailsResponse (Ok (Sample.details "A wave is a disturbance.")));
    Settle 5 (DetailsResponse (Ok (Sample.details "Sampling measures a signal.")));
    Settle 7 (AudioResponse (Ok Sample.audioA));
    Settle 8 (AudioResponse (Ok Sample.audioB)) ].

Definition editedLecture : Lecture.t :=
  {| Lecture.title := "Waves";
     Lecture.duration := Some "10 min";
     Lecture.goals := "Understand the topic";
     Lecture.script := Some "A wave carries energy.";
     Lecture.summary := Some "Key points";
     Lecture.quiz := Some ["What is a wave?"] |}.

(** The script of lecture 0 is edited while the pipeline's synthesis of the
    first script is in flight; the synthesis of the edited script settles
    first and the lecture is played; then the pipeline's synthesis settles. *)
Definition editDuringSynthesis : list Event :=
  [ ClickGenerateCourse;
    Settle 0 (OutlineResponse (Ok Sample.outline));
    Settle 1 (DetailsResponse (Ok (Sample.details "A wave is a disturbance.")));
    SaveLecture 0 editedLecture;
    Settle 4 (AudioResponse (Ok Sample.audioB));
    ClickPlay 0;
    Settle 3 (AudioResponse (Ok Sample.audioA)) ].

End PipelineSpec.

Module VideoSpec.

(** Every active poll timer is the one registered for its lecture index, and
    timer identifiers are positive and below the next one to be handed out. *)
Definition TimersInv (s : App) : Prop :=
  (0 < nextTimer (platform s))%nat
  ∧ ∀ (id : nat) (t : PollTimer), timers (platform s) !! id = Some t →
      pollingIntervals (video s) !! pollIndex t = Some id
      ∧ (0 < id < nextTimer (platform s))%nat.

(** The part of the state the poll timers live in is the same. *)
Definition sameTimers (s s' : App) : Prop :=
  timers (platform s') = timers (platform s)
  ∧ nextTimer (platform s') = nextTimer (platform s)
  ∧ pollingIntervals (video s') = pollingIntervals (video s).

Definition finished (uri : string) : Operation.t :=
  {| Operation.done := true;
     Operation.response := Some (Some uri);
     Operation.errorMessage := None |}.

(** A video job for lecture 0 of the sample course is started and polled
    once; while the status request is in flight, a new course generation is
    started. *)
Definition regeneratedWhilePolling : list Event :=
  Sample.generated ++
  [ ClickGenerateVideo 0;
    Settle 5 (HasKeyResponse true);
    Settle 6 (StartVideoResponse (Ok 42%nat));
    TimerFires 1;
    ClickGenerateCourse ].

End VideoSpec.

(** ** Vocabulary for calls that outlive a course *)

Module RegenerationSpec.

(** From [s] to [s'] no timer has come back: the identifiers handed out so
    far are still taken, and a timer of [s'] with such an identifier is a
    timer of [s]. *)
Definition laterTimers (s s' : App) : Prop :=
  (nextTimer (platform s) ≤ nextTimer (platform s'))%nat
  ∧ ∀ (id : nat) (t : PollTimer),
      (id < nextTimer (platform s))%nat →
      timers (platform s') !! id = Some t → timers (platform s) !! id = Some t.

(** The status request of a poll ends the job in an error with [message]:
    the request fails, or the job is done without a response, or it is done
    with a response that has no video URI (or no API key is set). *)
Inductive endsInError (apiKey : string) : result Operation.t → string → Prop :=
| requestFailed (message : string) :
    endsInError apiKey (Throw (Error message)) message
| doneWithoutResponse (op : Operation.t) :
    Operation.done op = true →
    Operation.response op = None →
    endsInError apiKey (Ok op)
      (if truthy (Operation.errorMessage op)
       then default EmptyString (Operation.errorMessage op)
       else "Video generation finished with an error.")
| doneWithoutUri (op : Operation.t) (downloadLink : option string) :
    Operation.done op = true →
    Operation.response op = Some downloadLink →
    truthy downloadLink && truthy (Some apiKey) = false →
    endsInError apiKey (Ok op) "Video generated, but no URI found.".

(** The sample course with the details of both lectures. *)
Definition detailed : Course.t :=
  {| Course.courseTitle := "Sound";
     Course.totalDuration := "20 Minutes";
     Course.lectures :=
       [ mergeDetails (Sample.outlineLecture "Waves")
           (Sample.details "A wave is a disturbance.");
         mergeDetails (Sample.outlineLecture "Sampling")
           (Sample.details "Sampling measures a signal.") ] |}.

(** The video job of lecture 0 of the sample course is being polled, and the
    call that starts the job of lecture 1 is in flight. *)
Definition pollingAndStarting : list Event :=
  Sample.generated ++
  [ ClickGenerateVideo 0;
    Settle 5 (HasKeyResponse true);
    Settle 6 (StartVideoResponse (Ok 42%nat));
    ClickGenerateVideo 1;
    Settle 7 (HasKeyResponse true) ].

End RegenerationSpec.

(** ** A late synthesis under another lecture *)

Module StaleSpec.




End StaleSpec.

(** ** A save before the first lecture has its script *)

Module EditSpec.

Definition editedSampling : Lecture.t :=
  {| Lecture.title := "Sampling";
     Lecture.duration := Some "10 min";
     Lecture.goals := "Understand the topic";
     Lecture.script := Some "Sampling, explained again.";
     Lecture.summary := Some "Key points";
     Lecture.quiz := Some ["What is a wave?"] |}.

(** The details of lecture 1 of the sample course have arrived, those of
    lecture 0 have not. *)
Definition secondLectureFirst : list Event :=
  [ ClickGenerateCourse;
    Settle 0 (OutlineResponse (Ok Sample.outline));
    Settle 2 (DetailsResponse (Ok (Sample.details "Sampling measures a signal."))) ].

(** The scripts of the lectures of the course, if there is one. *)
Definition scripts (s : App) : option (list (option string)) :=
  (λ c, Lecture.script <$> Course.lectures c) <$> course s.


End EditSpec.

(* ================================================================== *)
(** * Bulk export: [handleDownloadAll] *)
(* ================================================================== *)

(** The export runs over many turns of the event loop; what it reads between
    them is the live byte cache.  [cacheAt t] is the content of
    [audioDataCache.current] [t] seconds after the call; [course] and
    [lectureUiState] are the values captured by the closure.  The result is
    the sequence of things the function does: the toasts it shows, the file
    it offers, the collaborator calls it makes. *)

Module DownloadAll.

Inductive Effect :=
| ShowToast (message : string) (type : Toast.kind)
| OfferDownload (d : Download)
| Call (rq : Request).

(** The condition under which the loop waits for a lecture. *)
Definition needsWait (audioData : option string) (state : option AudioState.t) : bool :=
  negb (truthy audioData)
  || bool_decide (state = Some AudioState.error)
  || negb (bool_decide (state = Some AudioState.loaded)).

(** The promise around [setInterval(..., 1000)]: a tick every second; a tick
    that finds the entry resolves, one that finds [attempts > 60] rejects,
    any other counts.  The result is the time of the resolving tick, or
    [None] for the rejection. *)
Equations? poll (cacheAt : nat → gmap nat string) (i t attempts : nat) : option nat
  by wf (61 - attempts)%nat lt :=
  poll cacheAt i t attempts with truthy (cacheAt (S t) !! i) := {
    | true => Some (S t)
    | false with le_lt_dec attempts 60 := {
        | left _ => poll cacheAt i (S t) (S attempts)
        | right _ => None } }.
Proof. lia. Qed.

(** The loop over the lectures, from lecture [i] at time [t]. *)
Fixpoint collect (cacheAt : nat → gmap nat string) (uiState : gmap nat AudioState.t)
    (lectures : list Lecture.t) (i t : nat) (audioDatas : list string)
  : list Effect * result (list string) :=
  match lectures with
  | [] => ([], Ok audioDatas)
  | lecture :: rest =>
      let audioData := cacheAt t !! i in
      if needsWait audioData (uiState !! i) then
        let waiting :=
          ShowToast (String.append "Waiting for audio for "
                       (String.append (quoted (Lecture.title lecture)) "..."))
                    Toast.info in
        match poll cacheAt i t 0 with
        | Some t' =>
            let audioData := cacheAt t' !! i in
            if truthy audioData then
              let '(effects, r) :=
                collect cacheAt uiState rest (S i) t'
                        (audioDatas ++ [default EmptyString audioData]) in
              (waiting :: effects, r)
            else
              ([waiting],
               Throw (Error (String.append "Audio generation failed for "
                               (quoted (Lecture.title lecture)))))
        | None =>
            ([waiting],
             Throw (Error (String.append "Timed out waiting for audio: "
                             (Lecture.title lecture))))
        end
      else if truthy audioData then
        collect cacheAt uiState rest (S i) t
                (audioDatas ++ [default EmptyString audioData])
      else
        ([], Throw (Error (String.append "Audio generation failed for "
                             (quoted (Lecture.title lecture)))))
  end.

Definition isForbidden (c : ascii) : bool :=
  let n := nat_of_ascii c in
  ((n =? 92) || (n =? 47) || (n =? 58) || (n =? 34) || (n =? 42) || (n =? 63)
   || (n =? 60) || (n =? 62) || (n =? 124))%nat.

(** Removes the characters a file name cannot hold: backslash, slash, colon,
    double quote, asterisk, question mark, angle brackets and bar. *)
Fixpoint stripForbidden (title : string) : string :=
  match title with
  | EmptyString => EmptyString
  | String c rest =>
      if isForbidden c then stripForbidden rest else String c (stripForbidden rest)
  end.

Definition handleDownloadAll (course : option Course.t)
    (lectureUiState : gmap nat AudioState.t) (cacheAt : nat → gmap nat string)
  : list Effect :=
  match course with
  | None => []
  | Some course =>
      let '(effects, r) :=
        collect cacheAt lectureUiState (Course.lectures course) 0 0 [] in
      let finish : list Effect * result Download :=
        match r with
        | Throw e => ([], Throw e)
        | Ok audioDatas =>
            if negb (length audioDatas =? length (Course.lectures course))%nat
            then ([], Throw (Error "Could not generate all lecture audios."))
            else
              ([ShowToast "Merging audio files..." Toast.info],
               mergedBlob ← Codec.createMergedWavBlob audioDatas;
               Ok {| fileName :=
                       String.append
                         (underscored (stripForbidden (Course.courseTitle course)))
                         "_Full_Course.wav";
                     file := mergedBlob |})
        end in
      ShowToast "Preparing your full course audio..." Toast.info
        :: effects ++ finish.1
        ++ [match finish.2 with
            | Ok d => OfferDownload d
            | Throw e => ShowToast (exnMessage e) Toast.error
            end]
  end.

(** An effect that is an informational toast. *)
Definition isInfo (e : Effect) : bool :=
  match e with
  | ShowToast _ Toast.info => true
  | _ => false
  end.

(** A stuck lecture: lecture 1 of a two-lecture course never gets audio. *)
Definition stuck : nat → gmap nat string := λ _, {[ 0%nat := Sample.audioA ]}.

(** Both lectures have audio, lecture 1 is marked as loading. *)
Definition bothCached : nat → gmap nat string :=
  λ _, {[ 0%nat := Sample.audioA; 1%nat := Sample.audioB ]}.

(** The audio of lecture 1 arrives [n] seconds after the call. *)
Definition arrivesAt (n : nat) : nat → gmap nat string :=
  λ t, if (t <? n)%nat then stuck t else bothCached t.

Definition twoLectures : Course.t :=
  {| Course.courseTitle := "Sound: waves";
     Course.totalDuration := "20 Minutes";
     Course.lectures := [PipelineSpec.editedLecture;
                         Sample.outlineLecture "Sampling"] |}.

End DownloadAll.

(* ================================================================== *)
(** * The bulk export, lecture by lecture *)
(* ================================================================== *)

(** The course of an export, told without the loop: which lectures are
    waited for, when each wait ends and what the export has in hand when it
    comes to lecture [k]. *)

Module DownloadAllSpec.
Import DownloadAll.

(** The toast shown before the wait for a lecture. *)
Definition waitingToast (lecture : Lecture.t) : Effect :=
  ShowToast (String.append "Waiting for audio for "
               (String.append (quoted (Lecture.title lecture)) "..."))
            Toast.info.

(** The error of a wait that gave up. *)
Definition timedOut (lecture : Lecture.t) : Effect :=
  ShowToast (String.append "Timed out waiting for audio: " (Lecture.title lecture))
            Toast.error.

Section Collecting.
Variable lectures : list Lecture.t.
Variable uiState : gmap nat AudioState.t.
Variable cacheAt : nat → gmap nat string.

(** Lecture [k], looked at [t] seconds after the call, is waited for: its
    entry is missing, or it is not marked [loaded]. *)
Definition waitsFor (k t : nat) : Prop :=
  truthy (cacheAt t !! k) = false ∨ uiState !! k ≠ Some AudioState.loaded.

(** The wait for lecture [k] that starts at [t] ends at [t']: the tick at
    [t'], one of the 62 ticks of the wait, is the first to find the entry. *)
Definition firstTick (k t t' : nat) : Prop :=
  (t < t' ≤ t + 62)%nat
  ∧ truthy (cacheAt t' !! k) = true
  ∧ ∀ u : nat, (t < u < t')%nat → truthy (cacheAt u !! k) = false.

(** The wait for lecture [k] that starts at [t] gives up: none of its 62
    ticks finds the entry. *)
Definition givesUp (k t : nat) : Prop :=
  ∀ n : nat, (1 ≤ n ≤ 62)%nat → truthy (cacheAt (t + n)%nat !! k) = false.

(** [collected k t audioDatas toasts]: the export comes to lecture [k] at
    time [t], with the entries [audioDatas] of the lectures before it in
    hand, having shown [toasts] for the lectures it waited for.  A lecture
    that is not waited for gives the entry the cache holds when the export
    looks at it; a lecture that is waited for gives the entry the cache holds
    at the tick that ends the wait. *)
Inductive collected : nat → nat → list string → list Effect → Prop :=
| collected_none : collected 0 0 [] []
| collected_ready (k t : nat) (audioDatas : list string) (toasts : list Effect)
    (lecture : Lecture.t) (audioData : string) :
    collected k t audioDatas toasts →
    lectures !! k = Some lecture →
    ¬ waitsFor k t →
    cacheAt t !! k = Some audioData →
    collected (S k) t (audioDatas ++ [audioData]) toasts
| collected_waited (k t t' : nat) (audioDatas : list string) (toasts : list Effect)
    (lecture : Lecture.t) (audioData : string) :
    collected k t audioDatas toasts →
    lectures !! k = Some lecture →
    waitsFor k t →
    firstTick k t t' →
    cacheAt t' !! k = Some audioData →
    collected (S k) t' (audioDatas ++ [audioData]) (toasts ++ [waitingToast lecture]).

End Collecting.

(** The file an export offers. *)
Definition courseFile (c : Course.t) (mergedBlob : Codec.Blob) : Download :=
  {| fileName := String.append
                   (underscored (stripForbidden (Course.courseTitle c)))
                   "_Full_Course.wav";
     file := mergedBlob |}.

(** Lecture 0 is loaded; lecture 1 stays in [content-loading]. *)
Definition secondStuck : gmap nat AudioState.t :=
  {[ 0%nat := AudioState.loaded; 1%nat := AudioState.content_loading ]}.

End DownloadAllSpec.

(* ================================================================== *)
(** * Further vocabulary: base64 encoding *)
(* ================================================================== *)

(** The platform's encoder ([btoa], and what [readAsDataURL] puts after the
    comma): three bytes become four characters of the base64 alphabet, and a
    last group of one or two bytes is padded with [=].  It is used to state
    that [decode] inverts it. *)

Module Base64Spec.

Definition base64Char (v : Z) : ascii :=
  ascii_of_nat (Z.to_nat (if v <? 26 then v + 65
                          else if v <? 52 then v + 71
                          else if v <? 62 then v - 4
                          else if v =? 62 then 43 else 47)).

Definition equalsSign : ascii := ascii_of_nat 61.

(** The sextets of a byte sequence: the bits of the bytes, six at a time,
    the last group filled with zero bits. *)
Fixpoint sextetsOf (bytes : list byte) : list Z :=
  match bytes with
  | b0 :: b1 :: b2 :: rest =>
      let n := byte.unsigned b0 * 65536 + byte.unsigned b1 * 256 + byte.unsigned b2 in
      n / 2 ^ 18 :: (n / 2 ^ 12) mod 64 :: (n / 2 ^ 6) mod 64 :: n mod 64
        :: sextetsOf rest
  | [b0; b1] =>
      let n := (byte.unsigned b0 * 256 + byte.unsigned b1) * 4 in
      [n / 2 ^ 12; (n / 2 ^ 6) mod 64; n mod 64]
  | [b0] =>
      let n := byte.unsigned b0 * 16 in
      [n / 2 ^ 6; n mod 64]
  | [] => []
  end.

Definition padding (bytes : list byte) : list ascii :=
  match (length bytes mod 3)%nat with
  | 1%nat => [equalsSign; equalsSign]
  | 2%nat => [equalsSign]
  | _ => []
  end.

Definition btoa (bytes : list byte) : string :=
  string_of_list_ascii (map base64Char (sextetsOf bytes) ++ padding bytes).

(** What [atob] decodes: the input without ASCII whitespace and without its
    trailing padding. *)
Definition payload (base64 : string) : list ascii :=
  Codec.stripPadding
    (filter (λ c, negb (Codec.isAsciiWhitespace c)) (list_ascii_of_string base64)).

End Base64Spec.

(* ================================================================== *)
(** * More of [App.tsx] *)
(* ================================================================== *)

(** [removeToast]: what the toast component calls when a toast is dismissed
    or has been shown long enough. *)
Definition removeToast (id : nat) (s : App) : App :=
  set_toasts (filter (λ t, Toast.id t ≠ id)) s.

(** A turn of the event loop, or the dismissal of a toast. *)
Inductive Turn :=
| Loop (ev : Event)
| Dismiss (id : nat).

Definition turn (s : App) (t : Turn) : App :=
  match t with
  | Loop ev => step s ev
  | Dismiss id => removeToast id s
  end.

Definition reachableWithDismissals (s : App) : Prop :=
  ∃ (key : string) (turns : list Turn), s = foldl turn (initialState key) turns.

(* ================================================================== *)
(** * Further vocabulary: invariants of the application state *)
(* ================================================================== *)

Module StateSpec.

(** Toast identifiers are pairwise distinct and below the counter that hands
    out the next one. *)
Definition ToastsOk (ts : list Toast.t) (counter : nat) : Prop :=
  NoDup (Toast.id <$> ts) ∧ Forall (λ t, (Toast.id t < counter)%nat) ts.

Definition ToastInv (s : App) : Prop := ToastsOk (toasts s) (toastIdCounter s).

(** A state that differs in neither the toasts nor their counter. *)
Definition sameToasts (s s' : App) : Prop :=
  toasts s' = toasts s ∧ toastIdCounter s' = toastIdCounter s.

(** The caches agree on what exists: a lecture marked [loaded] has a byte
    payload, and so has a lecture with a decoded buffer. *)
Definition CachesOk (states : gmap nat AudioState.t) (data : gmap nat string)
    (buffers : gmap nat Codec.AudioBuffer) : Prop :=
  (∀ i : nat, states !! i = Some AudioState.loaded → is_Some (data !! i))
  ∧ (∀ i : nat, is_Some (buffers !! i) → is_Some (data !! i)).

Definition CacheInv (s : App) : Prop :=
  CachesOk (lectureUiState (caches s)) (audioDataCache (caches s))
           (audioBufferCache (caches s)).

(** Every registered interval is an active poll timer for the lecture index
    it is registered under. *)
Definition RegisteredOk (s : App) : Prop :=
  ∀ (index id : nat), pollingIntervals (video s) !! index = Some id →
    ∃ t : PollTimer, timers (platform s) !! id = Some t ∧ pollIndex t = index.

(** The condition under which the effect on [course] starts the pipeline. *)
Definition startsPipeline (c : Course.t) : bool :=
  match Course.lectures c with
  | first :: _ => negb (truthy (Lecture.script first))
  | [] => false
  end.

(** The request for the details of a lecture of course [c]. *)
Definition detailsRequest (c : Course.t) (lecture : Lecture.t) : Request :=
  GenerateLectureDetails (Course.courseTitle c) (Lecture.title lecture)
                         (Lecture.goals lecture).




End StateSpec.

(* ================================================================== *)
(** * [services/geminiService]: the calls to the AI service *)
(* ================================================================== *)

(** Each function wraps one call into the SDK in a [try] block.  The SDK is
    a parameter: a function from the request the code builds to what the
    call does, which is to return a value or to throw one. *)

Module Gemini.

(** A thrown value: an [Error] object with its message, which may be a
    [SyntaxError], or a value that is not an [Error]. *)
Inductive thrown :=
| ErrorObject (message : string) (isSyntaxError : bool)
| OtherValue.

Inductive outcome (A : Type) :=
| Returns (a : A)
| Raises (error : thrown).
Arguments Returns {A} a.
Arguments Raises {A} error.

(** [error instanceof Error && error.message.includes(text)] *)
Definition errorIncludes (text : string) (error : thrown) : bool :=
  match error with
  | ErrorObject message _ => includes text message
  | OtherValue => false
  end.

(** ** [generateLectureAudio] *)

Record AudioRequest := {
  audioModel : string;
  audioText : string;
  responseModalities : list string;
  voiceName : string
}.

(** The part of the response the function reads, every link of
    [candidates?.[0]?.content?.parts?.[0]?.inlineData?.data] optional. *)
Record InlineData := { data : option string }.
Record Part := { inlineData : option InlineData }.
Record Content := { parts : option (list Part) }.
Record Candidate := { content : option Content }.
Record AudioResponse := { candidates : option (list Candidate) }.

Definition tone (voice : string) : string :=
  if String.eqb voice "Puck" || String.eqb voice "Charon"
  then "moderately energetic" else "calm and clear".

Definition audioRequest (script voice : string) : AudioRequest :=
  {| audioModel := "gemini-2.5-flash-preview-tts";
     audioText := String.append "Say with a "
                    (String.append (tone voice)
                       (String.append " tone: " script));
     responseModalities := ["AUDIO"];
     voiceName := voice |}.

Definition audioDataOf (response : AudioResponse) : option string :=
  cs ← candidates response; c ← head cs; co ← content c;
  ps ← parts co; p ← head ps; i ← inlineData p; data i.

Definition audioFailure : string :=
  "Failed to generate audio. The AI service might be unavailable.".

Definition generateLectureAudio (generateContent : AudioRequest → outcome AudioResponse)
    (script voice : string) : result string :=
  let attempt : outcome string :=
    match generateContent (audioRequest script voice) with
    | Returns response =>
        let base64Audio := audioDataOf response in
        if negb (truthy base64Audio)
        then Raises (ErrorObject "Audio data not found in AI response." false)
        else Returns (default EmptyString base64Audio)
    | Raises error => Raises error
    end in
  match attempt with
  | Returns base64Audio => Ok base64Audio
  | Raises _ => Throw (Error audioFailure)
  end.

(** ** [startVideoGeneration] and [getVideoOperationStatus] *)

Record VideoRequest := {
  videoModel : string;
  videoPrompt : string;
  numberOfVideos : nat;
  resolution : string;
  aspectRatio : string
}.

Definition videoRequest (prompt : string) : VideoRequest :=
  {| videoModel := "veo-3.1-fast-generate-preview";
     videoPrompt :=
       String.append
         "Create a short, engaging video based on the following script. Focus on simple, clear visuals that illustrate the key concepts. The video should be suitable for a mobile-first learning experience. Script: "
         (quoted prompt);
     numberOfVideos := 1;
     resolution := "720p";
     aspectRatio := "16:9" |}.

Definition invalidKey : string :=
  "API key is invalid or lacks permissions. Please select a valid key.".

Definition startVideoGeneration {Op : Type} (generateVideos : VideoRequest → outcome Op)
    (prompt : string) : result Op :=
  match generateVideos (videoRequest prompt) with
  | Returns operation => Ok operation
  | Raises error =>
      if errorIncludes "Requested entity was not found" error
      then Throw (Error invalidKey)
      else Throw (Error "Failed to start video generation. Check your API key and billing status.")
  end.

Definition getVideoOperationStatus {Op St : Type} (getVideosOperation : Op → outcome St)
    (operation : Op) : result St :=
  match getVideosOperation operation with
  | Returns newOperation => Ok newOperation
  | Raises error =>
      if errorIncludes "Requested entity was not found" error
      then Throw (Error invalidKey)
      else Throw (Error "Failed to get video generation status.")
  end.

(** ** [improveScript] *)

(** White space as [trim] sees it, among the characters a [string] holds
    here: tab, line feed, vertical tab, form feed, carriage return, space
    and no-break space. *)
Definition isTrimWhitespace (c : ascii) : bool :=
  let n := nat_of_ascii c in
  ((n =? 32) || ((9 <=? n) && (n <=? 13)) || (n =? 160))%nat.

Fixpoint trimStart (s : string) : string :=
  match s with
  | String c rest => if isTrimWhitespace c then trimStart rest else s
  | EmptyString => EmptyString
  end.

(** The characters of [s] up to the last one that is not white space. *)
Fixpoint trimEnd (s : string) : string :=
  match s with
  | String c rest =>
      match trimEnd rest with
      | EmptyString => if isTrimWhitespace c then EmptyString
                       else String c EmptyString
      | kept => String c kept
      end
  | EmptyString => EmptyString
  end.

Definition trim (s : string) : string := trimEnd (trimStart s).

(** The last character of a string, used to state what [trim] leaves. *)
Fixpoint lastChar (s : string) : option ascii :=
  match s with
  | EmptyString => None
  | String c EmptyString => Some c
  | String _ rest => lastChar rest
  end.

Definition improvePrompt (script : string) : string :=
  String.append
    "You are a professional scriptwriter specializing in educational audio content.
Review the following script and improve it. Make it more conversational, engaging, and easier to understand for a general audience.
Use shorter sentences, natural pauses, and add storytelling elements where appropriate, without changing the core information.

Original Script:
---
"
    (String.append script
       "
---

Return ONLY the improved script as a raw text string, with no extra formatting, titles, or explanations.").

(** [response.text] is [undefined] when the response has no text part;
    calling [trim] on it raises, and the [catch] block takes over. *)
Definition improveScript (generateContent : string * string → outcome (option string))
    (script : string) : result string :=
  match generateContent ("gemini-2.5-flash", improvePrompt script) with
  | Returns (Some text) => Ok (trim text)
  | Returns None | Raises _ => Throw (Error "Failed to improve script with AI.")
  end.

End Gemini.

(* ================================================================== *)
(** * [constants.ts]: the voices *)
(* ================================================================== *)

Module Constants.

Inductive Gender := Male | Female.
Inductive Style := Calm | Energetic.

Record VoiceOption := {
  id : string;
  name : string;
  gender : Gender;
  style : Style;
  ttsValue : string
}.

Definition VOICES : list VoiceOption :=
  [ {| id := "zephyr-calm-m"; name := "Zephyr (Calm Male)"; gender := Male;
       style := Calm; ttsValue := "Zephyr" |};
    {| id := "puck-energetic-m"; name := "Puck (Energetic Male)"; gender := Male;
       style := Energetic; ttsValue := "Puck" |};
    {| id := "kore-calm-f"; name := "Kore (Calm Female)"; gender := Female;
       style := Calm; ttsValue := "Kore" |};
    {| id := "charon-energetic-f"; name := "Charon (Energetic Female)";
       gender := Female; style := Energetic; ttsValue := "Charon" |} ].

End Constants.

(* ================================================================== *)
(** * [components/EditLectureModal] *)
(* ================================================================== *)

Module EditLectureModal.

(** The state of the dialog. *)
Record t := {
  title : string;
  summary : option string;
  script : option string;
  isImproving : bool
}.

(** The state the component mounts with. *)
Definition initial : t :=
  {| title := EmptyString; summary := Some EmptyString;
     script := Some EmptyString; isImproving := false |}.

(** The effect on [lecture]: the fields are filled from the lecture the
    dialog was opened for. *)
Definition lectureEffect (lecture : option Lecture.t) (m : t) : t :=
  match lecture with
  | Some lecture =>
      {| title := Lecture.title lecture;
         summary := Lecture.summary lecture;
         script := Lecture.script lecture;
         isImproving := isImproving m |}
  | None => m
  end.

(** [handleSave] builds [{ ...lecture, title, summary, script }] and passes
    it to [onSave]. *)
Definition handleSave (lecture : Lecture.t) (m : t) : Lecture.t :=
  {| Lecture.title := title m;
     Lecture.duration := Lecture.duration lecture;
     Lecture.goals := Lecture.goals lecture;
     Lecture.script := script m;
     Lecture.summary := summary m;
     Lecture.quiz := Lecture.quiz lecture |}.

(** What [handleImproveScript] does before its [await]: with nothing but
    white space in the script it shows a toast and stops; otherwise it sets
    the busy flag and calls [improveScript].  A script that is [undefined]
    has no [trim]: the call raises. *)
Inductive Started :=
| NothingToImprove (toast : string * Toast.kind)
| Improving (m : t) (script : string)
| RaisedTypeError.

Definition handleImproveScript (m : t) : Started :=
  match script m with
  | None => RaisedTypeError
  | Some script =>
      if negb (truthy (Some (Gemini.trim script)))
      then NothingToImprove ("Script is empty, nothing to improve.", Toast.info)
      else Improving {| title := title m; summary := summary m;
                        script := Some script;
                        isImproving := true |} script
  end.

(** What it does when [improveScript] settles: the script and the toast, and
    the busy flag cleared either way. *)
Definition improveSettled (r : result string) (m : t) : t * (string * Toast.kind) :=
  match r with
  | Ok improvedScript =>
      ({| title := title m; summary := summary m;
          script := Some improvedScript; isImproving := false |},
       ("Script improved successfully!", Toast.success))
  | Throw e =>
      ({| title := title m; summary := summary m;
          script := script m; isImproving := false |},
       (exnMessage e, Toast.error))
  end.

End EditLectureModal.
(* ================================================================== *)
(** * Properties *)
(* ================================================================== *)

Module CodecFacts.
Import Codec CodecSpec.

Lemma bind_Ok {A B} (f : A → result B) (a : A) : (Ok a ≫= f) = f a.
Proof. reflexivity. Qed.

(** *** Writes into a buffer *)

Lemma writeBytes_prefix (a b : list byte) (off : nat) (bs a' : list byte) :
  writeBytes a off bs = Ok a' → writeBytes (a ++ b) off bs = Ok (a' ++ b).
Proof.
  unfold writeBytes. rewrite length_app.
  destruct (off + length bs <=? length a)%nat eqn:E; [|discriminate].
  apply Nat.leb_le in E. intros [= <-].
  replace (off + length bs <=? length a + length b)%nat with true
    by (symmetry; apply Nat.leb_le; lia).
  rewrite take_app_le, drop_app_le by lia.
  by rewrite <- !app_assoc.
Qed.

Lemma writeBytes_length (a : list byte) (off : nat) (bs a' : list byte) :
  writeBytes a off bs = Ok a' → length a' = length a.
Proof.
  unfold writeBytes.
  destruct (off + length bs <=? length a)%nat eqn:E; [|discriminate].
  apply Nat.leb_le in E. intros [= <-].
  rewrite !length_app, length_take, length_drop. lia.
Qed.

Lemma writeBytes_suffix (a old new : list byte) :
  length old = length new →
  writeBytes (a ++ old) (length a) new = Ok (a ++ new).
Proof.
  intros Hlen. unfold writeBytes. rewrite length_app.
  replace (length a + length new <=? length a + length old)%nat with true
    by (symmetry; apply Nat.leb_le; lia).
  rewrite take_app_length.
  rewrite drop_ge by (rewrite length_app; lia).
  by rewrite app_nil_r.
Qed.

Lemma writeBytes_middle (a old c new : list byte) :
  length old = length new →
  writeBytes (a ++ old ++ c) (length a) new = Ok (a ++ new ++ c).
Proof.
  intros Hlen.
  replace (a ++ old ++ c) with ((a ++ old) ++ c) by (by rewrite <- app_assoc).
  replace (a ++ new ++ c) with ((a ++ new) ++ c) by (by rewrite <- app_assoc).
  apply writeBytes_prefix. by apply writeBytes_suffix.
Qed.

Lemma writeString_steps_prefix (s : string) (off : nat) (b : list byte) (ixs : list nat) :
  ∀ (r : result (list byte)) (a' : list byte),
    foldl (λ (acc : result (list byte)) (i : nat),
             view ← acc; setUint8 view (off + i) (charCodeAt s i)) r ixs = Ok a' →
    foldl (λ (acc : result (list byte)) (i : nat),
             view ← acc; setUint8 view (off + i) (charCodeAt s i))
          ((λ v, v ++ b) <$> r) ixs = Ok (a' ++ b).
Proof.
  induction ixs as [|i ixs IH]; intros r a' H; simpl in *.
  - by rewrite H.
  - destruct r as [v|e]; simpl in *.
    + destruct (setUint8 v (off + i) (charCodeAt s i)) as [v'|e'] eqn:E.
      * unfold setUint8 in *. erewrite writeBytes_prefix by exact E.
        by apply (IH (Ok v')).
      * exfalso. clear -H. induction ixs; simpl in H; [discriminate|auto].
    + exfalso. clear -H. induction ixs; simpl in H; [discriminate|auto].
Qed.

Lemma writeString_prefix (a b : list byte) (off : nat) (s : string) (a' : list byte) :
  writeString a off s = Ok a' → writeString (a ++ b) off s = Ok (a' ++ b).
Proof. intros H. by apply (writeString_steps_prefix s off b _ (Ok a)). Qed.

Lemma le_split_2 (z : Z) : ∃ b0 b1, le_split 2 z = [b0; b1].
Proof. simpl. eauto. Qed.

Lemma le_split_4 (z : Z) : ∃ b0 b1 b2 b3, le_split 4 z = [b0; b1; b2; b3].
Proof. simpl. eauto 6. Qed.

(** *** The layout of [pcmToWavBlob] *)



Lemma wavHeader_length (n : nat) : length (wavHeader n) = 44%nat.
Proof. reflexivity. Qed.

Lemma pcmToWavBlob_layout (pcm : list byte) :
  pcmToWavBlob pcm
  = Ok {| blobBytes := wavHeader (length pcm) ++ pcm; blobType := "audio/wav" |}.
Proof.
  unfold pcmToWavBlob, wavHeader.
  destruct (le_split_4 (36 + Z.of_nat (length pcm))) as (c0 & c1 & c2 & c3 & Hc).
  destruct (le_split_4 (Z.of_nat (length pcm))) as (d0 & d1 & d2 & d3 & Hd).
  rewrite repeat_app.
  generalize (repeat_length Byte.x00 (length pcm)).
  generalize (repeat Byte.x00 (length pcm)) as tail. intros tail Htail.
  unfold setUint32, setUint16, typedSet. rewrite Hc, Hd.
  repeat (first
    [ erewrite writeString_prefix by (vm_compute; reflexivity)
    | erewrite writeBytes_prefix by (vm_compute; reflexivity) ];
    rewrite bind_Ok).
  match goal with
  | |- context [writeBytes (?h ++ tail) 44 pcm] =>
      change 44%nat with (length h); rewrite (writeBytes_suffix h tail pcm Htail)
  end.
  reflexivity.
Qed.

Lemma wavHeader_field32 (n : nat) (pcm : list byte) :
  take 4 (drop 4 (wavHeader n ++ pcm)) = le_split 4 (36 + Z.of_nat n)
  ∧ take 4 (drop 40 (wavHeader n ++ pcm)) = le_split 4 (Z.of_nat n).
Proof.
  unfold wavHeader.
  destruct (le_split_4 (36 + Z.of_nat n)) as (c0 & c1 & c2 & c3 & ->).
  destruct (le_split_4 (Z.of_nat n)) as (d0 & d1 & d2 & d3 & ->).
  split; reflexivity.
Qed.

Lemma wavHeader_fixed (n : nat) (pcm : list byte) :
  let bs := wavHeader n ++ pcm in
  asciiAt bs 0 4 = "RIFF" ∧ asciiAt bs 8 4 = "WAVE"
  ∧ asciiAt bs 12 4 = "fmt " ∧ asciiAt bs 36 4 = "data"
  ∧ getUint32 bs 16 = 16 ∧ getUint16 bs 20 = 1 ∧ getUint16 bs 22 = 1
  ∧ getUint32 bs 24 = 24000 ∧ getUint32 bs 28 = 48000
  ∧ getUint16 bs 32 = 2 ∧ getUint16 bs 34 = 16
  ∧ drop 44 bs = pcm.
Proof.
  unfold wavHeader.
  destruct (le_split_4 (36 + Z.of_nat n)) as (c0 & c1 & c2 & c3 & ->).
  destruct (le_split_4 (Z.of_nat n)) as (d0 & d1 & d2 & d3 & ->).
  repeat split; reflexivity.
Qed.

(** C2. For every base64 string [x] that decodes to [pcm], [createWavBlob x]
    is a 44-byte header followed by [pcm]: bytes 0-3 spell RIFF, bytes 8-11
    spell WAVE, the little-endian field at 4-7 is [36 + length pcm], the one
    at 40-43 is [length pcm], and the fixed fields declare PCM, one channel,
    24000 Hz, 16 bits per sample.  The two size fields are 32 bits wide; the
    sizes are assumed to fit, which holds for every string a JavaScript engine
    can hold. *)
Theorem createWavBlob_header (x : string) (pcm : list byte) :
  decode x = Ok pcm →
  36 + Z.of_nat (length pcm) < 2 ^ 32 →
  ∃ wav, createWavBlob x = Ok wav
    ∧ blobType wav = "audio/wav"
    ∧ length (blobBytes wav) = (44 + length pcm)%nat
    ∧ asciiAt (blobBytes wav) 0 4 = "RIFF"
    ∧ getUint32 (blobBytes wav) 4 = 36 + Z.of_nat (length pcm)
    ∧ asciiAt (blobBytes wav) 8 4 = "WAVE"
    ∧ asciiAt (blobBytes wav) 12 4 = "fmt "
    ∧ getUint16 (blobBytes wav) 20 = 1
    ∧ getUint16 (blobBytes wav) 22 = 1
    ∧ getUint32 (blobBytes wav) 24 = 24000
    ∧ getUint32 (blobBytes wav) 28 = 48000
    ∧ getUint16 (blobBytes wav) 32 = 2
    ∧ getUint16 (blobBytes wav) 34 = 16
    ∧ asciiAt (blobBytes wav) 36 4 = "data"
    ∧ getUint32 (blobBytes wav) 40 = Z.of_nat (length pcm)
    ∧ drop 44 (blobBytes wav) = pcm.
Proof.
  intros Hdec Hfit. unfold createWavBlob. rewrite Hdec, bind_Ok, pcmToWavBlob_layout.
  eexists; split; [reflexivity|]. cbn [blobBytes blobType].
  split; [reflexivity|].
  destruct (wavHeader_fixed (length pcm) pcm)
    as (H0 & H8 & H12 & H36 & H16 & H20 & H22 & H24 & H28 & H32 & H34 & Hdata).
  destruct (wavHeader_field32 (length pcm) pcm) as [Hchunk Hsize].
  repeat split; try assumption.
  - unfold getUint32. rewrite Hchunk, le_combine_split. apply Z.mod_small. lia.
  - unfold getUint32. rewrite Hsize, le_combine_split. apply Z.mod_small. lia.
Qed.

Lemma createWavBlob_header_witness :
  ∃ wav, createWavBlob "AAEC/w==" = Ok wav
    ∧ getUint32 (blobBytes wav) 4 = 40
    ∧ getUint32 (blobBytes wav) 40 = 4
    ∧ drop 44 (blobBytes wav) = [Byte.x00; Byte.x01; Byte.x02; Byte.xff].
Proof.
  destruct (createWavBlob_header "AAEC/w==" [Byte.x00; Byte.x01; Byte.x02; Byte.xff])
    as (wav & Hw & _ & _ & _ & H4 & _ & _ & _ & _ & _ & _ & _ & _ & _ & H40 & Hd).
  - vm_compute. reflexivity.
  - simpl. lia.
  - exists wav. repeat split; assumption.
Defined.

(** *** Merging *)

Lemma mapM_decode (xs : list string) (ps : list (list byte)) :
  Forall2 (λ x p, decode x = Ok p) xs ps → mapM decode xs = Ok ps.
Proof.
  induction 1 as [|x p xs ps Hx _ IH]; [reflexivity|].
  cbn. rewrite Hx. cbn. rewrite IH. reflexivity.
Qed.

Lemma totalLength_concat (chunks : list (list byte)) (acc : nat) :
  foldl (λ (acc : nat) (chunk : list byte), (acc + length chunk)%nat) acc chunks
  = (acc + length (concat chunks))%nat.
Proof.
  revert acc. induction chunks as [|c chunks IH]; intros acc; simpl.
  - lia.
  - rewrite IH, length_app. lia.
Qed.

Lemma merge_loop (chunks : list (list byte)) :
  ∀ done : list byte,
    foldl (λ (st : result (list byte * nat)) (chunk : list byte),
             '(mergedPcm, offset) ← st;
             mergedPcm ← typedSet mergedPcm chunk offset;
             Ok (mergedPcm, (offset + length chunk)%nat))
          (Ok (done ++ repeat Byte.x00 (length (concat chunks)), length done)) chunks
    = Ok (done ++ concat chunks, length (done ++ concat chunks)).
Proof.
  induction chunks as [|c chunks IH]; intros done; simpl.
  - by rewrite !app_nil_r.
  - rewrite length_app, repeat_app. unfold typedSet.
    rewrite writeBytes_middle by (by rewrite repeat_length).
    rewrite bind_Ok.
    replace (done ++ c ++ repeat Byte.x00 (length (concat chunks)))
      with ((done ++ c) ++ repeat Byte.x00 (length (concat chunks)))
      by (by rewrite <- app_assoc).
    replace (length done + length c)%nat with (length (done ++ c))
      by (by rewrite length_app).
    rewrite IH. by rewrite <- app_assoc.
Qed.

Lemma createMergedWavBlob_layout (xs : list string) (ps : list (list byte)) :
  Forall2 (λ x p, decode x = Ok p) xs ps →
  createMergedWavBlob xs
  = Ok {| blobBytes := wavHeader (length (concat ps)) ++ concat ps;
          blobType := "audio/wav" |}.
Proof.
  intros H. unfold createMergedWavBlob.
  rewrite (mapM_decode _ _ H), bind_Ok, totalLength_concat.
  pose proof (merge_loop ps []) as Hloop. simpl in Hloop.
  change (0 + length (concat ps))%nat with (length (concat ps)).
  rewrite Hloop, bind_Ok. simpl.
  apply pcmToWavBlob_layout.
Qed.

(** C1. For every list of base64 payloads decoding to the byte sequences [ps]
    (in lecture order), [createMergedWavBlob] succeeds and the data section of
    the WAV is exactly [concat ps]: nothing is added between or around the
    chunks, and the file is the 44-byte header plus the summed lengths.  For
    two inputs, splitting the data section at the length of the first recovers
    both unchanged. *)
Theorem createMergedWavBlob_data (xs : list string) (ps : list (list byte)) :
  Forall2 (λ x p, decode x = Ok p) xs ps →
  ∃ wav, createMergedWavBlob xs = Ok wav
    ∧ dataSection (blobBytes wav) = concat ps
    ∧ length (blobBytes wav) = (44 + sum_list (length <$> ps))%nat
    ∧ ∀ a b : list byte, ps = [a; b] →
        take (length a) (dataSection (blobBytes wav)) = a
        ∧ drop (length a) (dataSection (blobBytes wav)) = b.
Proof.
  intros H. rewrite (createMergedWavBlob_layout _ _ H).
  eexists; split; [reflexivity|]. cbn [blobBytes].
  assert (Hdata : dataSection (wavHeader (length (concat ps)) ++ concat ps) = concat ps).
  { unfold dataSection. apply (wavHeader_fixed (length (concat ps)) (concat ps)). }
  rewrite Hdata. repeat split.
  - rewrite length_app, wavHeader_length. f_equal.
    clear. induction ps as [|p ps IH]; simpl; [reflexivity|].
    rewrite length_app, IH. reflexivity.
  - subst ps. simpl. rewrite app_nil_r. apply take_app_length.
  - subst ps. simpl. rewrite app_nil_r. apply drop_app_length.
Qed.

Lemma createMergedWavBlob_data_witness :
  ∃ wav, createMergedWavBlob ["AAEC/w=="; "AQI="] = Ok wav
    ∧ dataSection (blobBytes wav)
      = [Byte.x00; Byte.x01; Byte.x02; Byte.xff; Byte.x01; Byte.x02]
    ∧ take 4 (dataSection (blobBytes wav)) = [Byte.x00; Byte.x01; Byte.x02; Byte.xff]
    ∧ drop 4 (dataSection (blobBytes wav)) = [Byte.x01; Byte.x02].
Proof.
  destruct (createMergedWavBlob_data ["AAEC/w=="; "AQI="]
              [[Byte.x00; Byte.x01; Byte.x02; Byte.xff]; [Byte.x01; Byte.x02]])
    as (wav & Hw & Hd & _ & Hsplit).
  - repeat constructor.
  - exists wav. destruct (Hsplit _ _ eq_refl) as [Ha Hb].
    repeat split; assumption.
Defined.

(** *** Decoding PCM *)

Lemma list_pair_ind {A} (P : list A → Prop) :
  P [] → (∀ x, P [x]) → (∀ x y l, P l → P (x :: y :: l)) → ∀ l, P l.
Proof.
  intros H0 H1 H2 l.
  assert (H : P l ∧ ∀ x, P (x :: l)); [|apply H].
  induction l as [|a l [IHa IHb]]; split; auto.
Qed.

Lemma int16Elements_length (bs : list byte) :
  length (int16Elements bs) = (length bs / 2)%nat.
Proof.
  induction bs as [|x|x y l IH] using list_pair_ind; try reflexivity.
  cbn [int16Elements length]. rewrite IH.
  change (S (S (length l))) with (1 * 2 + length l)%nat.
  rewrite Nat.div_add_l by lia. reflexivity.
Qed.

Lemma int16Elements_lookup (bs : list byte) :
  ∀ k : nat, (k < length bs / 2)%nat →
    ∃ lo hi, bs !! (2 * k)%nat = Some lo ∧ bs !! (2 * k + 1)%nat = Some hi
      ∧ int16Elements bs !! k = Some (toInt16 (le_combine [lo; hi])).
Proof.
  induction bs as [|x|x y l IH] using list_pair_ind; intros k Hk.
  - simpl in Hk. lia.
  - simpl in Hk. lia.
  - destruct k as [|k].
    + exists x, y. repeat split.
    + cbn [length] in Hk.
      change (S (S (length l))) with (1 * 2 + length l)%nat in Hk.
      rewrite Nat.div_add_l in Hk by lia.
      destruct (IH k) as (lo & hi & Hlo & Hhi & Hv); [lia|].
      exists lo, hi.
      replace (2 * S k)%nat with (S (S (2 * k))) by lia.
      replace (S (S (2 * k)) + 1)%nat with (S (S (2 * k + 1))) by lia.
      repeat split; assumption.
Qed.

Lemma toInt16_range (lo hi : byte) :
  -32768 <= toInt16 (le_combine [lo; hi]) < 32768.
Proof.
  pose proof (le_combine_bound [lo; hi]) as H. cbn [length] in H.
  change (2 ^ (8 * Z.of_nat 2)) with 65536 in H.
  unfold toInt16. destruct (Z.ltb_spec (le_combine [lo; hi]) 32768); lia.
Qed.

Section UpdateLoop.
Context {A : Type} (d : A) (g : nat → A → A).

Lemma updateLoop_length (n : nat) :
  ∀ (s : nat) (l : list A), length (foldl (updateStep d g) l (seq s n)) = length l.
Proof.
  induction n as [|n IH]; intros s l; simpl; [reflexivity|].
  rewrite IH. unfold updateStep. apply length_insert.
Qed.

Lemma updateLoop_before (n : nat) :
  ∀ (s : nat) (l : list A) (i : nat), (i < s)%nat →
    foldl (updateStep d g) l (seq s n) !! i = l !! i.
Proof.
  induction n as [|n IH]; intros s l i Hi; simpl; [reflexivity|].
  rewrite IH by lia. unfold updateStep.
  apply list_lookup_insert_ne. lia.
Qed.

Lemma updateLoop_at (n : nat) :
  ∀ (s : nat) (l : list A) (i : nat) (x : A),
    l !! i = Some x → (s ≤ i < s + n)%nat →
    foldl (updateStep d g) l (seq s n) !! i = Some (g i x).
Proof.
  induction n as [|n IH]; intros s l i x Hx Hi; simpl; [lia|].
  destruct (decide (i = s)) as [->|Hne].
  - rewrite updateLoop_before by lia. unfold updateStep. rewrite Hx. simpl.
    apply list_lookup_insert_eq. by eapply lookup_lt_Some.
  - apply IH; [|lia]. unfold updateStep.
    rewrite list_lookup_insert_ne by lia. exact Hx.
Qed.
End UpdateLoop.

Lemma Qfloor_lengths (a c : nat) :
  (1 ≤ c)%nat → Qfloor (Z.of_nat a # Pos.of_nat c) = Z.of_nat (a / c).
Proof.
  intros Hc. unfold Qfloor. rewrite Nat2Z.inj_div.
  f_equal. destruct c as [|c]; [lia|]. lia.
Qed.

Lemma iterations_covers (a c i : nat) :
  (1 ≤ c)%nat → (i < a / c)%nat → (i < iterations (divLengths a c))%nat.
Proof.
  intros Hc Hi. unfold divLengths. destruct c as [|c']; [lia|].
  set (c := S c') in *. unfold iterations.
  assert (Hle : Qfloor (Z.of_nat a # Pos.of_nat c) <= Qceiling (Z.of_nat a # Pos.of_nat c)).
  { rewrite Zle_Qle. eapply Qle_trans; [apply Qfloor_le|apply Qle_ceiling]. }
  rewrite Qfloor_lengths in Hle by lia. lia.
Qed.

Lemma frame_index_bound (a c i ch : nat) :
  (i < a / c)%nat → (ch < c)%nat → (i * c + ch < a)%nat.
Proof.
  intros Hi Hch.
  pose proof (Nat.div_mod a c ltac:(lia)) as Hdm.
  assert (i * c + c ≤ c * (a / c))%nat by nia. lia.
Qed.

Lemma lookup_repeat {A} (x : A) (n i : nat) :
  (i < n)%nat → repeat x n !! i = Some x.
Proof.
  revert i. induction n as [|n IH]; intros [|i] Hi; simpl; try lia; [reflexivity|].
  apply IH. lia.
Qed.



Lemma fillStep_loop (dataInt16 : list Z) (c iters : nat) (chs : list nat) :
  ∀ buffer : AudioBuffer,
    let r := foldl (fillStep dataInt16 c iters) buffer chs in
    numberOfChannels r = numberOfChannels buffer
    ∧ frames r = frames buffer
    ∧ sampleRate r = sampleRate buffer
    ∧ channels r
      = foldl (updateStep [] (fillChannel dataInt16 c iters)) (channels buffer) chs.
Proof.
  induction chs as [|ch chs IH]; intros buffer; simpl; [done|].
  destruct (IH (fillStep dataInt16 c iters buffer ch)) as (H1 & H2 & H3 & H4).
  repeat split; assumption.
Qed.

Lemma decodeAudioData_unfold (data : list byte) (ctx : AudioContext) (rate : Q) (c : nat) :
  decodeAudioData data ctx rate c
  = (dataInt16 ← newInt16Array data;
     buffer ← createBuffer ctx c (divLengths (length dataInt16) c) rate;
     Ok (foldl (fillStep dataInt16 c (iterations (divLengths (length dataInt16) c)))
               buffer (seq 0 c))).
Proof. reflexivity. Qed.

(** C3 (amended). For a byte sequence of even length, a channel count and a
    sample rate that the audio context accepts, and at least one full frame,
    [decodeAudioData] returns a buffer of [length data / 2 / c] frames (the
    samples after the last full frame are dropped) in which channel [ch],
    frame [i] is the signed little-endian 16-bit integer at byte offset
    [2 * (i * c + ch)] divided by 32768, a value between -1 and 1. *)
Theorem decodeAudioData_samples (data : list byte) (ctx : AudioContext)
    (rate : Q) (c : nat) :
  (length data mod 2 = 0)%nat →
  (1 ≤ c ≤ maxChannels ctx)%nat →
  rateSupported ctx rate = true →
  (1 ≤ length data / 2 / c)%nat →
  Z.of_nat (length data / 2 / c) < 2 ^ 32 →
  ∃ buf, decodeAudioData data ctx rate c = Ok buf
    ∧ numberOfChannels buf = c
    ∧ sampleRate buf = rate
    ∧ frames buf = (length data / 2 / c)%nat
    ∧ ∀ ch i : nat, (ch < c)%nat → (i < frames buf)%nat →
        ∃ lo hi : byte,
          data !! (2 * (i * c + ch))%nat = Some lo
          ∧ data !! (2 * (i * c + ch) + 1)%nat = Some hi
          ∧ (channels buf !! ch) ≫= (.!! i)
            = Some (Fin (toInt16 (le_combine [lo; hi]) # 32768))
          ∧ (-1 <= toInt16 (le_combine [lo; hi]) # 32768 <= 1)%Q.
Proof.
  intros Heven [Hc1 Hc2] Hrate Hframes Hfit.
  rewrite decodeAudioData_unfold. unfold newInt16Array.
  replace (length data mod 2 =? 0)%nat with true by (symmetry; by apply Nat.eqb_eq).
  rewrite bind_Ok, int16Elements_length.
  set (n := (length data / 2)%nat) in *.
  assert (Hlen : Z.to_nat (toUnsignedLong (divLengths n c)) = (n / c)%nat).
  { unfold divLengths. destruct c as [|c']; [lia|]. unfold toUnsignedLong.
    rewrite Qfloor_lengths by lia. rewrite Z.mod_small by lia. lia. }
  unfold createBuffer. rewrite Hlen.
  replace (c =? 0)%nat with false by (symmetry; apply Nat.eqb_neq; lia).
  replace (maxChannels ctx <? c)%nat with false by (symmetry; apply Nat.ltb_ge; lia).
  replace (n / c =? 0)%nat with false by (symmetry; apply Nat.eqb_neq; lia).
  rewrite Hrate. cbn [orb negb]. rewrite bind_Ok.
  eexists; split; [reflexivity|].
  match goal with
  | |- context [foldl ?f ?b ?l] =>
      destruct (fillStep_loop (int16Elements data) c (iterations (divLengths n c)) l b)
        as (H1 & H2 & H3 & H4)
  end.
  cbn [numberOfChannels frames sampleRate channels] in *.
  rewrite H1, H2, H3, H4. repeat split.
  intros ch i Hch Hi.
  pose proof (frame_index_bound n c i ch Hi Hch) as Hk.
  destruct (int16Elements_lookup data (i * c + ch)) as (lo & hi & Hlo & Hhi & Hv);
    [exact Hk|].
  exists lo, hi. repeat split; try assumption.
  - erewrite (updateLoop_at [] (fillChannel (int16Elements data) c
                (iterations (divLengths n c))) c 0 _ ch (repeat (Fin 0) (n / c)));
      [|apply lookup_repeat; lia|lia].
    cbn [mbind option_bind]. unfold fillChannel.
    erewrite (updateLoop_at NaN _ (iterations (divLengths n c)) 0 _ i (Fin 0));
      [|apply lookup_repeat; lia|].
    + by rewrite Hv.
    + split; [lia|]. apply iterations_covers; lia.
  - pose proof (toInt16_range lo hi). unfold Qle. simpl. lia.
  - pose proof (toInt16_range lo hi). unfold Qle. simpl. lia.
Qed.

Lemma decodeAudioData_samples_witness :
  ∃ buf, decodeAudioData [Byte.x00; Byte.x80; Byte.xff; Byte.x7f; Byte.x01; Byte.x00]
           defaultContext 24000 2 = Ok buf
    ∧ frames buf = 1%nat
    ∧ (channels buf !! 1%nat) ≫= (.!! 0%nat) = Some (Fin (32767 # 32768)).
Proof.
  destruct (decodeAudioData_samples
              [Byte.x00; Byte.x80; Byte.xff; Byte.x7f; Byte.x01; Byte.x00]
              defaultContext 24000 2)
    as (buf & Hb & _ & _ & Hf & Hs).
  - reflexivity.
  - cbn. lia.
  - reflexivity.
  - cbn. lia.
  - cbn. lia.
  - exists buf. split; [exact Hb|]. split; [exact Hf|].
    destruct (Hs 1%nat 0%nat) as (lo & hi & Hlo & Hhi & Hv & _).
    + lia.
    + rewrite Hf. cbn. lia.
    + simpl in Hlo, Hhi. injection Hlo as <-. injection Hhi as <-. exact Hv.
Defined.

(** C3, counterexample: a byte sequence of odd length is rejected by the
    [Int16Array] constructor, so no buffer is returned. *)
Lemma decodeAudioData_odd_length_throws :
  decodeAudioData [Byte.x00; Byte.x80; Byte.xff] defaultContext 24000 1
  = Throw RangeError.
Proof. reflexivity. Qed.

End CodecFacts.

(* ------------------------------------------------------------------ *)
(** ** The playback engine: at most one active source *)
(* ------------------------------------------------------------------ *)

Module EngineFacts.
Import EngineSpec.

Lemma not_playing_no_handler (node : SourceNode.t) :
  (SourceNode.playing node = true → False) →
  (SourceNode.onended node ≠ None → False) →
  SourceNode.playing node = false ∧ SourceNode.onended node = None.
Proof.
  intros Hp Ho. split.
  - destruct (SourceNode.playing node); [by destruct Hp|done].
  - destruct (SourceNode.onended node); [by destruct Ho|done].
Qed.

Lemma stoppedNodes_lookup (ns : list SourceNode.t) (cur : option nat) (n : nat)
    (node : SourceNode.t) :
  NodesInv ns cur → stoppedNodes ns cur !! n = Some node →
  SourceNode.playing node = false ∧ SourceNode.onended node = None.
Proof.
  intros HI Hn. destruct cur as [c|]; simpl in Hn.
  - destruct (decide (n = c)) as [->|Hne].
    + rewrite !list_lookup_alter_eq in Hn.
      destruct (ns !! c) as [old|]; simpl in Hn; [|discriminate].
      injection Hn as <-. done.
    + rewrite !list_lookup_alter_ne in Hn by done.
      destruct (HI n node Hn) as (Hp & Ho & _).
      apply not_playing_no_handler; intros H; [apply Hp in H|apply Ho in H]; congruence.
  - destruct (HI n node Hn) as (Hp & Ho & _).
    apply not_playing_no_handler; intros H; [apply Hp in H|apply Ho in H]; congruence.
Qed.

Lemma stoppedNodes_length (ns : list SourceNode.t) (cur : option nat) :
  length (stoppedNodes ns cur) = length ns.
Proof. destruct cur; simpl; by rewrite ?length_alter. Qed.

Lemma NodesInv_stopped (ns : list SourceNode.t) (cur : option nat) :
  NodesInv ns cur → NodesInv (stoppedNodes ns cur) None.
Proof.
  intros HI n node Hn.
  destruct (stoppedNodes_lookup ns cur n node HI Hn) as [Hp Ho].
  rewrite Hp, Ho. repeat split; try congruence.
Qed.

Lemma NodesInv_started (ns : list SourceNode.t) (new : SourceNode.t) :
  NodesInv ns None → SourceNode.stopCalled new = false →
  NodesInv (ns ++ [new]) (Some (length ns)).
Proof.
  intros HI Hnew n node Hn.
  apply lookup_app_Some in Hn as [Hn|[Hlen Hn]].
  - destruct (HI n node Hn) as (Hp & Ho & Hs).
    repeat split; try (intros H; first [apply Hp in H|apply Ho in H]; congruence).
    all: by apply Hs.
  - destruct (n - length ns)%nat as [|k] eqn:E; simpl in Hn; [|by destruct k].
    injection Hn as <-. replace n with (length ns) by lia.
    repeat split; congruence.
Qed.

Lemma NodesInv_alter (f : SourceNode.t → SourceNode.t) (ns : list SourceNode.t)
    (cur : option nat) (k : nat) :
  (∀ node, (SourceNode.playing (f node) = true → SourceNode.playing node = true)
           ∧ SourceNode.onended (f node) = SourceNode.onended node
           ∧ SourceNode.stopCalled (f node) = SourceNode.stopCalled node) →
  NodesInv ns cur → NodesInv (alter f k ns) cur.
Proof.
  intros Hf HI n node Hn.
  destruct (decide (n = k)) as [->|Hne].
  - rewrite list_lookup_alter_eq in Hn.
    destruct (ns !! k) as [old|] eqn:Hold; simpl in Hn; [|discriminate].
    injection Hn as <-.
    destruct (Hf old) as (Hp & Ho & Hs). destruct (HI k old Hold) as (Ip & Io & Is).
    rewrite Ho, Hs. repeat split; auto.
    + destruct (SourceNode.playing (f old)) eqn:E; [|done].
      destruct (Is H) as [Hcontra _]. rewrite (Hp eq_refl) in Hcontra. discriminate.
    + by apply Is.
  - rewrite list_lookup_alter_ne in Hn by done. by apply HI.
Qed.

(** *** [stopPlayback] and [startPlayback] on the engine *)

Lemma stopPlayback_nodes (clearPlayer : bool) (s : App) :
  nodes (engine (stopPlayback clearPlayer s))
  = stoppedNodes (nodes (engine s)) (currentSourceRef (engine s)).
Proof.
  unfold stopPlayback.
  destruct (currentSourceRef (engine s)) eqn:E; destruct clearPlayer; cbn;
    rewrite E; reflexivity.
Qed.

Lemma stopPlayback_current (clearPlayer : bool) (s : App) :
  currentSourceRef (engine (stopPlayback clearPlayer s)) = None.
Proof.
  unfold stopPlayback.
  destruct (currentSourceRef (engine s)) eqn:E; destruct clearPlayer; cbn;
    rewrite E; done.
Qed.

Lemma stopPlayback_context (clearPlayer : bool) (s : App) :
  audioContextRef (engine (stopPlayback clearPlayer s)) = audioContextRef (engine s)
  ∧ contextTime (engine (stopPlayback clearPlayer s)) = contextTime (engine s).
Proof.
  unfold stopPlayback.
  destruct (currentSourceRef (engine s)) eqn:E; destruct clearPlayer; cbn;
    rewrite E; done.
Qed.

Lemma Inv_stopPlayback (clearPlayer : bool) (s : App) :
  Inv s → Inv (stopPlayback clearPlayer s).
Proof.
  unfold Inv. rewrite stopPlayback_nodes, stopPlayback_current.
  intros [HI _]. split; [by apply NodesInv_stopped|]. by intros [? ?].
Qed.

Lemma startPlayback_engine (buffer : Codec.AudioBuffer) (index : nat) (offset : Q)
    (s : App) :
  is_Some (audioContextRef (engine s)) →
  let stopped := stoppedNodes (nodes (engine s)) (currentSourceRef (engine s)) in
  nodes (engine (startPlayback buffer index offset s))
  = stopped ++ [startedNode buffer index offset]
  ∧ currentSourceRef (engine (startPlayback buffer index offset s))
    = Some (length (nodes (engine s)))
  ∧ intentionallyStoppedRef (engine (startPlayback buffer index offset s)) = false
  ∧ audioContextRef (engine (startPlayback buffer index offset s))
    = audioContextRef (engine s).
Proof.
  intros [ctx Hctx]. unfold startPlayback. rewrite Hctx.
  pose proof (stopPlayback_nodes false s) as Hn.
  pose proof (stoppedNodes_length (nodes (engine s)) (currentSourceRef (engine s)))
    as Hlen.
  destruct (stopPlayback_context false s) as [Hc _]. rewrite Hctx in Hc.
  set (s1 := stopPlayback false s) in *. clearbody s1. cbn.
  rewrite Hn, Hlen, Hc. repeat split.
Qed.

Lemma startPlayback_no_context (buffer : Codec.AudioBuffer) (index : nat)
    (offset : Q) (s : App) :
  audioContextRef (engine s) = None → startPlayback buffer index offset s = s.
Proof. intros H. unfold startPlayback. by rewrite H. Qed.

Lemma Inv_startPlayback (buffer : Codec.AudioBuffer) (index : nat) (offset : Q)
    (s : App) :
  Inv s → Inv (startPlayback buffer index offset s).
Proof.
  intros HI. destruct (audioContextRef (engine s)) as [ctx|] eqn:Hctx.
  - destruct (startPlayback_engine buffer index offset s) as (Hn & Hc & Hf & _);
      [by eexists|].
    unfold Inv. rewrite Hn, Hc, Hf. split; [|done].
    rewrite <- (stoppedNodes_length _ (currentSourceRef (engine s))).
    apply NodesInv_started; [apply NodesInv_stopped, HI|done].
  - by rewrite startPlayback_no_context.
Qed.

(** *** Handlers that leave the engine alone *)

Lemma samePlatformOnly_refl (s : App) : samePlatformOnly s s.
Proof. by repeat split. Qed.

Lemma samePlatformOnly_trans (s1 s2 s3 : App) :
  samePlatformOnly s1 s2 → samePlatformOnly s2 s3 → samePlatformOnly s1 s3.
Proof.
  unfold samePlatformOnly. intros H1 H2.
  destruct H1 as (?&?&?&?&?&?&?&?&?), H2 as (?&?&?&?&?&?&?&?&?).
  repeat split; congruence.
Qed.

Lemma send_platform (rq : Request) (p : Pending) (s : App) :
  samePlatformOnly s (send rq p s).
Proof. by repeat split. Qed.

Lemma clearInterval_platform (id : option nat) (s : App) :
  samePlatformOnly s (clearInterval id s).
Proof. destruct id; by repeat split. Qed.

Lemma populateAllLectures_sends (c : Course.t) (run : nat)
    (tasks : list (nat * Lecture.t)) :
  ∀ s : App,
    samePlatformOnly s
      (foldl (λ (s : App) '(index, lecture),
                send (GenerateLectureDetails (Course.courseTitle c)
                        (Lecture.title lecture) (Lecture.goals lecture))
                     (AwaitDetails run index lecture) s) s tasks).
Proof.
  induction tasks as [|[index lecture] tasks IH]; intros s; simpl.
  - apply samePlatformOnly_refl.
  - eapply samePlatformOnly_trans; [|apply IH]. apply send_platform.
Qed.

Lemma populateAllLectures_platform (c : Course.t) (s : App) :
  samePlatformOnly s (populateAllLectures c s).
Proof.
  unfold populateAllLectures.
  eapply samePlatformOnly_trans; [|apply populateAllLectures_sends].
  by repeat split.
Qed.

Lemma clearAll_platform (ids : list nat) (s : App) :
  samePlatformOnly s (foldr (λ id s, clearInterval (Some id) s) s ids).
Proof.
  induction ids as [|id ids IH]; simpl.
  - apply samePlatformOnly_refl.
  - eapply samePlatformOnly_trans; [apply IH|]. apply (clearInterval_platform (Some id)).
Qed.

Lemma Inv_engine (s s' : App) : engine s' = engine s → Inv s → Inv s'.
Proof. unfold Inv. by intros ->. Qed.

Lemma populateEffect_engine (s : App) : engine (populateEffect s) = engine s.
Proof.
  unfold populateEffect. repeat case_match; try reflexivity.
  match goal with
  | |- engine (populateAllLectures ?c ?s0) = _ =>
      destruct (populateAllLectures_platform c s0) as (_&_&_&_&_&->&_)
  end.
  reflexivity.
Qed.

Lemma populateEffect_player (s : App) :
  player (populateEffect s) = player s ∧ course (populateEffect s) = course s
  ∧ courseChanged (populateEffect s) = false.
Proof.
  unfold populateEffect. destruct (courseChanged s) eqn:E; [|done].
  repeat case_match; try done.
  match goal with
  | |- context [populateAllLectures ?c ?s0] =>
      destruct (populateAllLectures_platform c s0) as (->&->&_&_&_&_&_&->&_)
  end.
  done.
Qed.

(** *** Handlers that start or stop playback *)

Lemma playAudioFromCache_Ok (index : nat) (s s' : App) :
  playAudioFromCache index s = Ok s' → ∃ b, playedFromCache index s s' b.
Proof.
  unfold playAudioFromCache, playedFromCache.
  destruct (audioBufferCache (caches s) !! index) as [b|] eqn:Hb.
  - cbn. intros [= <-]. exists b, s. split; [reflexivity|]. by left.
  - destruct (audioDataCache (caches s) !! index) as [base64Audio|] eqn:Hd;
      [|cbn; discriminate].
    destruct (truthy (Some base64Audio)) eqn:Ht; [|cbn; discriminate].
    cbn.
    destruct (Codec.decode base64Audio) as [data|] eqn:Hdec; [|cbn; discriminate].
    destruct (audioContextRef (engine s)) as [ctx|] eqn:Hctx; [|cbn; discriminate].
    cbn.
    destruct (Codec.decodeAudioData data ctx 24000 1) as [b|] eqn:Hbuf;
      [|cbn; discriminate].
    cbn. intros [= <-]. exists b. eexists. split; [reflexivity|].
    right. split; [done|]. by exists base64Audio, data, ctx.
Qed.


Lemma playAudioFromCache_from_bytes (index : nat) (s : App) (base64Audio : string)
    (data : list byte) (ctx : Codec.AudioContext) (b : Codec.AudioBuffer) :
  audioBufferCache (caches s) !! index = None →
  audioDataCache (caches s) !! index = Some base64Audio →
  truthy (Some base64Audio) = true →
  Codec.decode base64Audio = Ok data →
  audioContextRef (engine s) = Some ctx →
  Codec.decodeAudioData data ctx 24000 1 = Ok b →
  playAudioFromCache index s
  = Ok (startPlayback b index 0
          (set_actualDurations (<[index := Codec.duration b]>)
             (set_audioBufferCache (<[index := b]>) s))).
Proof.
  intros Hb Hd Ht Hdec Hctx Hbuf. unfold playAudioFromCache.
  rewrite Hb, Hd, Ht. cbn. rewrite Hdec, Hctx. cbn. rewrite Hbuf. reflexivity.
Qed.

Lemma Inv_playAudioFromCache (index : nat) (s s' : App) :
  playAudioFromCache index s = Ok s' → Inv s → Inv s'.
Proof.
  intros H HI. apply playAudioFromCache_Ok in H as (b & s0 & -> & Hs0).
  apply Inv_startPlayback.
  destruct Hs0 as [[_ ->]|(_ & _ & _ & _ & _ & _ & _ & _ & _ & ->)]; exact HI.
Qed.

Lemma Inv_playResolved (index : nat) (audioData : option string) (s : App) :
  Inv s → Inv (playResolved index audioData s).
Proof.
  intros HI. unfold playResolved.
  destruct (negb (truthy audioData)); [exact HI|].
  destruct (playAudioFromCache index s) as [s'|e] eqn:E; [|exact HI].
  by eapply Inv_playAudioFromCache.
Qed.

Lemma downloadResolved_engine (lecture : Lecture.t) (audioData : option string)
    (s : App) :
  engine (downloadResolved lecture audioData s) = engine s.
Proof.
  unfold downloadResolved, downloadWav.
  destruct (truthy audioData); [|reflexivity].
  destruct (Codec.createWavBlob _); reflexivity.
Qed.

Lemma Inv_afterAudio (k : AfterAudio) (lecture : Lecture.t) (index : nat)
    (audioData : option string) (s : App) :
  Inv s → Inv (afterAudio k lecture index audioData s).
Proof.
  intros HI. destruct k; simpl.
  - exact HI.
  - by apply Inv_playResolved.
  - eapply Inv_engine; [apply downloadResolved_engine|exact HI].
Qed.

Lemma Inv_resumeSingleAudio (lecture : Lecture.t) (index : nat) (k : AfterAudio)
    (r : result string) (s : App) :
  Inv s → Inv (resumeSingleAudio lecture index k r s).
Proof. intros HI. destruct r; simpl; by apply Inv_afterAudio. Qed.

Lemma Inv_handleSetLectureToPlay (lecture : Lecture.t) (index : nat) (s : App) :
  Inv s → Inv (handleSetLectureToPlay lecture index s).
Proof.
  intros HI. unfold handleSetLectureToPlay.
  repeat case_match; try exact HI.
  - by apply Inv_stopPlayback.
  - by apply Inv_stopPlayback.
  - by apply Inv_startPlayback.
  - unfold generateSingleAudio. eapply Inv_engine; [reflexivity|].
    by apply (Inv_stopPlayback true).
  - apply Inv_playResolved. by apply (Inv_stopPlayback true).
Qed.

Lemma Inv_handleSeek (newProgress : Q) (s : App) :
  Inv s → Inv (handleSeek newProgress s).
Proof.
  intros HI. unfold handleSeek.
  repeat case_match; try exact HI.
  by apply Inv_startPlayback.
Qed.

Lemma Inv_autoAdvanceEffect (s : App) : Inv s → Inv (autoAdvanceEffect s).
Proof.
  intros HI. unfold autoAdvanceEffect.
  repeat case_match; try exact HI.
  - by apply Inv_handleSetLectureToPlay.
  - by apply (Inv_stopPlayback true).
Qed.

Lemma handleGenerateCourse_engine (s : App) :
  engine (handleGenerateCourse s) = engine (stopPlayback true s).
Proof.
  unfold handleGenerateCourse. generalize (stopPlayback true s). intros s1. cbn.
  destruct (clearAll_platform (map_to_list (pollingIntervals (video s1))).*2 s1)
    as (_&_&_&_&_&H&_).
  exact H.
Qed.

Lemma Inv_dispatchEnded (n : nat) (s : App) : Inv s → Inv (dispatchEnded n s).
Proof.
  intros HI. unfold dispatchEnded, onendedHandler.
  repeat case_match; try exact HI.
  all: destruct HI as [HI Hf]; split; [|exact Hf].
  all: cbn; apply NodesInv_alter; [|exact HI]; by intros [].
Qed.

(** *** Every turn of the event loop keeps the invariant *)

Ltac same_engine :=
  intros; repeat first [reflexivity | case_match | progress cbn].

Lemma taskSettled_engine (run : nat) (s : App) : engine (taskSettled run s) = engine s.
Proof. unfold taskSettled. same_engine. Qed.

Lemma resumeOutline_engine (r : result Course.t) (s : App) :
  engine (resumeOutline r s) = engine s.
Proof. unfold resumeOutline. same_engine. Qed.

Lemma resumeDetails_engine (run index : nat) (lecture : Lecture.t)
    (r : result Details.t) (s : App) :
  engine (resumeDetails run index lecture r s) = engine s.
Proof. unfold resumeDetails, taskFailed, taskSettled. same_engine. Qed.

Lemma resumePipelineAudio_engine (run index : nat) (lecture : Lecture.t)
    (r : result string) (s : App) :
  engine (resumePipelineAudio run index lecture r s) = engine s.
Proof. unfold resumePipelineAudio, taskFailed, taskSettled. same_engine. Qed.

Lemma generationLogic_engine (lecture : option Lecture.t) (index : nat)
    (closure : option Course.t) (s : App) :
  engine (generationLogic lecture index closure s) = engine s.
Proof. unfold generationLogic. same_engine. Qed.

Lemma resumeHasKey_engine (lecture : option Lecture.t) (index : nat) (force : bool)
    (closure : option Course.t) (hasKey : bool) (s : App) :
  engine (resumeHasKey lecture index force closure hasKey s) = engine s.
Proof. unfold resumeHasKey, generationLogic. same_engine. Qed.

Lemma resumeSelectKey_engine (action : option PendingAction) (r : result unit)
    (s : App) :
  engine (resumeSelectKey action r s) = engine s.
Proof. unfold resumeSelectKey, runPendingAction, generationLogic. same_engine. Qed.

Lemma resumeStartVideo_engine (lecture : option Lecture.t) (index : nat)
    (closure : option Course.t) (r : result nat) (s : App) :
  engine (resumeStartVideo lecture index closure r s) = engine s.
Proof. unfold resumeStartVideo, pollForVideo. same_engine. Qed.

Lemma pollFailed_engine (index : nat) (closure : option Course.t) (m : string)
    (s : App) :
  engine (pollFailed index closure m s) = engine s.
Proof. unfold pollFailed, clearInterval. same_engine. Qed.

Lemma resumePollStatus_engine (index : nat) (closure : option Course.t)
    (r : result Operation.t) (s : App) :
  engine (resumePollStatus index closure r s) = engine s.
Proof.
  unfold resumePollStatus. repeat case_match; rewrite ?pollFailed_engine;
    unfold clearInterval; same_engine.
Qed.

Lemma Inv_resume (p : Pending) (r : Response) (s : App) :
  Inv s → Inv (resume p r s).
Proof.
  intros HI. destruct p, r; simpl; try exact HI.
  - eapply Inv_engine; [apply resumeOutline_engine|exact HI].
  - eapply Inv_engine; [apply resumeDetails_engine|exact HI].
  - eapply Inv_engine; [apply resumePipelineAudio_engine|exact HI].
  - by apply Inv_resumeSingleAudio.
  - eapply Inv_engine; [apply resumeHasKey_engine|exact HI].
  - eapply Inv_engine; [apply resumeSelectKey_engine|exact HI].
  - eapply Inv_engine; [apply resumeStartVideo_engine|exact HI].
  - eapply Inv_engine; [apply resumePollStatus_engine|exact HI].
Qed.

Lemma Inv_settle (request : nat) (r : Response) (s : App) :
  Inv s → Inv (settle request r s).
Proof.
  intros HI. unfold settle. repeat case_match; try exact HI.
  apply Inv_resume. exact HI.
Qed.

Lemma handleUpdateLecture_engine (index : nat) (updated : Lecture.t) (s : App) :
  engine (handleUpdateLecture index updated s) = engine s.
Proof. unfold handleUpdateLecture. same_engine. Qed.

Lemma handleDownload_engine (lecture : Lecture.t) (index : nat) (s : App) :
  engine (handleDownload lecture index s) = engine s.
Proof.
  unfold handleDownload. case_match; [reflexivity|apply downloadResolved_engine].
Qed.

Lemma handleRetryAudioGeneration_engine (s : App) :
  engine (handleRetryAudioGeneration s) = engine s.
Proof. unfold handleRetryAudioGeneration. same_engine. Qed.

Lemma Inv_handle (ev : Event) (s : App) : Inv s → Inv (handle ev s).
Proof.
  intros HI. destruct ev; cbn [handle].
  - case_match; [exact HI|].
    eapply Inv_engine; [apply handleGenerateCourse_engine|].
    by apply Inv_stopPlayback.
  - repeat case_match; try exact HI. by apply Inv_handleSetLectureToPlay.
  - repeat case_match; try exact HI. by apply Inv_handleSetLectureToPlay.
  - repeat case_match; try exact HI. by apply Inv_stopPlayback.
  - repeat case_match; try exact HI.
    eapply Inv_engine; [apply handleRetryAudioGeneration_engine|exact HI].
  - repeat case_match; try exact HI. by apply Inv_handleSeek.
  - repeat case_match; exact HI.
  - repeat case_match; try exact HI.
    eapply Inv_engine; [apply handleUpdateLecture_engine|exact HI].
  - repeat case_match; try exact HI.
    eapply Inv_engine; [apply handleDownload_engine|exact HI].
  - repeat case_match; exact HI.
  - repeat case_match; exact HI.
  - repeat case_match; exact HI.
  - repeat case_match; exact HI.
  - by apply Inv_settle.
  - unfold pollTick. repeat case_match; exact HI.
  - repeat case_match; try exact HI.
    destruct HI as [HI Hf]; split; [|exact Hf].
    cbn; apply NodesInv_alter; [|exact HI]. by intros [].
  - by apply Inv_dispatchEnded.
  - unfold updateProgress. repeat case_match; exact HI.
  - repeat case_match; exact HI.
Qed.

Lemma Inv_step (s : App) (ev : Event) : Inv s → Inv (step s ev).
Proof.
  intros HI. unfold step, runEffects.
  eapply Inv_engine; [apply populateEffect_engine|].
  apply Inv_autoAdvanceEffect.
  destruct (isClick ev).
  - unfold initializeAudio. case_match; [|unfold Inv; cbn]; by apply Inv_handle.
  - by apply Inv_handle.
Qed.

Lemma Quiescent_step (s : App) (ev : Event) : Quiescent (step s ev).
Proof.
  unfold step, runEffects.
  match goal with |- Quiescent (populateEffect (autoAdvanceEffect ?s1)) => generalize s1 end.
  intros s1. destruct (populateEffect_player (autoAdvanceEffect s1)) as (Hp & Hc & Hch).
  split; [exact Hch|]. rewrite Hp, Hc.
  unfold autoAdvanceEffect.
  destruct (lastPlayedIndex (player s1)) eqn:E1; [|by left; rewrite E1].
  destruct (course s1) eqn:E2; [by left|]. by right.
Qed.

Lemma Inv_initial (key : string) : Inv (initialState key).
Proof. split; [|done]. intros n node Hn. simpl in Hn. discriminate. Qed.

Lemma Quiescent_initial (key : string) : Quiescent (initialState key).
Proof. split; [reflexivity|by left]. Qed.

Lemma reachable_invariants (s : App) : reachable s → Inv s ∧ Quiescent s.
Proof.
  intros (key & evs & ->). unfold run.
  induction evs as [|ev evs IH] using rev_ind; simpl.
  - split; [apply Inv_initial|apply Quiescent_initial].
  - rewrite foldl_app. simpl. split; [apply Inv_step, IH|apply Quiescent_step].
Qed.

Lemma runEffects_quiescent (s s1 : App) :
  Quiescent s → courseChanged s1 = courseChanged s → course s1 = course s →
  lastPlayedIndex (player s1) = lastPlayedIndex (player s) → runEffects s1 = s1.
Proof.
  intros [Hch Hq] H1 H2 H3. unfold runEffects.
  assert (Ha : autoAdvanceEffect s1 = s1).
  { unfold autoAdvanceEffect. rewrite H3, H2.
    destruct Hq as [->| ->]; [reflexivity|].
    by destruct (lastPlayedIndex (player s)). }
  rewrite Ha. unfold populateEffect. by rewrite H1, Hch.
Qed.

(** C5. In every state the application can reach:
    - at most one source node is playing;
    - the [ended] event of a node on which [stop()] was called runs no
      handler: the turn changes nothing but the node's queue flag, so the
      natural-end signal is not emitted and auto-advance does not run;
    - [stopPlayback] (pause, lecture switch, seek restart, close) leaves no
      node playing and no node with a handler, and has called [stop()] on the
      current source;
    - [startPlayback] stops the current source before it starts the new one:
      afterwards the only playing node is the new one, and the node that was
      playing before is stopped and has lost its handler. *)
Theorem one_active_source (s : App) :
  reachable s →
  (∀ (n m : nat) (a b : SourceNode.t),
     nodes (engine s) !! n = Some a → nodes (engine s) !! m = Some b →
     SourceNode.playing a = true → SourceNode.playing b = true → n = m)
  ∧ (∀ (n : nat) (node : SourceNode.t),
       nodes (engine s) !! n = Some node → SourceNode.stopCalled node = true →
       step s (EndedEvent n)
       = if SourceNode.endedQueued node then set_nodes (alter dequeueEnded n) s else s)
  ∧ (∀ (clearPlayer : bool) (n : nat) (node : SourceNode.t),
       nodes (engine (stopPlayback clearPlayer s)) !! n = Some node →
       SourceNode.playing node = false ∧ SourceNode.onended node = None
       ∧ (currentSourceRef (engine s) = Some n → SourceNode.stopCalled node = true))
  ∧ (∀ (buffer : Codec.AudioBuffer) (index : nat) (offset : Q),
       is_Some (audioContextRef (engine s)) →
       let s' := startPlayback buffer index offset s in
       currentSourceRef (engine s') = Some (length (nodes (engine s)))
       ∧ nodes (engine s') !! length (nodes (engine s))
         = Some (startedNode buffer index offset)
       ∧ (∀ (m : nat) (node : SourceNode.t),
            nodes (engine s') !! m = Some node → SourceNode.playing node = true →
            m = length (nodes (engine s)))
       ∧ (∀ (a : nat) (nodeA : SourceNode.t),
            nodes (engine s) !! a = Some nodeA → SourceNode.playing nodeA = true →
            ∃ nodeA', nodes (engine s') !! a = Some nodeA'
              ∧ SourceNode.playing nodeA' = false
              ∧ SourceNode.onended nodeA' = None
              ∧ SourceNode.stopCalled nodeA' = true)).
Proof.
  intros Hr. destruct (reachable_invariants s Hr) as [[HI _] HQ].
  split; [|split; [|split]].
  - intros n m a b Ha Hb Hpa Hpb.
    destruct (HI n a Ha) as (Hn & _). destruct (HI m b Hb) as (Hm & _).
    specialize (Hn Hpa). specialize (Hm Hpb). congruence.
  - intros n node Hn Hstop.
    destruct (HI n node Hn) as (_ & _ & Hs). destruct (Hs Hstop) as [_ Ho].
    unfold step. cbn [handle isClick]. unfold dispatchEnded. rewrite Hn, Ho.
    destruct (SourceNode.endedQueued node); by apply (runEffects_quiescent s).
  - intros clearPlayer n node Hn. rewrite stopPlayback_nodes in Hn.
    destruct (stoppedNodes_lookup _ _ _ _ HI Hn) as [Hp Ho].
    repeat split; try assumption.
    intros Hcur. rewrite Hcur in Hn. simpl in Hn.
    rewrite !list_lookup_alter_eq in Hn.
    destruct (nodes (engine s) !! n); simpl in Hn; [|discriminate].
    by injection Hn as <-.
  - intros buffer index offset Hctx s'.
    destruct (startPlayback_engine buffer index offset s Hctx) as (Hn & Hc & _).
    fold s' in Hn, Hc. rewrite Hn.
    pose proof (stoppedNodes_length (nodes (engine s)) (currentSourceRef (engine s)))
      as Hlen.
    split; [exact Hc|]. split; [|split].
    + rewrite <- Hlen. by rewrite list_lookup_middle.
    + intros m node Hm Hp.
      apply lookup_app_Some in Hm as [Hm|[Hge Hm]].
      * destruct (stoppedNodes_lookup _ _ _ _ HI Hm) as [Hcontra _]. congruence.
      * rewrite Hlen in *. apply lookup_lt_Some in Hm. simpl in Hm. lia.
    + intros a nodeA Ha Hpa.
      destruct (HI a nodeA Ha) as (Hcur & _). specialize (Hcur Hpa).
      rewrite Hcur. simpl.
      rewrite lookup_app_l by (rewrite !length_alter; by eapply lookup_lt_Some).
      rewrite !list_lookup_alter_eq, Ha. simpl. eexists. split; [reflexivity|]. done.
Qed.

(** The state after both lectures are loaded, lecture 0 was started and
    lecture 1 was selected while lecture 0 was playing. *)
Lemma one_active_source_witness :
  let s := run (initialState "key") (Sample.generated ++ [ClickPlay 0; ClickPlay 1]) in
  reachable s
  ∧ (∀ (n m : nat) (a b : SourceNode.t),
       nodes (engine s) !! n = Some a → nodes (engine s) !! m = Some b →
       SourceNode.playing a = true → SourceNode.playing b = true → n = m)
  ∧ (SourceNode.playing <$> nodes (engine s)) = [false; true]
  ∧ lastPlayedIndex (player (step s (EndedEvent 0))) = None.
Proof.
  intros s.
  assert (Hr : reachable s) by (by eexists _, _).
  destruct (one_active_source s Hr) as (Hone & Hended & _).
  split; [exact Hr|]. split; [exact Hone|]. split; [reflexivity|].
  erewrite Hended; [|vm_compute; reflexivity|vm_compute; reflexivity].
  vm_compute. reflexivity.
Defined.

(** [stopPlayback] and [startPlayback] as single updates. *)
Lemma stopPlayback_true_eq (s : App) :
  stopPlayback true s
  = s |> set_intentionallyStoppedRef (λ _, true)
      |> set_nodes (λ ns, stoppedNodes ns (currentSourceRef (engine s)))
      |> set_currentSourceRef (λ _, None)
      |> set_currentlyPlaying (λ _, None)
      |> set_playbackPausedTimeRef (λ _, 0%Q)
      |> set_playerState (λ prev,
           {| PlayerState.isLoading := PlayerState.isLoading prev;
              PlayerState.isPlaying := false;
              PlayerState.progress := 0%Q;
              PlayerState.currentTime := 0%Q;
              PlayerState.duration := 0%Q;
              PlayerState.volume := PlayerState.volume prev;
              PlayerState.error := None |}).
Proof.
  unfold stopPlayback. destruct (currentSourceRef (engine s)) eqn:E; cbn; rewrite E;
    [reflexivity|].
  destruct s as [? ? ? ? ? [] ? ? ? ?]; cbn in *; subst; reflexivity.
Qed.

Lemma stopPlayback_false_eq (s : App) :
  stopPlayback false s
  = s |> set_intentionallyStoppedRef (λ _, true)
      |> set_nodes (λ ns, stoppedNodes ns (currentSourceRef (engine s)))
      |> set_currentSourceRef (λ _, None)
      |> set_playerState (λ prev,
           {| PlayerState.isLoading := PlayerState.isLoading prev;
              PlayerState.isPlaying := false;
              PlayerState.progress := PlayerState.progress prev;
              PlayerState.currentTime := PlayerState.currentTime prev;
              PlayerState.duration := PlayerState.duration prev;
              PlayerState.volume := PlayerState.volume prev;
              PlayerState.error := PlayerState.error prev |}).
Proof.
  unfold stopPlayback. destruct (currentSourceRef (engine s)) eqn:E; cbn; rewrite E;
    [reflexivity|].
  destruct s as [? ? ? ? ? [] ? ? ? ?]; cbn in *; subst; reflexivity.
Qed.

Lemma startPlayback_eq (b : Codec.AudioBuffer) (index : nat) (offset : Q) (s : App) :
  is_Some (audioContextRef (engine s)) →
  startPlayback b index offset s
  = s |> set_intentionallyStoppedRef (λ _, false)
      |> set_nodes (λ ns, stoppedNodes ns (currentSourceRef (engine s))
                          ++ [startedNode b index offset])
      |> set_playbackStartTimeRef (λ _, (contextTime (engine s) - offset)%Q)
      |> set_playbackPausedTimeRef (λ _, offset)
      |> set_currentSourceRef (λ _, Some (length (nodes (engine s))))
      |> set_playerState (λ prev,
           {| PlayerState.isLoading := false;
              PlayerState.isPlaying := true;
              PlayerState.progress := PlayerState.progress prev;
              PlayerState.currentTime := PlayerState.currentTime prev;
              PlayerState.duration := Codec.duration b;
              PlayerState.volume := PlayerState.volume prev;
              PlayerState.error := PlayerState.error prev |}).
Proof.
  intros [ctx Hctx]. unfold startPlayback. rewrite Hctx, stopPlayback_false_eq.
  cbn. rewrite stoppedNodes_length. reflexivity.
Qed.

End EngineFacts.

(* ------------------------------------------------------------------ *)
(** ** Auto-advance *)
(* ------------------------------------------------------------------ *)

Module AdvanceFacts.
Import EngineSpec EngineFacts.





Lemma selected_frame (lecture : Lecture.t) (index : nat) (s : App) :
  caches (selected lecture index s) = caches s
  ∧ platform (selected lecture index s) = platform s
  ∧ course (selected lecture index s) = course s
  ∧ courseChanged (selected lecture index s) = courseChanged s
  ∧ audioContextRef (engine (selected lecture index s)) = audioContextRef (engine s)
  ∧ length (nodes (engine (selected lecture index s))) = length (nodes (engine s))
  ∧ lastPlayedIndex (player (selected lecture index s)) = lastPlayedIndex (player s)
  ∧ currentlyPlaying (player (selected lecture index s)) = Some (lecture, index)
  ∧ PlayerState.isLoading (playerState (player (selected lecture index s))) = true.
Proof.
  unfold selected. rewrite stopPlayback_true_eq. cbn.
  rewrite stoppedNodes_length. by repeat split.
Qed.

(** Selecting a lecture other than the current one. *)
Lemma handleSetLectureToPlay_other (lecture : Lecture.t) (index : nat) (s : App) :
  snd <$> currentlyPlaying (player s) ≠ Some index →
  handleSetLectureToPlay lecture index s
  = if negb (truthy (audioDataCache (caches s) !! index))
       || bool_decide (lectureUiState (caches s) !! index = Some AudioState.error)
    then generateSingleAudio lecture index ThenPlay (selected lecture index s)
    else playResolved index (audioDataCache (caches s) !! index)
           (selected lecture index s).
Proof.
  intros Hne. unfold handleSetLectureToPlay.
  rewrite bool_decide_eq_false_2 by exact Hne.
  fold (selected lecture index s).
  destruct (selected_frame lecture index s) as (-> & _). reflexivity.
Qed.








End AdvanceFacts.

(* ------------------------------------------------------------------ *)
(** ** Script edits *)
(* ------------------------------------------------------------------ *)

Module EditFacts.
Import EngineSpec EngineFacts.

(** C7, the failing input.  The details of lecture 1 have arrived and those
    of lecture 0 have not when the user saves a new script for lecture 1.
    The save requests the synthesis of the new script and, because the
    first lecture of the course has no script, starts the pipeline again:
    the details of both lectures are requested.  When the details of
    lecture 1 arrive, its script is the generated one again, the saved
    script is gone, and audio is synthesized for the generated script. *)
Lemma save_restarts_pipeline :
  let s := run (initialState "key") EditSpec.secondLectureFirst in
  let s' := step s (SaveLecture 1 EditSpec.editedSampling) in
  let s'' := step s' (Settle 8 (DetailsResponse
                                  (Ok (Sample.details "Sampling measures a signal.")))) in
  EditSpec.scripts s = Some [None; Some "Sampling measures a signal."]
  ∧ EditSpec.scripts s' = Some [None; Some "Sampling, explained again."]
  ∧ requests (platform s')
    = requests (platform s)
      ++ [ GenerateLectureAudio (Some "Sampling, explained again.");
           GenerateLectureDetails "Sound" "Waves" "Understand the topic";
           GenerateLectureDetails "Sound" "Sampling" "Understand the topic" ]
  ∧ EditSpec.scripts s'' = Some [None; Some "Sampling measures a signal."]
  ∧ nth_error (requests (platform s'')) (length (requests (platform s')))
    = Some (GenerateLectureAudio (Some "Sampling measures a signal.")).
Proof.
  intros s s' s''. do 4 (split; [vm_compute; reflexivity|]). vm_compute. reflexivity.
Qed.

End EditFacts.

(* ------------------------------------------------------------------ *)
(** ** The content pipeline *)
(* ------------------------------------------------------------------ *)

Module PipelineFacts.
Import PipelineSpec.

(** A failing task touches the state of its own lecture only: it marks the
    lecture as failed, shows a toast and settles.  The course, the caches of
    bytes and buffers, the suspended sibling tasks and every other lecture
    state stay as they are. *)
Lemma task_failure_is_isolated (run index : nat) (lecture : Lecture.t) (s : App) :
  let s' := taskFailed run index lecture s in
  course s' = course s
  ∧ audioDataCache (caches s') = audioDataCache (caches s)
  ∧ audioBufferCache (caches s') = audioBufferCache (caches s)
  ∧ inflight (platform s') = inflight (platform s)
  ∧ requests (platform s') = requests (platform s)
  ∧ lectureUiState (caches s') = <[index := AudioState.error]> (lectureUiState (caches s)).
Proof.
  unfold taskFailed, taskSettled. cbn.
  destruct (runs (platform s) !! run) as [[|[|n]]|]; by cbn.
Qed.

(** C4, evaluated on a course of two lectures in which the details of
    lecture 1 arrive before those of lecture 0: the effect on [course] starts
    [populateAllLectures] a second time, every lecture is generated twice, and
    once everything has settled the course-ready notification has been shown
    twice. *)
Lemma course_ready_shown_twice :
  let s := run (initialState "key") outOfOrder in
  courseReadyToasts s = 2%nat
  ∧ inflight (platform s) = ∅
  ∧ runs (platform s) = ∅
  ∧ requests (platform s)
    = [ GenerateCourseOutline;
        GenerateLectureDetails "Sound" "Waves" "Understand the topic";
        GenerateLectureDetails "Sound" "Sampling" "Understand the topic";
        GenerateLectureAudio (Some "Sampling measures a signal.");
        GenerateLectureDetails "Sound" "Waves" "Understand the topic";
        GenerateLectureDetails "Sound" "Sampling" "Understand the topic";
        GenerateLectureAudio (Some "A wave is a disturbance.");
        GenerateLectureAudio (Some "A wave is a disturbance.");
        GenerateLectureAudio (Some "Sampling measures a signal.") ].
Proof. vm_compute. repeat split. Qed.

(** C10, evaluated.  The pipeline stores the bytes it synthesized without
    dropping the decoded buffer of that lecture: after an edit of lecture 0
    made while the pipeline's synthesis was in flight, the byte cache holds
    the audio of the first script and the buffer cache holds the decoded audio
    of the edited script. *)
Lemma stale_decoded_buffer :
  let s := run (initialState "key") editDuringSynthesis in
  ∃ (bytes : string) (buffer : Codec.AudioBuffer),
    audioDataCache (caches s) !! 0%nat = Some bytes
    ∧ audioBufferCache (caches s) !! 0%nat = Some buffer
    ∧ decoded bytes ≠ Ok buffer.
Proof.
  eexists _, _. split; [vm_compute; reflexivity|].
  split; [vm_compute; reflexivity|].
  vm_compute. intros [=].
Qed.

End PipelineFacts.

(* ------------------------------------------------------------------ *)
(** ** The video job poller and course regeneration *)
(* ------------------------------------------------------------------ *)

Module VideoFacts.
Import EngineSpec EngineFacts VideoSpec.

Lemma sameTimers_refl (s : App) : sameTimers s s.
Proof. by repeat split. Qed.

Lemma sameTimers_trans (s1 s2 s3 : App) :
  sameTimers s1 s2 → sameTimers s2 s3 → sameTimers s1 s3.
Proof.
  unfold sameTimers. intros (?&?&?) (?&?&?). repeat split; congruence.
Qed.

Lemma TimersInv_same (s s' : App) : sameTimers s s' → TimersInv s → TimersInv s'.
Proof. unfold TimersInv, sameTimers. by intros (-> & -> & ->). Qed.

Ltac same_timers :=
  intros; repeat first [by repeat split | case_match | progress cbn].

Lemma sameTimers_stopPlayback (clearPlayer : bool) (s : App) :
  sameTimers s (stopPlayback clearPlayer s).
Proof.
  destruct clearPlayer; [rewrite stopPlayback_true_eq|rewrite stopPlayback_false_eq];
    by repeat split.
Qed.

Lemma sameTimers_startPlayback (b : Codec.AudioBuffer) (index : nat) (offset : Q)
    (s : App) :
  sameTimers s (startPlayback b index offset s).
Proof.
  destruct (audioContextRef (engine s)) as [ctx|] eqn:Hctx.
  - rewrite startPlayback_eq by (by eexists). by repeat split.
  - rewrite startPlayback_no_context by done. apply sameTimers_refl.
Qed.

Lemma sameTimers_playResolved (index : nat) (audioData : option string) (s : App) :
  sameTimers s (playResolved index audioData s).
Proof.
  unfold playResolved. destruct (negb (truthy audioData)); [by repeat split|].
  destruct (playAudioFromCache index s) as [s'|e] eqn:E; [|by repeat split].
  apply playAudioFromCache_Ok in E as (b & s0 & -> & Hs0).
  eapply sameTimers_trans; [|apply sameTimers_startPlayback].
  destruct Hs0 as [[_ ->]|(_ & _ & _ & _ & _ & _ & _ & _ & _ & ->)]; by repeat split.
Qed.

Lemma sameTimers_downloadResolved (lecture : Lecture.t) (audioData : option string)
    (s : App) :
  sameTimers s (downloadResolved lecture audioData s).
Proof.
  unfold downloadResolved, downloadWav.
  destruct (truthy audioData); [|by repeat split].
  destruct (Codec.createWavBlob _); by repeat split.
Qed.

Lemma sameTimers_resumeSingleAudio (lecture : Lecture.t) (index : nat) (k : AfterAudio)
    (r : result string) (s : App) :
  sameTimers s (resumeSingleAudio lecture index k r s).
Proof.
  unfold resumeSingleAudio.
  destruct r, k; cbn [afterAudio]; try by repeat split.
  all: first [ eapply sameTimers_trans; [|apply sameTimers_playResolved]
             | eapply sameTimers_trans; [|apply sameTimers_downloadResolved] ];
       by repeat split.
Qed.

Lemma sameTimers_handleSetLectureToPlay (lecture : Lecture.t) (index : nat) (s : App) :
  sameTimers s (handleSetLectureToPlay lecture index s).
Proof.
  unfold handleSetLectureToPlay.
  repeat case_match; try apply sameTimers_refl.
  - eapply sameTimers_trans; [|apply sameTimers_stopPlayback]. by repeat split.
  - apply sameTimers_stopPlayback.
  - apply sameTimers_startPlayback.
  - eapply sameTimers_trans; [apply (sameTimers_stopPlayback true)|]. by repeat split.
  - eapply sameTimers_trans; [|apply sameTimers_playResolved].
    eapply sameTimers_trans; [apply (sameTimers_stopPlayback true)|]. by repeat split.
Qed.

Lemma sameTimers_handleSeek (newProgress : Q) (s : App) :
  sameTimers s (handleSeek newProgress s).
Proof.
  unfold handleSeek. repeat case_match; try by repeat split.
  eapply sameTimers_trans; [|apply sameTimers_startPlayback]. by repeat split.
Qed.

Lemma sameTimers_autoAdvanceEffect (s : App) : sameTimers s (autoAdvanceEffect s).
Proof.
  unfold autoAdvanceEffect. repeat case_match; try by repeat split.
  - eapply sameTimers_trans; [apply sameTimers_handleSetLectureToPlay|]. by repeat split.
  - eapply sameTimers_trans; [apply (sameTimers_stopPlayback true)|]. by repeat split.
Qed.

Lemma sameTimers_sends (c : Course.t) (run : nat) (tasks : list (nat * Lecture.t)) :
  ∀ s : App,
    sameTimers s
      (foldl (λ (s : App) '(index, lecture),
                send (GenerateLectureDetails (Course.courseTitle c)
                        (Lecture.title lecture) (Lecture.goals lecture))
                     (AwaitDetails run index lecture) s) s tasks).
Proof.
  induction tasks as [|[index lecture] tasks IH]; intros s; simpl.
  - apply sameTimers_refl.
  - eapply sameTimers_trans; [|apply IH]. by repeat split.
Qed.

Lemma sameTimers_populateEffect (s : App) : sameTimers s (populateEffect s).
Proof.
  unfold populateEffect, populateAllLectures. repeat case_match; try by repeat split.
  eapply sameTimers_trans; [|apply sameTimers_sends]. by repeat split.
Qed.

Lemma sameTimers_taskSettled (run : nat) (s : App) : sameTimers s (taskSettled run s).
Proof. unfold taskSettled. same_timers. Qed.

Lemma sameTimers_resumeOutline (r : result Course.t) (s : App) :
  sameTimers s (resumeOutline r s).
Proof. unfold resumeOutline. same_timers. Qed.

Lemma sameTimers_resumeDetails (run index : nat) (lecture : Lecture.t)
    (r : result Details.t) (s : App) :
  sameTimers s (resumeDetails run index lecture r s).
Proof. unfold resumeDetails, taskFailed, taskSettled. same_timers. Qed.

Lemma sameTimers_resumePipelineAudio (run index : nat) (lecture : Lecture.t)
    (r : result string) (s : App) :
  sameTimers s (resumePipelineAudio run index lecture r s).
Proof. unfold resumePipelineAudio, taskFailed, taskSettled. same_timers. Qed.

Lemma sameTimers_generationLogic (lecture : option Lecture.t) (index : nat)
    (closure : option Course.t) (s : App) :
  sameTimers s (generationLogic lecture index closure s).
Proof. unfold generationLogic. same_timers. Qed.

Lemma sameTimers_resumeHasKey (lecture : option Lecture.t) (index : nat) (force : bool)
    (closure : option Course.t) (hasKey : bool) (s : App) :
  sameTimers s (resumeHasKey lecture index force closure hasKey s).
Proof. unfold resumeHasKey, generationLogic. same_timers. Qed.

Lemma sameTimers_resumeSelectKey (action : option PendingAction) (r : result unit)
    (s : App) :
  sameTimers s (resumeSelectKey action r s).
Proof. unfold resumeSelectKey, runPendingAction, generationLogic. same_timers. Qed.

Lemma sameTimers_handleUpdateLecture (index : nat) (updated : Lecture.t) (s : App) :
  sameTimers s (handleUpdateLecture index updated s).
Proof. unfold handleUpdateLecture. same_timers. Qed.

Lemma sameTimers_handleDownload (lecture : Lecture.t) (index : nat) (s : App) :
  sameTimers s (handleDownload lecture index s).
Proof.
  unfold handleDownload. case_match; [by repeat split|].
  apply sameTimers_downloadResolved.
Qed.

(** *** Handlers that set or clear poll timers *)

(** [clearInterval(pollingIntervals.current[index])] followed by
    [delete pollingIntervals.current[index]]. *)
Lemma TimersInv_cancel (index : nat) (s : App) :
  TimersInv s →
  TimersInv (s |> clearInterval (pollingIntervals (video s) !! index)
               |> set_pollingIntervals (delete index)).
Proof.
  intros [Hpos HI]. split.
  { destruct (pollingIntervals (video s) !! index); exact Hpos. }
  intros id t Ht.
  assert (Hin : timers (platform s) !! id = Some t
                ∧ pollingIntervals (video s) !! index ≠ Some id).
  { destruct (pollingIntervals (video s) !! index) as [id0|] eqn:E; cbn in Ht.
    - apply lookup_delete_Some in Ht as [Hne Ht]. split; [exact Ht|congruence].
    - split; [exact Ht|discriminate]. }
  destruct Hin as [Hold Hne]. destruct (HI id t Hold) as [Hreg Hb].
  split.
  - assert (pollIndex t ≠ index) by (intros Heq; rewrite Heq in Hreg; contradiction).
    destruct (pollingIntervals (video s) !! index); cbn;
      by rewrite lookup_delete_ne.
  - destruct (pollingIntervals (video s) !! index); exact Hb.
Qed.

Lemma TimersInv_pollForVideo (operation index : nat) (closure : option Course.t)
    (s : App) :
  TimersInv s → TimersInv (pollForVideo operation index closure s).
Proof.
  intros [Hpos HI]. unfold pollForVideo.
  set (s1 := match pollingIntervals (video s) !! index with
             | Some 0%nat | None => s
             | Some id => clearInterval (Some id) s
             end).
  assert (Hn : nextTimer (platform s1) = nextTimer (platform s)).
  { unfold s1. by repeat case_match. }
  assert (Hp : pollingIntervals (video s1) = pollingIntervals (video s)).
  { unfold s1. by repeat case_match. }
  assert (Ht : ∀ id t, timers (platform s1) !! id = Some t →
                 timers (platform s) !! id = Some t ∧ pollIndex t ≠ index).
  { intros id t Hid.
    assert (Hold : timers (platform s) !! id = Some t).
    { unfold s1 in Hid. repeat case_match; cbn in Hid; try exact Hid.
      by apply lookup_delete_Some in Hid as [_ Hid]. }
    split; [exact Hold|]. intros Heq.
    destruct (HI id t Hold) as [Hreg [Hgt _]]. rewrite Heq in Hreg.
    unfold s1 in Hid. rewrite Hreg in Hid.
    destruct id as [|id]; [lia|]. cbn in Hid.
    by rewrite lookup_delete_eq in Hid. }
  clearbody s1. unfold TimersInv. cbn. rewrite Hn, Hp. split; [lia|].
  intros id t Hid.
  apply lookup_insert_Some in Hid as [[<- <-]|[Hne Hid]].
  - cbn. split; [apply lookup_insert_eq|lia].
  - destruct (Ht id t Hid) as [Hold Hidx]. destruct (HI id t Hold) as [Hreg Hb].
    split; [by rewrite lookup_insert_ne|lia].
Qed.

Lemma TimersInv_send (rq : Request) (p : Pending) (s : App) :
  TimersInv s → TimersInv (send rq p s).
Proof. apply TimersInv_same. by repeat split. Qed.

Lemma TimersInv_videoStates f (s : App) :
  TimersInv s → TimersInv (set_videoStates f s).
Proof. apply TimersInv_same. by repeat split. Qed.

Lemma TimersInv_resumeStartVideo (lecture : option Lecture.t) (index : nat)
    (closure : option Course.t) (r : result nat) (s : App) :
  TimersInv s → TimersInv (resumeStartVideo lecture index closure r s).
Proof.
  intros HI. unfold resumeStartVideo. destruct r as [op|e].
  - by apply TimersInv_pollForVideo.
  - case_match; revert HI; apply TimersInv_same; by repeat split.
Qed.

Lemma TimersInv_pollFailed (index : nat) (closure : option Course.t) (m : string)
    (s : App) :
  TimersInv s → TimersInv (pollFailed index closure m s).
Proof.
  intros HI. unfold pollFailed. apply (TimersInv_cancel index) in HI.
  repeat case_match; exact HI.
Qed.

Lemma TimersInv_resumePollStatus (index : nat) (closure : option Course.t)
    (r : result Operation.t) (s : App) :
  TimersInv s → TimersInv (resumePollStatus index closure r s).
Proof.
  intros HI. unfold resumePollStatus.
  destruct r as [op|e]; [|by apply TimersInv_pollFailed].
  destruct (Operation.done op); [|exact HI].
  pose proof (TimersInv_cancel index s HI) as HI'.
  repeat case_match; first [by apply TimersInv_videoStates | by apply TimersInv_pollFailed].
Qed.

(** Clearing a list of timers. *)
Lemma clearAll_timers (ids : list nat) (s : App) :
  timers (platform (foldr (λ id s, clearInterval (Some id) s) s ids))
  = foldr delete (timers (platform s)) ids.
Proof.
  induction ids as [|id ids IH]; cbn [foldr]; [reflexivity|].
  rewrite <- IH. reflexivity.
Qed.

Lemma foldr_delete_lookup (ids : list nat) (m : gmap nat PollTimer) (id : nat) :
  foldr delete m ids !! id = if decide (id ∈ ids) then None else m !! id.
Proof.
  induction ids as [|i ids IH]; simpl; [reflexivity|].
  destruct (decide (id = i)) as [->|Hne].
  - rewrite lookup_delete_eq. rewrite decide_True by (apply elem_of_cons; by left).
    reflexivity.
  - rewrite lookup_delete_ne, IH by done.
    destruct (decide (id ∈ ids)) as [Hin|Hout].
    + rewrite decide_True by (apply elem_of_cons; by right). reflexivity.
    + rewrite decide_False; [reflexivity|].
      intros [?|?]%elem_of_cons; contradiction.
Qed.

(** With every active timer registered, clearing the registered timers
    clears them all. *)
Lemma registered_timers_cleared (s : App) :
  TimersInv s →
  foldr delete (timers (platform s)) (map_to_list (pollingIntervals (video s))).*2 = ∅.
Proof.
  intros [_ HI]. apply map_eq. intros id. rewrite foldr_delete_lookup, lookup_empty.
  case_decide as Hin; [reflexivity|].
  destruct (timers (platform s) !! id) as [t|] eqn:Ht; [|reflexivity].
  destruct (HI id t Ht) as [Hreg _]. exfalso. apply Hin.
  apply list_elem_of_fmap. exists (pollIndex t, id). split; [reflexivity|].
  by apply elem_of_map_to_list.
Qed.

(** What [handleGenerateCourse] leaves behind, at the moment it issues the
    outline request. *)
Lemma handleGenerateCourse_cleared (s : App) :
  TimersInv s →
  ∃ s0 : App,
    handleGenerateCourse s = send GenerateCourseOutline AwaitOutline s0
    ∧ timers (platform s0) = ∅
    ∧ pollingIntervals (video s0) = ∅
    ∧ audioDataCache (caches s0) = ∅
    ∧ audioBufferCache (caches s0) = ∅
    ∧ lectureUiState (caches s0) = ∅
    ∧ actualDurations (caches s0) = ∅
    ∧ videoStates (video s0) = ∅
    ∧ course s0 = None
    ∧ currentSourceRef (engine s0) = None
    ∧ nextTimer (platform s0) = nextTimer (platform s)
    ∧ inflight (platform s0) = inflight (platform s)
    ∧ requests (platform s0) = requests (platform s).
Proof.
  intros HI. unfold handleGenerateCourse. eexists. split; [reflexivity|].
  destruct (sameTimers_stopPlayback true s) as (Ht & Hn & Hp).
  pose proof (stopPlayback_current true s) as Hcur.
  assert (Hpl : inflight (platform (stopPlayback true s)) = inflight (platform s)
                ∧ requests (platform (stopPlayback true s)) = requests (platform s))
    by (by rewrite stopPlayback_true_eq).
  destruct Hpl as [Hin Hrq].
  generalize dependent (stopPlayback true s). intros s1 Ht Hn Hp Hcur Hin Hrq.
  set (ids := (map_to_list (pollingIntervals (video s1))).*2).
  pose proof (clearAll_timers ids s1) as Hclear.
  destruct (clearAll_platform ids s1) as (_ & _ & _ & _ & _ & He & _ & _ & _).
  assert (Hrest : nextTimer (platform (foldr (λ id s, clearInterval (Some id) s) s1 ids))
                  = nextTimer (platform s1)
                  ∧ inflight (platform (foldr (λ id s, clearInterval (Some id) s) s1 ids))
                    = inflight (platform s1)
                  ∧ requests (platform (foldr (λ id s, clearInterval (Some id) s) s1 ids))
                    = requests (platform s1)).
  { clear. induction ids as [|id ids IH]; simpl; [done|]. exact IH. }
  destruct Hrest as (Hn2 & Hin2 & Hrq2).
  generalize dependent (foldr (λ id s, clearInterval (Some id) s) s1 ids).
  intros s2 Hclear He Hn2 Hin2 Hrq2. cbn.
  rewrite Hclear, He, Hcur, Hn2, Hn, Hin2, Hin, Hrq2, Hrq, Ht. unfold ids. rewrite Hp.
  repeat split. by apply registered_timers_cleared.
Qed.

Lemma TimersInv_handleGenerateCourse (s : App) :
  TimersInv s → TimersInv (handleGenerateCourse s).
Proof.
  intros HI. destruct (handleGenerateCourse_cleared s HI)
    as (s0 & -> & Ht & _ & _ & _ & _ & _ & _ & _ & _ & Hn & _).
  apply TimersInv_send. split.
  - rewrite Hn. apply HI.
  - intros id t Hid. rewrite Ht in Hid. by rewrite lookup_empty in Hid.
Qed.

(** *** Every turn keeps the timers registered *)

Lemma TimersInv_resume (p : Pending) (r : Response) (s : App) :
  TimersInv s → TimersInv (resume p r s).
Proof.
  intros HI. destruct p, r; cbn [resume]; try exact HI.
  - revert HI. apply TimersInv_same, sameTimers_resumeOutline.
  - revert HI. apply TimersInv_same, sameTimers_resumeDetails.
  - revert HI. apply TimersInv_same, sameTimers_resumePipelineAudio.
  - revert HI. apply TimersInv_same, sameTimers_resumeSingleAudio.
  - revert HI. apply TimersInv_same, sameTimers_resumeHasKey.
  - revert HI. apply TimersInv_same, sameTimers_resumeSelectKey.
  - by apply TimersInv_resumeStartVideo.
  - by apply TimersInv_resumePollStatus.
Qed.

Lemma TimersInv_handle (ev : Event) (s : App) : TimersInv s → TimersInv (handle ev s).
Proof.
  intros HI. destruct ev; cbn [handle].
  - case_match; [exact HI|]. by apply TimersInv_handleGenerateCourse.
  - repeat case_match; try exact HI.
    revert HI. apply TimersInv_same, sameTimers_handleSetLectureToPlay.
  - repeat case_match; try exact HI.
    revert HI. apply TimersInv_same, sameTimers_handleSetLectureToPlay.
  - repeat case_match; try exact HI.
    revert HI. apply TimersInv_same, sameTimers_stopPlayback.
  - unfold handleRetryAudioGeneration; repeat case_match; exact HI.
  - repeat case_match; try exact HI.
    revert HI. apply TimersInv_same, sameTimers_handleSeek.
  - unfold handleRetryAudioGeneration; repeat case_match; exact HI.
  - repeat case_match; try exact HI.
    revert HI. apply TimersInv_same, sameTimers_handleUpdateLecture.
  - repeat case_match; try exact HI.
    revert HI. apply TimersInv_same, sameTimers_handleDownload.
  - unfold handleRetryAudioGeneration; repeat case_match; exact HI.
  - unfold handleRetryAudioGeneration; repeat case_match; exact HI.
  - unfold handleRetryAudioGeneration; repeat case_match; exact HI.
  - unfold handleRetryAudioGeneration; repeat case_match; exact HI.
  - unfold settle. repeat case_match; try exact HI. by apply TimersInv_resume.
  - unfold pollTick. repeat case_match; exact HI.
  - unfold handleRetryAudioGeneration; repeat case_match; exact HI.
  - unfold dispatchEnded, onendedHandler. repeat case_match; exact HI.
  - unfold updateProgress. repeat case_match; exact HI.
  - unfold handleRetryAudioGeneration; repeat case_match; exact HI.
Qed.

Lemma TimersInv_step (s : App) (ev : Event) : TimersInv s → TimersInv (step s ev).
Proof.
  intros HI. unfold step, runEffects.
  eapply TimersInv_same; [apply sameTimers_populateEffect|].
  eapply TimersInv_same; [apply sameTimers_autoAdvanceEffect|].
  apply (TimersInv_handle ev) in HI.
  destruct (isClick ev); [|exact HI].
  unfold initializeAudio. case_match; exact HI.
Qed.

Lemma reachable_timers (s : App) : reachable s → TimersInv s.
Proof.
  intros (key & evs & ->). unfold run.
  induction evs as [|ev evs IH] using rev_ind.
  - split; [cbn; lia|]. intros id t Hid. cbn in Hid. by rewrite lookup_empty in Hid.
  - rewrite foldl_app. cbn [foldl]. by apply TimersInv_step.
Qed.

(** C9, counterexample: the status request of the old job settles after the
    new generation has started and reports completion; the callback writes
    the video state of lecture 0, which the regeneration had emptied. *)
Lemma stale_poll_callback_writes :
  let s := run (initialState "key") regeneratedWhilePolling in
  let s' := step s (Settle 7 (StatusResponse (Ok (finished "https://video/1")))) in
  timers (platform s) = ∅
  ∧ videoStates (video s) = ∅
  ∧ (∃ closure, inflight (platform s) !! 7%nat = Some (AwaitPollStatus 0 closure))
  ∧ VideoState.status <$> (videoStates (video s') !! 0%nat)
    = Some VideoStateStatus.ready
  ∧ videoStates (video s') ≠ videoStates (video s).
Proof.
  intros s s'.
  split; [vm_compute; reflexivity|]. split; [vm_compute; reflexivity|].
  split; [eexists; vm_compute; reflexivity|].
  split; [vm_compute; reflexivity|].
  intros Heq.
  assert (H : videoStates (video s') !! 0%nat = videoStates (video s) !! 0%nat)
    by (by rewrite Heq).
  vm_compute in H. discriminate.
Qed.

End VideoFacts.

(* ================================================================== *)
(** * Facts about the bulk export *)
(* ================================================================== *)

Module DownloadAllFacts.
Import DownloadAll DownloadAllSpec.

Lemma poll_step cacheAt i t attempts :
  poll cacheAt i t attempts =
  if truthy (cacheAt (S t) !! i) then Some (S t)
  else if le_lt_dec attempts 60 then poll cacheAt i (S t) (S attempts) else None.
Proof.
  rewrite poll_equation_1. unfold poll_unfold_clause_1.
  destruct (truthy (cacheAt (S t) !! i)); [done|].
  unfold poll_unfold_clause_1_clause_2. by destruct (le_lt_dec attempts 60).
Qed.

(** With [n] ticks left before the rejection, the wait is rejected exactly
    when none of them finds the entry. *)
Lemma poll_rejects cacheAt i n : ∀ t attempts,
  (attempts + S n = 62)%nat →
  poll cacheAt i t attempts = None
  ↔ ∀ k, (1 ≤ k ≤ S n)%nat → truthy (cacheAt (t + k)%nat !! i) = false.
Proof.
  induction n as [|n IH]; intros t attempts Ha; rewrite poll_step.
  - destruct (truthy (cacheAt (S t) !! i)) eqn:E.
    + split; [done|]. intros H. specialize (H 1%nat ltac:(lia)).
      replace (t + 1)%nat with (S t) in H by lia. congruence.
    + destruct (le_lt_dec attempts 60); [lia|]. split; [|done].
      intros _ k Hk. by replace (t + k)%nat with (S t) by lia.
  - destruct (truthy (cacheAt (S t) !! i)) eqn:E.
    + split; [done|]. intros H. specialize (H 1%nat ltac:(lia)).
      replace (t + 1)%nat with (S t) in H by lia. congruence.
    + destruct (le_lt_dec attempts 60); [|lia].
      rewrite (IH (S t) (S attempts)) by lia. split.
      * intros H k Hk. destruct (decide (k = 1%nat)) as [->|].
        { by replace (t + 1)%nat with (S t) by lia. }
        specialize (H (k - 1)%nat ltac:(lia)).
        by replace (S t + (k - 1))%nat with (t + k)%nat in H by lia.
      * intros H k Hk. specialize (H (S k) ltac:(lia)).
        by replace (t + S k)%nat with (S t + k)%nat in H by lia.
Qed.

(** A wait that resolves does so at the first tick that finds the entry. *)
Lemma poll_resolves cacheAt i n : ∀ t attempts t',
  (attempts + S n = 62)%nat →
  poll cacheAt i t attempts = Some t'
  ↔ (t < t' ≤ t + S n)%nat
    ∧ truthy (cacheAt t' !! i) = true
    ∧ ∀ u, (t < u < t')%nat → truthy (cacheAt u !! i) = false.
Proof.
  induction n as [|n IH]; intros t attempts t' Ha; rewrite poll_step.
  - destruct (truthy (cacheAt (S t) !! i)) eqn:E.
    + split.
      * intros [= <-]. split; [lia|]. split; [done|]. intros u Hu. lia.
      * intros (Ht & _ & _). f_equal. lia.
    + destruct (le_lt_dec attempts 60); [lia|]. split; [done|].
      intros (Ht & Hp & _). replace t' with (S t) in Hp by lia. congruence.
  - destruct (truthy (cacheAt (S t) !! i)) eqn:E.
    + split.
      * intros [= <-]. split; [lia|]. split; [done|]. intros u Hu. lia.
      * intros (Ht & _ & Hm). f_equal.
        destruct (decide (t' = S t)) as [|Hne]; [done|].
        specialize (Hm (S t) ltac:(lia)). congruence.
    + destruct (le_lt_dec attempts 60); [|lia].
      rewrite (IH (S t) (S attempts) t') by lia. split.
      * intros (Ht & Hp & Hm). split; [lia|]. split; [done|].
        intros u Hu. destruct (decide (u = S t)) as [->|]; [done|].
        apply Hm. lia.
      * intros (Ht & Hp & Hm).
        assert (t' ≠ S t) by (intros ->; congruence).
        split; [lia|]. split; [done|]. intros u Hu. apply Hm. lia.
Qed.

(** Everything the loop does is show informational toasts. *)
Lemma collect_toasts cacheAt uiState lectures : ∀ i t audioDatas,
  forallb isInfo (collect cacheAt uiState lectures i t audioDatas).1 = true.
Proof.
  induction lectures as [|lecture rest IH]; intros i t audioDatas; [done|].
  cbn [collect].
  destruct (needsWait _ _).
  - destruct (poll cacheAt i t 0) as [t'|]; [|done].
    destruct (truthy (cacheAt t' !! i)); [|done].
    specialize (IH (S i) t' (audioDatas ++ [default EmptyString (cacheAt t' !! i)])).
    destruct (collect _ _ rest _ _ _) as [effects r]. exact IH.
  - destruct (truthy (cacheAt t !! i)); [|done]. apply IH.
Qed.

(** The shape of an export: informational toasts, then either the file or
    an error toast. *)
Lemma handleDownloadAll_shape c uiState cacheAt :
  ∃ toasts final,
    handleDownloadAll (Some c) uiState cacheAt = toasts ++ [final]
    ∧ forallb isInfo toasts = true
    ∧ ((∃ d, final = OfferDownload d) ∨ (∃ m, final = ShowToast m Toast.error)).
Proof.
  unfold handleDownloadAll.
  pose proof (collect_toasts cacheAt uiState (Course.lectures c) 0 0 []) as Hc.
  destruct (collect _ _ _ _ _ _) as [effects r]. cbn [fst] in Hc.
  set (finish := match r with Throw e => _ | Ok audioDatas => _ end).
  exists (ShowToast "Preparing your full course audio..." Toast.info
            :: effects ++ finish.1), 
         (match finish.2 with
          | Ok d => OfferDownload d
          | Throw e => ShowToast (exnMessage e) Toast.error
          end).
  split; [by rewrite <- app_comm_cons, <- app_assoc|]. split.
  - cbn [forallb isInfo andb]. rewrite forallb_app, Hc. cbn [andb].
    subst finish. destruct r as [audioDatas|e]; [|done].
    by destruct (negb _).
  - destruct finish.2; eauto.
Qed.

Lemma isInfo_not_call toasts rq :
  forallb isInfo toasts = true → Call rq ∉ toasts.
Proof.
  intros H Hin. rewrite forallb_forall in H.
  apply list_elem_of_In in Hin. by specialize (H _ Hin).
Qed.

Lemma isInfo_not_download toasts d :
  forallb isInfo toasts = true → OfferDownload d ∉ toasts.
Proof.
  intros H Hin. rewrite forallb_forall in H.
  apply list_elem_of_In in Hin. by specialize (H _ Hin).
Qed.

(** The export makes no call to a collaborator. *)
Lemma handleDownloadAll_no_call c uiState cacheAt rq :
  Call rq ∉ handleDownloadAll (Some c) uiState cacheAt.
Proof.
  destruct (handleDownloadAll_shape c uiState cacheAt)
    as (toasts & final & -> & Hi & Hf).
  rewrite elem_of_app, list_elem_of_singleton. intros [Hin|Heq].
  - by apply (isInfo_not_call toasts rq).
  - destruct Hf as [[d ->]|[m ->]]; discriminate.
Qed.

(** A lecture whose audio never arrives stops the loop with the timeout
    error that names it. *)
Lemma collect_timeout cacheAt uiState lectures : ∀ k lecture i t audioDatas,
  lectures !! k = Some lecture →
  (∀ j u, (j < k)%nat → truthy (cacheAt u !! (i + j)%nat) = true) →
  (∀ u, truthy (cacheAt u !! (i + k)%nat) = false) →
  (collect cacheAt uiState lectures i t audioDatas).2
  = Throw (Error (String.append "Timed out waiting for audio: "
                    (Lecture.title lecture))).
Proof.
  induction lectures as [|first rest IH]; intros k lecture i t audioDatas Hk He Hs;
    [done|].
  cbn [collect]. destruct k as [|k].
  - injection Hk as ->. replace (i + 0)%nat with i in Hs by lia.
    unfold needsWait. rewrite Hs. cbn [negb orb].
    assert (Hp : poll cacheAt i t 0 = None)
      by (apply (poll_rejects cacheAt i 61); [lia|]; intros; apply Hs).
    by rewrite Hp.
  - assert (Hi : ∀ u, truthy (cacheAt u !! i) = true).
    { intros u. specialize (He 0%nat u ltac:(lia)).
      by replace (i + 0)%nat with i in He by lia. }
    assert (IH' : ∀ t' audioDatas',
      (collect cacheAt uiState rest (S i) t' audioDatas').2
      = Throw (Error (String.append "Timed out waiting for audio: "
                        (Lecture.title lecture)))).
    { intros t' audioDatas'. apply (IH k); [exact Hk| |].
      - intros j u Hj. replace (S i + j)%nat with (i + S j)%nat by lia.
        apply He. lia.
      - intros u. replace (S i + k)%nat with (i + S k)%nat by lia. apply Hs. }
    destruct (needsWait _ _).
    + assert (Hp : poll cacheAt i t 0 = Some (S t)).
      { rewrite poll_step. by rewrite Hi. }
      rewrite Hp, Hi.
      specialize (IH' (S t)
                    (audioDatas ++ [default EmptyString (cacheAt (S t) !! i)])).
      by destruct (collect _ _ rest _ _ _) as [effects r].
    + rewrite Hi. apply IH'.
Qed.

(** The wait resolves on an entry that arrives with the 62nd tick and is
    rejected on one that arrives later. *)
Lemma poll_gives_up_after_62_ticks :
  poll (arrivesAt 62) 1 0 0 = Some 62%nat ∧ poll (arrivesAt 63) 1 0 0 = None.
Proof. split; vm_compute; reflexivity. Qed.

(** *** The export against its description *)

Lemma needsWait_waitsFor uiState cacheAt k t :
  needsWait (cacheAt t !! k) (uiState !! k) = true ↔ waitsFor uiState cacheAt k t.
Proof.
  unfold needsWait, waitsFor.
  destruct (truthy (cacheAt t !! k)); cbn [negb orb].
  - rewrite orb_true_iff, negb_true_iff, bool_decide_eq_true, bool_decide_eq_false.
    split; [intros [->|H]; right; [done|exact H]|].
    intros [|H]; [done|by right].
  - split; [by left|done].
Qed.

Lemma truthy_Some (o : option string) :
  truthy o = true → ∃ audioData, o = Some audioData.
Proof. destruct o; [by eexists|discriminate]. Qed.

Lemma firstTick_unique cacheAt k t t1 t2 :
  firstTick cacheAt k t t1 → firstTick cacheAt k t t2 → t1 = t2.
Proof.
  intros (H1 & F1 & M1) (H2 & F2 & M2).
  destruct (lt_eq_lt_dec t1 t2) as [[Hlt|Heq]|Hgt]; [|exact Heq|].
  - specialize (M2 t1 ltac:(lia)). congruence.
  - specialize (M1 t2 ltac:(lia)). congruence.
Qed.

Lemma firstTick_not_givesUp cacheAt k t t' :
  firstTick cacheAt k t t' → givesUp cacheAt k t → False.
Proof.
  intros (H & F & _) G. specialize (G (t' - t)%nat ltac:(lia)).
  replace (t + (t' - t))%nat with t' in G by lia. congruence.
Qed.

(** The export comes to a lecture in one way only. *)
Lemma collected_unique lectures uiState cacheAt k t1 d1 w1 :
  collected lectures uiState cacheAt k t1 d1 w1 →
  ∀ t2 d2 w2, collected lectures uiState cacheAt k t2 d2 w2 →
    t1 = t2 ∧ d1 = d2 ∧ w1 = w2.
Proof.
  induction 1 as [|k t d w lecture a H1 IH Hl Hn Ha
                  |k t t' d w lecture a H1 IH Hl Hw Hf Ha];
    intros t2 d2 w2 H2; inversion H2; subst.
  - done.
  - destruct (IH _ _ _ ltac:(eassumption)) as (<- & <- & <-).
    repeat split. congruence.
  - destruct (IH _ _ _ ltac:(eassumption)) as (<- & <- & <-). contradiction.
  - destruct (IH _ _ _ ltac:(eassumption)) as (<- & <- & <-). contradiction.
  - destruct (IH _ _ _ ltac:(eassumption)) as (<- & <- & <-).
    assert (t' = t2) as <- by (by eapply firstTick_unique).
    repeat split; congruence.
Qed.

Lemma collected_length lectures uiState cacheAt k t d w :
  collected lectures uiState cacheAt k t d w → length d = k ∧ (k ≤ length lectures)%nat.
Proof.
  induction 1 as [|k t d w lecture a H1 [IH1 IH2] Hl Hn Ha
                  |k t t' d w lecture a H1 [IH1 IH2] Hl Hw Hf Ha].
  - split; [done|cbn; lia].
  - rewrite length_app. cbn. apply lookup_lt_Some in Hl. lia.
  - rewrite length_app. cbn. apply lookup_lt_Some in Hl. lia.
Qed.

Lemma collected_info lectures uiState cacheAt k t d w :
  collected lectures uiState cacheAt k t d w → forallb isInfo w = true.
Proof.
  induction 1 as [|k t d w lecture a H1 IH Hl Hn Ha
                  |k t t' d w lecture a H1 IH Hl Hw Hf Ha]; [done|done|].
  by rewrite forallb_app, IH.
Qed.

(** An export that has come to lecture [k] has passed every lecture before
    it: none of their waits gave up. *)
Lemma collected_passed lectures uiState cacheAt k t d w :
  collected lectures uiState cacheAt k t d w →
  ∀ j tj dj wj, (j < k)%nat → collected lectures uiState cacheAt j tj dj wj →
    waitsFor uiState cacheAt j tj → givesUp cacheAt j tj → False.
Proof.
  induction 1 as [|k t d w lecture a H1 IH Hl Hn Ha
                  |k t t' d w lecture a H1 IH Hl Hw Hf Ha];
    intros j tj dj wj Hj Hcj Hwj Hgj; [lia| |].
  - destruct (decide (j = k)) as [->|Hne]; [|eapply IH; eauto; lia].
    destruct (collected_unique _ _ _ _ _ _ _ H1 _ _ _ Hcj) as (<- & _). contradiction.
  - destruct (decide (j = k)) as [->|Hne]; [|eapply IH; eauto; lia].
    destruct (collected_unique _ _ _ _ _ _ _ H1 _ _ _ Hcj) as (<- & _).
    by eapply firstTick_not_givesUp.
Qed.

(** The loop, from the lecture it has come to. *)
Lemma collect_spec lectures uiState cacheAt : ∀ rest passed i t audioDatas toasts,
  lectures = passed ++ rest → length passed = i →
  collected lectures uiState cacheAt i t audioDatas toasts →
  match collect cacheAt uiState rest i t audioDatas with
  | (effects, Ok audioDatas') =>
      ∃ t', collected lectures uiState cacheAt (length lectures) t' audioDatas'
              (toasts ++ effects)
  | (effects, Throw e) =>
      ∃ k tk datas toastsk lecture,
        collected lectures uiState cacheAt k tk datas toastsk
        ∧ lectures !! k = Some lecture
        ∧ waitsFor uiState cacheAt k tk ∧ givesUp cacheAt k tk
        ∧ e = Error (String.append "Timed out waiting for audio: "
                       (Lecture.title lecture))
        ∧ toasts ++ effects = toastsk ++ [waitingToast lecture]
  end.
Proof.
  induction rest as [|lecture rest IH]; intros passed i t audioDatas toasts Hl Hi Hc.
  - cbn [collect]. rewrite app_nil_r in Hl. subst. rewrite app_nil_r. by exists t.
  - assert (Hk : lectures !! i = Some lecture).
    { subst. by rewrite list_lookup_middle. }
    assert (Hl' : lectures = (passed ++ [lecture]) ++ rest)
      by (by rewrite <- app_assoc).
    assert (Hi' : length (passed ++ [lecture]) = S i)
      by (rewrite length_app; cbn; lia).
    cbn [collect].
    destruct (needsWait (cacheAt t !! i) (uiState !! i)) eqn:Hw.
    + apply needsWait_waitsFor in Hw.
      destruct (poll cacheAt i t 0) as [t'|] eqn:Hp.
      * apply (poll_resolves cacheAt i 61) in Hp; [|lia].
        assert (Hf : firstTick cacheAt i t t') by exact Hp.
        destruct Hp as (_ & Ht' & _). rewrite Ht'.
        destruct (truthy_Some _ Ht') as [audioData Ha]. rewrite Ha.
        change (default EmptyString (Some audioData)) with audioData.
        specialize (IH (passed ++ [lecture]) (S i) t' (audioDatas ++ [audioData])
                      (toasts ++ [waitingToast lecture]) Hl' Hi'
                      (collected_waited _ _ _ _ _ _ _ _ _ _ Hc Hk Hw Hf Ha)).
        revert IH.
        destruct (collect cacheAt uiState rest (S i) t' (audioDatas ++ [audioData]))
          as [effects [audioDatas'|e]]; intros IH.
        -- destruct IH as [t'' IH]. exists t''.
           by rewrite <- app_assoc in IH.
        -- destruct IH as (k & tk & datas & toastsk & lk & H1 & H2 & H3 & H4 & H5 & H6).
           exists k, tk, datas, toastsk, lk. repeat split; try assumption.
           by rewrite <- app_assoc in H6.
      * pose proof (proj1 (poll_rejects cacheAt i 61 t 0 eq_refl) Hp) as Hg.
        exists i, t, audioDatas, toasts, lecture. by repeat split.
    + assert (Hn : ¬ waitsFor uiState cacheAt i t).
      { intros H. apply needsWait_waitsFor in H. congruence. }
      assert (Ht : truthy (cacheAt t !! i) = true).
      { destruct (truthy (cacheAt t !! i)) eqn:E; [done|]. destruct Hn. by left. }
      rewrite Ht. destruct (truthy_Some _ Ht) as [audioData Ha]. rewrite Ha.
      change (default EmptyString (Some audioData)) with audioData.
      apply (IH (passed ++ [lecture]) (S i) t (audioDatas ++ [audioData]) toasts Hl' Hi').
      by eapply collected_ready.
Qed.

(** C8 (amended).  The export takes the lectures in order and calls no
    collaborator, so it starts no synthesis.  A lecture whose cache entry is
    missing or which is not marked [loaded] (the state [error] included) is
    waited for: the cache is looked at once a second, the wait ends at the
    first tick that finds the entry, and it gives up when 62 ticks in a row
    have not found it.  Every export either gives up on one lecture or comes
    to the end of the lectures.
    - When the wait for lecture [k] gives up, the export has shown the
      toasts of the waits so far and ends with the timeout error that names
      lecture [k]; no file is offered.
    - When no wait gives up, the export offers one file, the merge of the
      entries in lecture order: for a lecture that was waited for, also one
      whose entry was there all along, the entry that the cache holds at the
      tick that ends the wait.  If an entry is not valid base64 the export
      ends with an error toast instead of the file. *)
Theorem export_bounded_wait (cacheAt : nat → gmap nat string)
    (uiState : gmap nat AudioState.t) (c : Course.t) :
  let lectures := Course.lectures c in
  let effects := handleDownloadAll (Some c) uiState cacheAt in
  let preparing := ShowToast "Preparing your full course audio..." Toast.info in
  let merging := ShowToast "Merging audio files..." Toast.info in
  (∀ rq : Request, Call rq ∉ effects)
  ∧ ((∃ k t audioDatas toasts lecture,
        collected lectures uiState cacheAt k t audioDatas toasts
        ∧ lectures !! k = Some lecture
        ∧ waitsFor uiState cacheAt k t ∧ givesUp cacheAt k t)
     ∨ (∃ t audioDatas toasts,
          collected lectures uiState cacheAt (length lectures) t audioDatas toasts))
  ∧ (∀ k t audioDatas toasts lecture,
       collected lectures uiState cacheAt k t audioDatas toasts →
       lectures !! k = Some lecture →
       waitsFor uiState cacheAt k t → givesUp cacheAt k t →
       effects = preparing :: toasts ++ [waitingToast lecture; timedOut lecture]
       ∧ ∀ d : Download, OfferDownload d ∉ effects)
  ∧ (∀ t audioDatas toasts,
       collected lectures uiState cacheAt (length lectures) t audioDatas toasts →
       match Codec.createMergedWavBlob audioDatas with
       | Ok mergedBlob =>
           effects
           = preparing :: toasts ++ [merging; OfferDownload (courseFile c mergedBlob)]
       | Throw _ =>
           ∃ message : string,
             effects
             = preparing :: toasts ++ [merging; ShowToast message Toast.error]
       end).
Proof.
  intros lectures effects preparing merging.
  split; [intros rq; apply handleDownloadAll_no_call|].
  pose proof (collect_spec lectures uiState cacheAt lectures [] 0 0 [] []
                eq_refl eq_refl (collected_none _ _ _)) as Hspec.
  assert (Heff : effects = handleDownloadAll (Some c) uiState cacheAt) by reflexivity.
  unfold handleDownloadAll in Heff. fold lectures in Heff.
  revert Hspec Heff.
  destruct (collect cacheAt uiState lectures 0 0 []) as [collectEffects [audioDatas'|e]];
    intros Hspec Heff.
  - (* the loop comes to the end *)
    destruct Hspec as [t' Hend]. cbn [app] in Hend.
    destruct (collected_length _ _ _ _ _ _ _ Hend) as [Hlen _].
    rewrite Hlen, Nat.eqb_refl in Heff. cbn [negb fst snd] in Heff.
    split; [right; by exists t', audioDatas', collectEffects|]. split.
    + intros k t audioDatas toasts lecture Hc Hk Hw Hg. exfalso.
      apply lookup_lt_Some in Hk as Hlt.
      by eapply (collected_passed _ _ _ _ _ _ _ Hend k).
    + intros t audioDatas toasts Hc.
      destruct (collected_unique _ _ _ _ _ _ _ Hend _ _ _ Hc) as (_ & <- & <-).
      rewrite Heff. destruct (Codec.createMergedWavBlob audioDatas') as [blob|e'];
        cbn [mbind result_bind fst snd].
      * reflexivity.
      * by exists (exnMessage e').
  - (* a wait gives up *)
    destruct Hspec as (k0 & t0 & datas0 & toasts0 & lecture0
                       & Hc0 & Hk0 & Hw0 & Hg0 & -> & Htoasts).
    cbn [app] in Htoasts. cbn [fst snd exnMessage] in Heff.
    rewrite Htoasts in Heff. cbn [app] in Heff. rewrite <- app_assoc in Heff.
    cbn [app] in Heff. fold (timedOut lecture0) in Heff.
    split; [left; by exists k0, t0, datas0, toasts0, lecture0|]. split.
    + intros k t audioDatas toasts lecture Hc Hk Hw Hg.
      assert (Hkk : k = k0).
      { destruct (lt_eq_lt_dec k k0) as [[Hlt|Heq]|Hgt]; [|exact Heq|]; exfalso.
        - by eapply (collected_passed _ _ _ _ _ _ _ Hc0 k).
        - by eapply (collected_passed _ _ _ _ _ _ _ Hc k0). }
      subst k. destruct (collected_unique _ _ _ _ _ _ _ Hc0 _ _ _ Hc) as (<- & <- & <-).
      assert (lecture = lecture0) as -> by congruence.
      split; [exact Heff|].
      intros d Hd. rewrite Heff in Hd.
      apply elem_of_cons in Hd as [Hd|Hd]; [discriminate|].
      apply elem_of_app in Hd as [Hd|Hd].
      * by apply (isInfo_not_download toasts0 d (collected_info _ _ _ _ _ _ _ Hc0)).
      * apply elem_of_cons in Hd as [Hd|Hd]; [discriminate|].
        apply list_elem_of_singleton in Hd. discriminate.
    + intros t audioDatas toasts Hc. exfalso.
      apply lookup_lt_Some in Hk0 as Hlt.
      by eapply (collected_passed _ _ _ _ _ _ _ Hc k0).
Qed.

(** C8, an instance: the second of two lectures stays in [content-loading]
    and never gets its audio. *)
Lemma export_bounded_wait_witness :
  handleDownloadAll (Some twoLectures) secondStuck stuck
  = [ ShowToast "Preparing your full course audio..." Toast.info;
      waitingToast (Sample.outlineLecture "Sampling");
      timedOut (Sample.outlineLecture "Sampling") ].
Proof.
  destruct (export_bounded_wait stuck secondStuck twoLectures) as (_ & _ & H & _).
  apply (H 1%nat 0%nat [Sample.audioA] [] (Sample.outlineLecture "Sampling")).
  - apply (collected_ready _ _ _ 0 0 [] [] PipelineSpec.editedLecture Sample.audioA).
    + constructor.
    + reflexivity.
    + intros [Hf|Hs]; [vm_compute in Hf; discriminate|]. apply Hs. reflexivity.
    + reflexivity.
  - reflexivity.
  - left. reflexivity.
  - intros n Hn. reflexivity.
Defined.

(** C8, counterexample: the audio of both lectures is in the cache and
    lecture 1 is not yet marked [loaded].  The export waits for lecture 1,
    takes the cached entry and offers the merged file; it requests no
    synthesis. *)
Lemma export_awaits_cached_entry :
  let uiState : gmap nat AudioState.t :=
    {[ 0%nat := AudioState.loaded; 1%nat := AudioState.loading ]} in
  let effects := handleDownloadAll (Some twoLectures) uiState bothCached in
  truthy (bothCached 0 !! 1%nat) = true
  ∧ uiState !! 1%nat = Some AudioState.loading
  ∧ (∀ rq, Call rq ∉ effects)
  ∧ ∃ d, last effects = Some (OfferDownload d).
Proof.
  intros uiState effects.
  split; [vm_compute; reflexivity|]. split; [vm_compute; reflexivity|].
  split; [intros rq; apply handleDownloadAll_no_call|].
  eexists. vm_compute. reflexivity.
Qed.

End DownloadAllFacts.

(* ================================================================== *)
(** * Further properties of the codec *)
(* ================================================================== *)

Module Base64Facts.
Import Codec CodecSpec CodecFacts Base64Spec.

Lemma list_triple_ind {A} (P : list A → Prop) :
  P [] → (∀ x, P [x]) → (∀ x y, P [x; y]) →
  (∀ x y z l, P l → P (x :: y :: z :: l)) → ∀ l, P l.
Proof.
  intros H0 H1 H2 H3 l.
  assert (H : P l ∧ (∀ x, P (x :: l)) ∧ ∀ x y, P (x :: y :: l)); [|apply H].
  induction l as [|a l (IHa & IHb & IHc)]; repeat split; auto.
Qed.

(** *** The copy loop of [decode] *)

Lemma get_lookup (s : string) (i : nat) :
  String.get i s = list_ascii_of_string s !! i.
Proof.
  revert i. induction s as [|c s IH]; intros [|i]; simpl; auto.
Qed.

Lemma length_list_ascii (s : string) :
  length (list_ascii_of_string s) = String.length s.
Proof. induction s as [|c s IH]; simpl; auto. Qed.

(** [decode] is [atob] followed by the character codes of its result. *)
Lemma decode_atob (base64 : string) :
  decode base64
  = (λ binaryString,
       map (λ c, byte.of_Z (Z.of_nat (nat_of_ascii c)))
           (list_ascii_of_string binaryString)) <$> atob base64.
Proof.
  unfold decode. destruct (atob base64) as [s|e]; [|reflexivity].
  cbn. f_equal.
  change (foldl _ (repeat Byte.x00 (String.length s)) (seq 0 (String.length s)))
    with (foldl (updateStep Byte.x00 (λ i _, byte.of_Z (charCodeAt s i)))
                (repeat Byte.x00 (String.length s)) (seq 0 (String.length s))).
  apply list_eq. intros i. rewrite list_lookup_fmap.
  destruct (decide (i < String.length s)%nat) as [Hi|Hi].
  - rewrite (updateLoop_at _ _ _ _ _ i Byte.x00)
      by (first [by apply lookup_repeat | lia]).
    unfold charCodeAt. rewrite get_lookup.
    destruct (list_ascii_of_string s !! i) as [c|] eqn:E; [reflexivity|].
    apply lookup_ge_None in E. rewrite length_list_ascii in E. lia.
  - rewrite (lookup_ge_None_2 (foldl _ _ _))
      by (rewrite updateLoop_length, repeat_length; lia).
    rewrite (lookup_ge_None_2 (list_ascii_of_string s))
      by (rewrite length_list_ascii; lia).
    reflexivity.
Qed.

(** *** The alphabet *)

Lemma alphabet_checked :
  forallb (λ n : nat,
             let v := Z.of_nat n in
             match base64Value (base64Char v) with
             | Some v' => v' =? v
             | None => false
             end
             && negb (isEquals (base64Char v))
             && negb (isAsciiWhitespace (base64Char v)))
          (seq 0 64) = true.
Proof. vm_compute. reflexivity. Qed.

Lemma base64Char_spec (v : Z) :
  0 <= v < 64 →
  base64Value (base64Char v) = Some v
  ∧ isEquals (base64Char v) = false
  ∧ isAsciiWhitespace (base64Char v) = false.
Proof.
  intros Hv. pose proof alphabet_checked as H.
  rewrite forallb_forall in H. specialize (H (Z.to_nat v)).
  rewrite Z2Nat.id in H by lia.
  assert (Hin : In (Z.to_nat v) (seq 0 64)) by (apply in_seq; lia).
  specialize (H Hin). cbv zeta in H.
  apply andb_prop in H as [H Hw]. apply andb_prop in H as [H He].
  destruct (base64Value (base64Char v)) as [v'|]; [|discriminate].
  apply Z.eqb_eq in H. subst v'.
  apply negb_true_iff in He, Hw. auto.
Qed.

Lemma sextetsOf_range (bytes : list byte) :
  Forall (λ v, 0 <= v < 64) (sextetsOf bytes).
Proof.
  induction bytes as [|x|x y|x y z l IH] using list_triple_ind; cbn [sextetsOf].
  - constructor.
  - pose proof (byte.unsigned_range x).
    repeat constructor; try (apply Z.mod_pos_bound; lia);
      try (apply Z.div_pos; lia); apply Z.div_lt_upper_bound; lia.
  - pose proof (byte.unsigned_range x). pose proof (byte.unsigned_range y).
    repeat constructor; try (apply Z.mod_pos_bound; lia);
      try (apply Z.div_pos; lia); apply Z.div_lt_upper_bound; lia.
  - pose proof (byte.unsigned_range x). pose proof (byte.unsigned_range y).
    pose proof (byte.unsigned_range z).
    repeat (constructor; [first [ apply Z.mod_pos_bound; lia
                                | split; [apply Z.div_pos; lia
                                         |apply Z.div_lt_upper_bound; lia]]|]).
    exact IH.
Qed.

Lemma sextetsOf_length (bytes : list byte) :
  (length (sextetsOf bytes) mod 4
   = match length bytes mod 3 with 0 => 0 | 1 => 2 | _ => 3 end)%nat.
Proof.
  induction bytes as [|x|x y|x y z l IH] using list_triple_ind;
    try reflexivity.
  cbn [sextetsOf length].
  change (S (S (S (S (length (sextetsOf l))))))
    with (1 * 4 + length (sextetsOf l))%nat.
  change (S (S (S (length l)))) with (1 * 3 + length l)%nat.
  rewrite (Nat.add_comm (1 * 4)), (Nat.add_comm (1 * 3)), !Nat.Div0.mod_add.
  exact IH.
Qed.

Lemma sextets_chars (vs : list Z) :
  Forall (λ v, 0 <= v < 64) vs → sextets (map base64Char vs) = Some vs.
Proof.
  induction 1 as [|v vs Hv _ IH]; [reflexivity|].
  cbn [map sextets]. destruct (base64Char_spec v Hv) as (-> & _). cbn.
  by rewrite IH.
Qed.

(** *** Four sextets back to three bytes *)

Lemma of_Z_mod (x y : Z) : x mod 2 ^ 8 = y → byte.of_Z x = byte.of_Z y.
Proof.
  intros H.
  rewrite <- (byte.of_Z_unsigned (byte.of_Z x)), byte.unsigned_of_Z.
  unfold byte.wrap. by rewrite H.
Qed.

Lemma regroup (n : Z) :
  Z.lor (Z.lor (Z.shiftl (n / 2 ^ 18) 18) (Z.shiftl ((n / 2 ^ 12) mod 64) 12))
        (Z.lor (Z.shiftl ((n / 2 ^ 6) mod 64) 6) (n mod 64)) = n.
Proof.
  change 64 with (2 ^ 6).
  rewrite <- !Z.shiftr_div_pow2 by lia. rewrite <- !Z.land_ones by lia.
  Z.bitblast.
Qed.

Lemma regroup3 (n : Z) :
  Z.lor (Z.lor (Z.shiftl (n / 2 ^ 12) 12) (Z.shiftl ((n / 2 ^ 6) mod 64) 6))
        (n mod 64) = n.
Proof.
  change 64 with (2 ^ 6).
  rewrite <- !Z.shiftr_div_pow2 by lia. rewrite <- !Z.land_ones by lia.
  Z.bitblast.
Qed.

Lemma regroup2 (n : Z) :
  Z.lor (Z.shiftl (n / 2 ^ 6) 6) (n mod 64) = n.
Proof.
  change 64 with (2 ^ 6).
  rewrite <- !Z.shiftr_div_pow2 by lia. rewrite <- !Z.land_ones by lia.
  Z.bitblast.
Qed.

Lemma decodeSextets_sextetsOf (bytes : list byte) :
  decodeSextets (sextetsOf bytes) = bytes.
Proof.
  induction bytes as [|x|x y|x y z l IH] using list_triple_ind.
  - reflexivity.
  - cbn [sextetsOf decodeSextets]. rewrite regroup2.
    pose proof (byte.unsigned_range x). f_equal.
    rewrite Z.shiftr_div_pow2 by lia.
    rewrite <- (byte.of_Z_unsigned x) at 2. f_equal.
    change (2 ^ 4) with 16. by rewrite Z.div_mul.
  - cbn [sextetsOf decodeSextets]. rewrite regroup3.
    pose proof (byte.unsigned_range x). pose proof (byte.unsigned_range y).
    rewrite !Z.shiftr_div_pow2 by lia. change (2 ^ 2) with 4.
    rewrite Z.div_mul by lia. f_equal; [|f_equal].
    + rewrite <- (byte.of_Z_unsigned x) at 2. f_equal.
      change (2 ^ 8) with 256. rewrite Z.div_add_l by lia.
      rewrite Z.div_small by lia. lia.
    + rewrite <- (byte.of_Z_unsigned y) at 2. apply of_Z_mod.
      change (2 ^ 8) with 256.
      rewrite Z.add_comm, Z.mod_add by lia. apply Z.mod_small. lia.
  - cbn [sextetsOf decodeSextets]. rewrite regroup, IH.
    pose proof (byte.unsigned_range x). pose proof (byte.unsigned_range y).
    pose proof (byte.unsigned_range z).
    rewrite !Z.shiftr_div_pow2 by lia. f_equal; [|f_equal; [|f_equal]].
    + rewrite <- (byte.of_Z_unsigned x) at 2. f_equal.
      change (2 ^ 16) with 65536.
      rewrite <- Z.add_assoc, Z.div_add_l by lia.
      rewrite (Z.div_small (_ + _)) by lia. lia.
    + rewrite <- (byte.of_Z_unsigned y) at 2. apply of_Z_mod.
      change (2 ^ 8) with 256.
      replace (byte.unsigned x * 65536 + byte.unsigned y * 256 + byte.unsigned z)
        with (byte.unsigned z + (byte.unsigned x * 256 + byte.unsigned y) * 256)
        by lia.
      rewrite Z.div_add by lia. rewrite (Z.div_small (byte.unsigned z)) by lia.
      rewrite Z.add_0_l, Z.add_comm, Z.mod_add by lia. apply Z.mod_small. lia.
    + rewrite <- (byte.of_Z_unsigned z) at 2. apply of_Z_mod.
      change (2 ^ 8) with 256.
      replace (byte.unsigned x * 65536 + byte.unsigned y * 256 + byte.unsigned z)
        with (byte.unsigned z + (byte.unsigned x * 256 + byte.unsigned y) * 256)
        by lia.
      rewrite Z.mod_add by lia. apply Z.mod_small. lia.
Qed.

(** *** Padding *)

Lemma stripPadding_padded (body : list ascii) (bytes : list byte) :
  Forall (λ c, isEquals c = false) body →
  (length body mod 4
   = match length bytes mod 3 with 0 => 0 | 1 => 2 | _ => 3 end)%nat →
  stripPadding (body ++ padding bytes) = body.
Proof.
  intros Hbody Hlen. unfold padding.
  assert (Hlast : ∀ c r, rev body = c :: r → isEquals c = false).
  { intros c r Hr. rewrite Forall_forall in Hbody. apply Hbody.
    apply list_elem_of_In, in_rev. rewrite Hr. by left. }
  assert (Hm : (length bytes mod 3 < 3)%nat) by (apply Nat.mod_upper_bound; lia).
  destruct (length bytes mod 3)%nat as [|[|[|k]]] eqn:E; [| | |lia].
  - rewrite app_nil_r. unfold stripPadding. rewrite Hlen. cbn [Nat.eqb].
    destruct (rev body) as [|c1 [|c2 r]] eqn:Hr; [done|done|].
    by rewrite (Hlast c1 (c2 :: r) eq_refl).
  - unfold stripPadding. rewrite length_app. cbn [length].
    replace ((length body + 2) mod 4)%nat with 0%nat
      by (rewrite <- Nat.Div0.add_mod_idemp_l, Hlen; reflexivity).
    cbn [Nat.eqb]. rewrite rev_app_distr. cbn [rev app].
    change (isEquals equalsSign) with true. cbv iota.
    apply rev_involutive.
  - unfold stripPadding. rewrite length_app. cbn [length].
    replace ((length body + 1) mod 4)%nat with 0%nat
      by (rewrite <- Nat.Div0.add_mod_idemp_l, Hlen; reflexivity).
    cbn [Nat.eqb]. rewrite rev_app_distr. cbn [rev app].
    change (isEquals equalsSign) with true. cbv iota.
    destruct (rev body) as [|c2 r] eqn:Hr.
    + apply (f_equal (@length ascii)) in Hr. rewrite length_rev in Hr.
      rewrite Hr in Hlen. discriminate.
    + rewrite (Hlast c2 r eq_refl). change (rev r ++ [c2]) with (rev (c2 :: r)).
      rewrite <- Hr. apply rev_involutive.
Qed.

Lemma filter_all {A} (P : A → bool) (l : list A) :
  Forall (λ x, P x = true) l → filter P l = l.
Proof.
  induction 1 as [|x l Hx _ IH]; [reflexivity|].
  rewrite filter_cons_True by (by rewrite Hx). by rewrite IH.
Qed.

Lemma atob_btoa (bytes : list byte) :
  atob (btoa bytes) = Ok (string_of_list_ascii (map ascii_of_byte bytes)).
Proof.
  pose proof (sextetsOf_range bytes) as Hr.
  set (body := map base64Char (sextetsOf bytes)).
  assert (Hbody : Forall (λ c, isEquals c = false ∧ isAsciiWhitespace c = false) body).
  { subst body. apply Forall_fmap. eapply Forall_impl; [exact Hr|].
    intros v Hv. cbn. by destruct (base64Char_spec v Hv) as (_ & ? & ?). }
  unfold atob, btoa. fold body.
  rewrite list_ascii_of_string_of_list_ascii.
  assert (Hf : filter (λ c, negb (isAsciiWhitespace c)) (body ++ padding bytes)
               = body ++ padding bytes).
  { apply filter_all. apply Forall_app. split.
    - eapply Forall_impl; [exact Hbody|]. intros c [_ Hc]. cbn. by rewrite Hc.
    - unfold padding.
      destruct (length bytes mod 3)%nat as [|[|[|k]]]; repeat constructor. }
  rewrite Hf.
  rewrite (stripPadding_padded body bytes).
  - assert (Hl : (length body mod 4 ≠ 1)%nat).
    { subst body. rewrite length_map, sextetsOf_length.
      by destruct (length bytes mod 3)%nat as [|[|[|k]]]. }
    destruct (length body mod 4 =? 1)%nat eqn:E; [by apply Nat.eqb_eq in E|].
    subst body. rewrite (sextets_chars _ Hr).
    by rewrite decodeSextets_sextetsOf.
  - eapply Forall_impl; [exact Hbody|]. by intros c [? _].
  - subst body. rewrite length_map. apply sextetsOf_length.
Qed.

Lemma byte_of_code (b : byte) :
  byte.of_Z (Z.of_nat (nat_of_ascii (ascii_of_byte b))) = b.
Proof. destruct b; reflexivity. Qed.

(** X1. [decode] inverts the base64 encoding: every byte sequence comes back
    from its encoding unchanged, whatever its length. *)
Theorem decode_btoa (bytes : list byte) : decode (btoa bytes) = Ok bytes.
Proof.
  rewrite decode_atob, atob_btoa. cbn. f_equal.
  rewrite list_ascii_of_string_of_list_ascii, map_map.
  rewrite <- (map_id bytes) at 2. apply map_ext. intros b. apply byte_of_code.
Qed.

(** *** What [decode] accepts *)

Lemma list_quad_ind {A} (P : list A → Prop) :
  P [] → (∀ x, P [x]) → (∀ x y, P [x; y]) → (∀ x y z, P [x; y; z]) →
  (∀ x y z w l, P l → P (x :: y :: z :: w :: l)) → ∀ l, P l.
Proof.
  intros H0 H1 H2 H3 H4 l.
  assert (H : P l ∧ (∀ x, P (x :: l)) ∧ (∀ x y, P (x :: y :: l))
              ∧ ∀ x y z, P (x :: y :: z :: l)); [|apply H].
  induction l as [|a l (IHa & IHb & IHc & IHd)]; repeat split; auto.
Qed.

Lemma decodeSextets_length (vs : list Z) :
  length (decodeSextets vs) = (3 * length vs / 4)%nat.
Proof.
  induction vs as [|x|x y|x y z|x y z w l IH] using list_quad_ind;
    try reflexivity.
  cbn [decodeSextets length]. rewrite IH.
  replace (3 * S (S (S (S (length l)))))%nat with (3 * 4 + 3 * length l)%nat by lia.
  rewrite (Nat.div_add_l 3 4) by lia. reflexivity.
Qed.

Lemma sextets_Some (cs : list ascii) : ∀ vs,
  sextets cs = Some vs →
  length vs = length cs ∧ Forall (λ c, is_Some (base64Value c)) cs.
Proof.
  induction cs as [|c cs IH]; intros vs H; cbn in H.
  - injection H as <-. by split.
  - destruct (base64Value c) as [v|] eqn:Ec; [|discriminate]. cbn in H.
    destruct (sextets cs) as [vs'|]; [|discriminate]. cbn in H.
    injection H as <-. destruct (IH vs' eq_refl) as [Hl Hf].
    split; [cbn; by rewrite Hl|]. constructor; [by rewrite Ec|exact Hf].
Qed.

Lemma sextets_None (cs : list ascii) :
  sextets cs = None → Exists (λ c, base64Value c = None) cs.
Proof.
  induction cs as [|c cs IH]; intros H; cbn in H; [discriminate|].
  destruct (base64Value c) as [v|] eqn:Ec; [|by left]. cbn in H.
  destruct (sextets cs) as [vs'|]; [discriminate|]. right. by apply IH.
Qed.

Lemma decode_error (base64 : string) (e : exn) :
  decode base64 = Throw e → e = InvalidCharacterError.
Proof.
  rewrite decode_atob. unfold atob.
  destruct (_ =? 1)%nat; [by intros [= <-]|].
  destruct (sextets _); [discriminate|by intros [= <-]].
Qed.

(** X2. [decode] succeeds exactly on the inputs whose payload consists of
    characters of the alphabet and does not leave a single character over;
    [n] payload characters give [3n/4] bytes, rounded down.  Every other
    input is rejected with [InvalidCharacterError]. *)
Theorem decode_outcome (base64 : string) :
  match decode base64 with
  | Ok bytes =>
      (length (payload base64) mod 4)%nat ≠ 1%nat
      ∧ Forall (λ c, is_Some (base64Value c)) (payload base64)
      ∧ length bytes = (3 * length (payload base64) / 4)%nat
  | Throw e =>
      e = InvalidCharacterError
      ∧ ((length (payload base64) mod 4)%nat = 1%nat
         ∨ Exists (λ c, base64Value c = None) (payload base64))
  end.
Proof.
  rewrite decode_atob. unfold atob. fold (payload base64).
  destruct (length (payload base64) mod 4 =? 1)%nat eqn:E.
  - apply Nat.eqb_eq in E. cbn. by split; [|left].
  - apply Nat.eqb_neq in E.
    destruct (sextets (payload base64)) as [vs|] eqn:Es; cbn.
    + destruct (sextets_Some _ _ Es) as [Hl Hf].
      split; [exact E|]. split; [exact Hf|].
      rewrite length_map, list_ascii_of_string_of_list_ascii, length_map.
      by rewrite decodeSextets_length, Hl.
    + split; [reflexivity|]. right. by apply sextets_None.
Qed.

End Base64Facts.

Module WavFacts.
Import Codec CodecSpec CodecFacts.

(** *** Merging and its failures *)

Lemma mapM_decode_inv (xs : list string) : ∀ ps,
  mapM decode xs = Ok ps → Forall2 (λ x p, decode x = Ok p) xs ps.
Proof.
  induction xs as [|x xs IH]; intros ps H; cbn in H.
  - injection H as <-. constructor.
  - destruct (decode x) as [p|e] eqn:Ex; [|discriminate]. cbn in H.
    destruct (mapM decode xs) as [ps'|e] eqn:Exs; [|discriminate]. cbn in H.
    injection H as <-. constructor; [exact Ex|by apply IH].
Qed.

Lemma mapM_decode_Throw (xs : list string) (e : exn) :
  mapM decode xs = Throw e →
  ∃ before x after,
    xs = before ++ x :: after
    ∧ Forall (λ y, is_ok (decode y) = true) before
    ∧ decode x = Throw e.
Proof.
  induction xs as [|x xs IH]; intros H; cbn in H; [discriminate|].
  destruct (decode x) as [p|e'] eqn:Ex; cbn in H.
  - destruct (mapM decode xs) as [ps'|e''] eqn:Exs; [discriminate|]. cbn in H.
    injection H as ->. destruct (IH eq_refl) as (before & y & after & -> & Hb & Hy).
    exists (x :: before), y, after. split; [reflexivity|]. split; [|exact Hy].
    constructor; [by rewrite Ex|exact Hb].
  - injection H as ->. exists [], x, xs. by repeat split.
Qed.

Lemma createMergedWavBlob_Throw (xs : list string) (e : exn) :
  createMergedWavBlob xs = Throw e → mapM decode xs = Throw e.
Proof.
  intros H. destruct (mapM decode xs) as [ps|e'] eqn:E.
  - apply mapM_decode_inv in E.
    rewrite (createMergedWavBlob_layout _ _ E) in H. discriminate.
  - unfold createMergedWavBlob in H. rewrite E in H. cbn in H. by injection H as ->.
Qed.

(** X3. [createMergedWavBlob] fails exactly when one of the payloads is not
    valid base64: the error is the [InvalidCharacterError] of the first such
    payload, and writing the chunks never goes out of range. *)
Theorem createMergedWavBlob_outcome (base64Audios : list string) :
  match createMergedWavBlob base64Audios with
  | Ok wav =>
      ∃ pcmChunks,
        Forall2 (λ x p, decode x = Ok p) base64Audios pcmChunks
        ∧ blobBytes wav = wavHeader (length (concat pcmChunks)) ++ concat pcmChunks
  | Throw e =>
      e = InvalidCharacterError
      ∧ ∃ before x after,
          base64Audios = before ++ x :: after
          ∧ Forall (λ y, is_ok (decode y) = true) before
          ∧ decode x = Throw InvalidCharacterError
  end.
Proof.
  destruct (createMergedWavBlob base64Audios) as [wav|e] eqn:E.
  - destruct (mapM decode base64Audios) as [ps|e'] eqn:Em.
    + apply mapM_decode_inv in Em. exists ps. split; [exact Em|].
      rewrite (createMergedWavBlob_layout _ _ Em) in E. by injection E as <-.
    + unfold createMergedWavBlob in E. rewrite Em in E. discriminate.
  - apply createMergedWavBlob_Throw, mapM_decode_Throw in E.
    destruct E as (before & x & after & Hx & Hb & Hd).
    pose proof (Base64Facts.decode_error x e Hd) as ->. split; [reflexivity|]. by exists before, x, after.
Qed.

(** X4. Merging a single payload gives the file that [createWavBlob] gives for
    it, also when the payload is rejected; merging no payload gives the bare
    44-byte header with both size fields showing an empty data section. *)
Theorem createMergedWavBlob_one_or_none (base64 : string) :
  createMergedWavBlob [base64] = createWavBlob base64
  ∧ ∃ wav, createMergedWavBlob [] = Ok wav
      ∧ length (blobBytes wav) = 44%nat
      ∧ getUint32 (blobBytes wav) 4 = 36
      ∧ getUint32 (blobBytes wav) 40 = 0.
Proof.
  split.
  - unfold createWavBlob. destruct (decode base64) as [pcm|e] eqn:E.
    + rewrite (createMergedWavBlob_layout [base64] [pcm]) by (by repeat constructor).
      cbn [concat]. rewrite app_nil_r, bind_Ok. by rewrite pcmToWavBlob_layout.
    + unfold createMergedWavBlob. cbn. by rewrite E.
  - rewrite (createMergedWavBlob_layout [] []) by constructor.
    eexists. split; [reflexivity|]. repeat split.
Qed.

(** X5. The header of a merged file: the size fields hold the summed length of
    the decoded payloads (plus 36 for the chunk size), reduced modulo 2^32,
    and the format fields are those of a single-lecture file. *)
Theorem createMergedWavBlob_header (base64Audios : list string)
    (pcmChunks : list (list byte)) :
  Forall2 (λ x p, decode x = Ok p) base64Audios pcmChunks →
  ∃ wav, createMergedWavBlob base64Audios = Ok wav
    ∧ blobType wav = "audio/wav"
    ∧ asciiAt (blobBytes wav) 0 4 = "RIFF"
    ∧ getUint32 (blobBytes wav) 4
      = (36 + Z.of_nat (sum_list (length <$> pcmChunks))) mod 2 ^ 32
    ∧ asciiAt (blobBytes wav) 8 4 = "WAVE"
    ∧ asciiAt (blobBytes wav) 12 4 = "fmt "
    ∧ getUint32 (blobBytes wav) 16 = 16
    ∧ getUint16 (blobBytes wav) 20 = 1
    ∧ getUint16 (blobBytes wav) 22 = 1
    ∧ getUint32 (blobBytes wav) 24 = 24000
    ∧ getUint32 (blobBytes wav) 28 = 48000
    ∧ getUint16 (blobBytes wav) 32 = 2
    ∧ getUint16 (blobBytes wav) 34 = 16
    ∧ asciiAt (blobBytes wav) 36 4 = "data"
    ∧ getUint32 (blobBytes wav) 40
      = Z.of_nat (sum_list (length <$> pcmChunks)) mod 2 ^ 32.
Proof.
  intros H. rewrite (createMergedWavBlob_layout _ _ H).
  eexists; split; [reflexivity|]. cbn [blobBytes blobType].
  assert (Hsum : length (concat pcmChunks) = sum_list (length <$> pcmChunks)).
  { clear. induction pcmChunks as [|p ps IH]; simpl; [reflexivity|].
    by rewrite length_app, IH. }
  rewrite Hsum.
  destruct (wavHeader_fixed (sum_list (length <$> pcmChunks)) (concat pcmChunks))
    as (H0 & H8 & H12 & H36 & H16 & H20 & H22 & H24 & H28 & H32 & H34 & _).
  destruct (wavHeader_field32 (sum_list (length <$> pcmChunks)) (concat pcmChunks))
    as [Hchunk Hsize].
  repeat split; try assumption.
  - unfold getUint32. by rewrite Hchunk, le_combine_split.
  - unfold getUint32. by rewrite Hsize, le_combine_split.
Qed.

(** Two payloads of four and two bytes. *)
Lemma createMergedWavBlob_header_witness :
  ∃ wav, createMergedWavBlob ["AAEC/w=="; "AQI="] = Ok wav
    ∧ getUint32 (blobBytes wav) 4 = 42
    ∧ getUint32 (blobBytes wav) 40 = 6.
Proof.
  destruct (createMergedWavBlob_header ["AAEC/w=="; "AQI="]
              [[Byte.x00; Byte.x01; Byte.x02; Byte.xff]; [Byte.x01; Byte.x02]])
    as (wav & Hw & _ & _ & H4 & _ & _ & _ & _ & _ & _ & _ & _ & _ & _ & H40).
  - repeat constructor.
  - exists wav. split; [exact Hw|]. split; [exact H4|exact H40].
Defined.

(** *** What [decodeAudioData] accepts *)

Section UpdateLoopShape.
Context {A : Type} (d : A) (g : nat → A → A) (P : A → Prop).
Hypothesis g_keeps : ∀ i x, P x → P (g i x).

Lemma updateLoop_Forall (ks : list nat) :
  ∀ l : list A, Forall P l → Forall P (foldl (updateStep d g) l ks).
Proof.
  induction ks as [|k ks IH]; intros l Hl; simpl; [exact Hl|].
  apply IH. unfold updateStep.
  destruct (l !! k) as [x|] eqn:E; simpl.
  - apply Forall_insert; [exact Hl|]. apply g_keeps.
    by apply (Forall_lookup_1 P l k x).
  - rewrite list_insert_ge; [exact Hl|]. by apply lookup_ge_None.
Qed.
End UpdateLoopShape.

Lemma Forall_repeat {A} (P : A → Prop) (x : A) (n : nat) :
  P x → Forall P (repeat x n).
Proof. intros Hx. induction n; simpl; by constructor. Qed.

(** X6. [decodeAudioData] returns a buffer exactly when the byte length is even,
    the channel count is between 1 and what the context supports, the context
    supports the sample rate, and the frame count (reduced modulo 2^32) is
    not 0.  The buffer then has one list of samples per channel, each as long
    as the frame count.  An odd byte length raises [RangeError]; every other
    rejection is the [NotSupportedError] of [createBuffer]. *)
Theorem decodeAudioData_outcome (data : list byte) (ctx : AudioContext)
    (rate : Q) (numChannels : nat) :
  let frameCount :=
    Z.to_nat (Z.of_nat (length data / 2 / numChannels) mod 2 ^ 32) in
  match decodeAudioData data ctx rate numChannels with
  | Ok buffer =>
      (length data mod 2 = 0)%nat
      ∧ (1 ≤ numChannels ≤ maxChannels ctx)%nat
      ∧ rateSupported ctx rate = true
      ∧ frames buffer = frameCount ∧ frameCount ≠ 0%nat
      ∧ numberOfChannels buffer = numChannels
      ∧ length (channels buffer) = numChannels
      ∧ Forall (λ channelData, length channelData = frameCount) (channels buffer)
  | Throw e =>
      if (length data mod 2 =? 0)%nat then
        e = NotSupportedError
        ∧ (numChannels = 0%nat ∨ (maxChannels ctx < numChannels)%nat
           ∨ frameCount = 0%nat ∨ rateSupported ctx rate = false)
      else e = RangeError
  end.
Proof.
  intros frameCount. rewrite decodeAudioData_unfold. unfold newInt16Array.
  destruct (length data mod 2 =? 0)%nat eqn:Heven; [|reflexivity].
  apply Nat.eqb_eq in Heven. rewrite bind_Ok, int16Elements_length.
  set (n := (length data / 2)%nat) in *.
  assert (Hlen : (1 ≤ numChannels)%nat →
                 Z.to_nat (toUnsignedLong (divLengths n numChannels)) = frameCount).
  { intros Hc. unfold divLengths. destruct numChannels as [|c']; [lia|].
    unfold toUnsignedLong. by rewrite Qfloor_lengths by lia. }
  unfold createBuffer.
  destruct (numChannels =? 0)%nat eqn:Ec.
  { apply Nat.eqb_eq in Ec. cbn. split; [reflexivity|by left]. }
  apply Nat.eqb_neq in Ec. rewrite Hlen by lia.
  destruct (maxChannels ctx <? numChannels)%nat eqn:Em.
  { apply Nat.ltb_lt in Em. cbn. split; [reflexivity|]. right. by left. }
  apply Nat.ltb_ge in Em.
  destruct (frameCount =? 0)%nat eqn:Ef.
  { apply Nat.eqb_eq in Ef. cbn. split; [reflexivity|]. right. right. by left. }
  apply Nat.eqb_neq in Ef.
  destruct (rateSupported ctx rate) eqn:Er.
  2:{ cbn. split; [reflexivity|]. by repeat right. }
  cbn [orb negb]. rewrite bind_Ok.
  match goal with
  | |- context [foldl ?f ?b ?l] =>
      destruct (fillStep_loop (int16Elements data) numChannels
                  (iterations (divLengths n numChannels)) l b)
        as (H1 & H2 & H3 & H4)
  end.
  cbn [numberOfChannels frames sampleRate channels] in *.
  rewrite H1, H2, H4.
  split; [exact Heven|]. split; [lia|]. split; [reflexivity|].
  split; [reflexivity|]. split; [exact Ef|]. split; [reflexivity|]. split.
  - by rewrite updateLoop_length, repeat_length.
  - apply updateLoop_Forall.
    + intros i channelData Hl. unfold fillChannel. by rewrite updateLoop_length.
    + apply Forall_repeat. apply repeat_length.
Qed.

End WavFacts.

(* ================================================================== *)
(** * Further properties of the application state *)
(* ================================================================== *)

Module Preservation.

(** A property that the handlers, the continuations and the effects keep
    holds in every state the event loop reaches. *)
Section Reachable.
Context (P : App → Prop).
Hypothesis P_initial : ∀ key, P (initialState key).
Hypothesis P_handleGenerateCourse : ∀ s, P s → P (handleGenerateCourse s).
Hypothesis P_handleSetLectureToPlay :
  ∀ lecture index s, P s → P (handleSetLectureToPlay lecture index s).
Hypothesis P_stopPlayback : ∀ clearPlayer s, P s → P (stopPlayback clearPlayer s).
Hypothesis P_handleRetryAudioGeneration : ∀ s, P s → P (handleRetryAudioGeneration s).
Hypothesis P_handleSeek : ∀ newProgress s, P s → P (handleSeek newProgress s).
Hypothesis P_handleVolumeChange : ∀ newVolume s, P s → P (handleVolumeChange newVolume s).
Hypothesis P_handleUpdateLecture :
  ∀ index updated s, P s → P (handleUpdateLecture index updated s).
Hypothesis P_handleDownload : ∀ lecture index s, P s → P (handleDownload lecture index s).
Hypothesis P_handleGenerateVideo :
  ∀ lecture index force closure s,
    P s → P (handleGenerateVideo lecture index force closure s).
Hypothesis P_handleSelectApiKey : ∀ s, P s → P (handleSelectApiKey s).
Hypothesis P_closeApiKeyModal : ∀ s, P s → P (closeApiKeyModal s).
Hypothesis P_resume :
  ∀ request p r s, P s → P (resume p r (set_inflight (delete request) s)).
Hypothesis P_pollTick : ∀ id s, P s → P (pollTick id s).
Hypothesis P_finish : ∀ n s, P s → P (set_nodes (alter finishNode n) s).
Hypothesis P_dispatchEnded : ∀ n s, P s → P (dispatchEnded n s).
Hypothesis P_updateProgress : ∀ s, P s → P (updateProgress s).
Hypothesis P_clock : ∀ f s, P s → P (set_contextTime f s).
Hypothesis P_initializeAudio : ∀ s, P s → P (initializeAudio s).
Hypothesis P_autoAdvanceEffect : ∀ s, P s → P (autoAdvanceEffect s).
Hypothesis P_populateEffect : ∀ s, P s → P (populateEffect s).

Lemma kept_by_handle (ev : Event) (s : App) : P s → P (handle ev s).
Proof.
  intros HP. destruct ev; cbn [handle]; unfold settle; repeat case_match; auto.
Qed.

Lemma kept_by_step (s : App) (ev : Event) : P s → P (step s ev).
Proof.
  intros HP. unfold step, runEffects.
  apply P_populateEffect, P_autoAdvanceEffect.
  destruct (isClick ev); [apply P_initializeAudio|]; by apply kept_by_handle.
Qed.

Lemma kept_when_reachable (s : App) : reachable s → P s.
Proof.
  intros (key & evs & ->). unfold run.
  induction evs as [|ev evs IH] using rev_ind; [apply P_initial|].
  rewrite foldl_app. cbn [foldl]. by apply kept_by_step.
Qed.

End Reachable.

End Preservation.

Module CacheFacts.
Import EngineSpec EngineFacts StateSpec.

(** *** Updates of the three maps *)

Lemma CachesOk_state states data buffers (i : nat) (st : AudioState.t) :
  st ≠ AudioState.loaded →
  CachesOk states data buffers → CachesOk (<[i := st]> states) data buffers.
Proof.
  intros Hst [Hl Hb]. split; [|exact Hb]. intros j Hj.
  destruct (decide (j = i)) as [->|Hne].
  - rewrite lookup_insert_eq in Hj. congruence.
  - rewrite lookup_insert_ne in Hj by done. by apply Hl.
Qed.

Lemma CachesOk_store states data buffers (i : nat) (base64Audio : string)
    (st : AudioState.t) :
  CachesOk states data buffers →
  CachesOk (<[i := st]> states) (<[i := base64Audio]> data) buffers
  ∧ CachesOk (<[i := st]> states) (<[i := base64Audio]> data) (delete i buffers).
Proof.
  intros [Hl Hb].
  assert (Hd : ∀ j, is_Some (data !! j) ∨ j = i →
                    is_Some (<[i := base64Audio]> data !! j)).
  { intros j Hj. destruct (decide (j = i)) as [->|Hne].
    - rewrite lookup_insert_eq. by eexists.
    - rewrite lookup_insert_ne by done. by destruct Hj. }
  assert (Hs : ∀ j, <[i := st]> states !! j = Some AudioState.loaded →
                    is_Some (data !! j) ∨ j = i).
  { intros j Hj. destruct (decide (j = i)) as [->|Hne]; [by right|].
    rewrite lookup_insert_ne in Hj by done. left. by apply Hl. }
  split; (split; [intros j Hj; by apply Hd, Hs|]).
  - intros j Hj. apply Hd. left. by apply Hb.
  - intros j Hj. apply Hd. left. apply Hb.
    destruct (decide (j = i)) as [->|Hne].
    + rewrite lookup_delete_eq in Hj. by destruct Hj.
    + by rewrite lookup_delete_ne in Hj.
Qed.

Lemma CachesOk_buffer states data buffers (i : nat) (b : Codec.AudioBuffer) :
  is_Some (data !! i) →
  CachesOk states data buffers → CachesOk states data (<[i := b]> buffers).
Proof.
  intros Hi [Hl Hb]. split; [exact Hl|]. intros j Hj.
  destruct (decide (j = i)) as [->|Hne]; [exact Hi|].
  rewrite lookup_insert_ne in Hj by done. by apply Hb.
Qed.

Lemma CachesOk_invalidate states data buffers (i : nat) (st : AudioState.t) :
  st ≠ AudioState.loaded →
  CachesOk states data buffers →
  CachesOk (<[i := st]> states) (delete i data) (delete i buffers).
Proof.
  intros Hst [Hl Hb]. split; intros j Hj.
  - destruct (decide (j = i)) as [->|Hne].
    + rewrite lookup_insert_eq in Hj. congruence.
    + rewrite lookup_insert_ne in Hj by done. rewrite lookup_delete_ne by done.
      by apply Hl.
  - destruct (decide (j = i)) as [->|Hne].
    + rewrite lookup_delete_eq in Hj. by destruct Hj.
    + rewrite lookup_delete_ne in Hj by done. rewrite lookup_delete_ne by done.
      by apply Hb.
Qed.

Lemma initialUiState_lookup (n i : nat) (st : AudioState.t) :
  foldl (λ (initialUiState : gmap nat AudioState.t) (index : nat),
           <[index := AudioState.content_loading]> initialUiState) ∅ (seq 0 n) !! i
  = Some st → st = AudioState.content_loading.
Proof.
  assert (H : ∀ (ks : list nat) (m : gmap nat AudioState.t),
            (∀ j x, m !! j = Some x → x = AudioState.content_loading) →
            ∀ j x, foldl (λ (m : gmap nat AudioState.t) (index : nat),
                            <[index := AudioState.content_loading]> m) m ks !! j
                   = Some x → x = AudioState.content_loading).
  { induction ks as [|k ks IH]; intros m Hm j x; simpl; [apply Hm|].
    apply IH. intros j' x' Hj'.
    destruct (decide (j' = k)) as [->|Hne].
    - rewrite lookup_insert_eq in Hj'. congruence.
    - rewrite lookup_insert_ne in Hj' by done. by eapply Hm. }
  apply H. intros j x Hj. by rewrite lookup_empty in Hj.
Qed.

(** *** Handlers that leave the caches alone *)

Lemma CacheInv_same (s s' : App) : caches s' = caches s → CacheInv s → CacheInv s'.
Proof. unfold CacheInv. by intros ->. Qed.

Ltac same_caches :=
  intros; repeat first [reflexivity | case_match | progress cbn].

Lemma stopPlayback_caches (clearPlayer : bool) (s : App) :
  caches (stopPlayback clearPlayer s) = caches s.
Proof. unfold stopPlayback. same_caches. Qed.

Lemma startPlayback_caches (b : Codec.AudioBuffer) (index : nat) (offset : Q) (s : App) :
  caches (startPlayback b index offset s) = caches s.
Proof.
  destruct (audioContextRef (engine s)) as [ctx|] eqn:Hctx.
  - rewrite startPlayback_eq by (by eexists). reflexivity.
  - by rewrite startPlayback_no_context.
Qed.

Lemma sends_caches (c : Course.t) (run : nat) (tasks : list (nat * Lecture.t)) :
  ∀ s : App,
    caches (foldl (λ (s : App) '(index, lecture),
                     send (GenerateLectureDetails (Course.courseTitle c)
                             (Lecture.title lecture) (Lecture.goals lecture))
                          (AwaitDetails run index lecture) s) s tasks)
    = caches s.
Proof.
  induction tasks as [|[index lecture] tasks IH]; intros s; simpl; [reflexivity|].
  by rewrite IH.
Qed.

Lemma populateEffect_caches (s : App) : caches (populateEffect s) = caches s.
Proof.
  unfold populateEffect, populateAllLectures. repeat case_match; try reflexivity.
  by rewrite sends_caches.
Qed.

Lemma taskSettled_caches (run : nat) (s : App) : caches (taskSettled run s) = caches s.
Proof. unfold taskSettled. same_caches. Qed.

Lemma downloadResolved_caches (lecture : Lecture.t) (audioData : option string)
    (s : App) :
  caches (downloadResolved lecture audioData s) = caches s.
Proof.
  unfold downloadResolved, downloadWav.
  destruct (truthy audioData); [|reflexivity].
  by destruct (Codec.createWavBlob _).
Qed.

Lemma pollFailed_caches (index : nat) (closure : option Course.t) (m : string)
    (s : App) :
  caches (pollFailed index closure m s) = caches s.
Proof. unfold pollFailed, clearInterval, handleGenerateVideo. same_caches. Qed.

Lemma resumePollStatus_caches (index : nat) (closure : option Course.t)
    (r : result Operation.t) (s : App) :
  caches (resumePollStatus index closure r s) = caches s.
Proof.
  unfold resumePollStatus. destruct r as [op|e]; [|apply pollFailed_caches].
  destruct (Operation.done op); [|reflexivity].
  assert (H : caches (s |> clearInterval (pollingIntervals (video s) !! index)
                        |> set_pollingIntervals (delete index)) = caches s)
    by (by destruct (pollingIntervals (video s) !! index)).
  revert H.
  generalize (s |> clearInterval (pollingIntervals (video s) !! index)
                |> set_pollingIntervals (delete index)).
  intros s1 H. repeat case_match; rewrite ?pollFailed_caches; exact H.
Qed.

Lemma clearAll_caches (ids : list nat) (s : App) :
  caches (foldr (λ id s, clearInterval (Some id) s) s ids) = caches s.
Proof. induction ids as [|id ids IH]; simpl; [reflexivity|exact IH]. Qed.

(** *** Handlers that write to the caches *)

Lemma CacheInv_playResolved (index : nat) (audioData : option string) (s : App) :
  CacheInv s → CacheInv (playResolved index audioData s).
Proof.
  intros HI. unfold playResolved. destruct (negb (truthy audioData)); [exact HI|].
  destruct (playAudioFromCache index s) as [s'|e] eqn:E; [|exact HI].
  apply playAudioFromCache_Ok in E as (b & s0 & -> & Hs0).
  eapply CacheInv_same; [apply startPlayback_caches|].
  destruct Hs0 as [[_ ->]|(_ & base64Audio & _ & _ & Hd & _ & _ & _ & _ & ->)];
    [exact HI|].
  unfold CacheInv. cbn. apply CachesOk_buffer; [by rewrite Hd|exact HI].
Qed.

Lemma CacheInv_generateSingleAudio (lecture : Lecture.t) (index : nat) (k : AfterAudio)
    (s : App) :
  CacheInv s → CacheInv (generateSingleAudio lecture index k s).
Proof. intros HI. unfold CacheInv. cbn. by apply CachesOk_state. Qed.

Lemma CacheInv_afterAudio (k : AfterAudio) (lecture : Lecture.t) (index : nat)
    (audioData : option string) (s : App) :
  CacheInv s → CacheInv (afterAudio k lecture index audioData s).
Proof.
  intros HI. destruct k; cbn [afterAudio]; [exact HI| |].
  - by apply CacheInv_playResolved.
  - eapply CacheInv_same; [apply downloadResolved_caches|exact HI].
Qed.

Lemma CacheInv_resumeSingleAudio (lecture : Lecture.t) (index : nat) (k : AfterAudio)
    (r : result string) (s : App) :
  CacheInv s → CacheInv (resumeSingleAudio lecture index k r s).
Proof.
  intros HI. unfold resumeSingleAudio. destruct r as [base64Audio|e];
    apply CacheInv_afterAudio; unfold CacheInv; cbn.
  - by apply CachesOk_store.
  - by apply CachesOk_state.
Qed.

Lemma CacheInv_handleSetLectureToPlay (lecture : Lecture.t) (index : nat) (s : App) :
  CacheInv s → CacheInv (handleSetLectureToPlay lecture index s).
Proof.
  intros HI. unfold handleSetLectureToPlay.
  repeat case_match; try exact HI.
  - eapply CacheInv_same; [|exact HI].
    rewrite stopPlayback_caches. reflexivity.
  - eapply CacheInv_same; [apply stopPlayback_caches|exact HI].
  - eapply CacheInv_same; [apply startPlayback_caches|exact HI].
  - apply CacheInv_generateSingleAudio.
    eapply CacheInv_same; [|exact HI].
    transitivity (caches (stopPlayback true s)); [reflexivity|].
    apply stopPlayback_caches.
  - apply CacheInv_playResolved.
    eapply CacheInv_same; [|exact HI].
    transitivity (caches (stopPlayback true s)); [reflexivity|].
    apply stopPlayback_caches.
Qed.

Lemma CacheInv_handleUpdateLecture (index : nat) (updated : Lecture.t) (s : App) :
  CacheInv s → CacheInv (handleUpdateLecture index updated s).
Proof.
  intros HI. unfold handleUpdateLecture. repeat case_match; try exact HI.
  unfold CacheInv. cbn. by apply CachesOk_invalidate.
Qed.

Lemma CacheInv_resume (request : nat) (p : Pending) (r : Response) (s : App) :
  CacheInv s → CacheInv (resume p r (set_inflight (delete request) s)).
Proof.
  intros HI.
  assert (HI' : CacheInv (set_inflight (delete request) s)) by exact HI.
  generalize dependent (set_inflight (delete request) s). clear HI. intros s' HI.
  destruct p, r; cbn [resume]; try exact HI.
  - unfold resumeOutline. destruct r as [c|e]; [|exact HI].
    unfold CacheInv. cbn. destruct HI as [_ Hb]. split; [|exact Hb].
    intros i Hi. apply initialUiState_lookup in Hi. discriminate.
  - unfold resumeDetails. destruct r as [details|e].
    + unfold CacheInv. destruct (course s'); cbn; by apply CachesOk_state.
    + unfold taskFailed. eapply CacheInv_same; [apply taskSettled_caches|].
      unfold CacheInv. cbn. by apply CachesOk_state.
  - unfold resumePipelineAudio. destruct r as [base64Audio|e].
    + eapply CacheInv_same; [apply taskSettled_caches|].
      unfold CacheInv. cbn. by apply CachesOk_store.
    + unfold taskFailed. eapply CacheInv_same; [apply taskSettled_caches|].
      unfold CacheInv. cbn. by apply CachesOk_state.
  - by apply CacheInv_resumeSingleAudio.
  - eapply CacheInv_same; [|exact HI].
    unfold resumeHasKey, generationLogic. same_caches.
  - eapply CacheInv_same; [|exact HI].
    unfold resumeSelectKey, runPendingAction, generationLogic, handleGenerateVideo.
    same_caches.
  - eapply CacheInv_same; [|exact HI].
    unfold resumeStartVideo, pollForVideo, clearInterval. same_caches.
  - eapply CacheInv_same; [apply resumePollStatus_caches|exact HI].
Qed.

Lemma reachable_caches (s : App) : reachable s → CacheInv s.
Proof.
  apply Preservation.kept_when_reachable.
  - intros key. split; intros i Hi; cbn in Hi; rewrite lookup_empty in Hi;
      [discriminate|by destruct Hi].
  - intros s0 _. unfold handleGenerateCourse, CacheInv. cbn.
    split; intros i Hi; rewrite lookup_empty in Hi; [discriminate|by destruct Hi].
  - intros. by apply CacheInv_handleSetLectureToPlay.
  - intros clearPlayer s0. apply CacheInv_same, stopPlayback_caches.
  - intros s0 HI. unfold handleRetryAudioGeneration. repeat case_match; [|exact HI].
    by apply CacheInv_generateSingleAudio.
  - intros newProgress s0. apply CacheInv_same. unfold handleSeek.
    repeat case_match; try reflexivity. by rewrite startPlayback_caches.
  - intros newVolume s0. by apply CacheInv_same.
  - intros. by apply CacheInv_handleUpdateLecture.
  - intros lecture index s0 HI. unfold handleDownload. case_match.
    + by apply CacheInv_generateSingleAudio.
    + eapply CacheInv_same; [apply downloadResolved_caches|exact HI].
  - intros lecture index force closure s0. by apply CacheInv_same.
  - intros s0. by apply CacheInv_same.
  - intros s0. by apply CacheInv_same.
  - intros. by apply CacheInv_resume.
  - intros id s0. apply CacheInv_same. unfold pollTick. same_caches.
  - intros n s0. by apply CacheInv_same.
  - intros n s0. apply CacheInv_same. unfold dispatchEnded, onendedHandler. same_caches.
  - intros s0. apply CacheInv_same. unfold updateProgress. same_caches.
  - intros f s0. by apply CacheInv_same.
  - intros s0. apply CacheInv_same. unfold initializeAudio. same_caches.
  - intros s0 HI. unfold autoAdvanceEffect. repeat case_match; try exact HI.
    + by apply CacheInv_handleSetLectureToPlay.
    + eapply CacheInv_same; [|exact HI].
      transitivity (caches (stopPlayback true s0)); [reflexivity|].
      apply stopPlayback_caches.
  - intros s0. apply CacheInv_same, populateEffect_caches.
Qed.

(** X7. In every state the application reaches, a lecture that is marked
    [loaded], or that has a decoded buffer, has an entry in the byte cache. *)
Theorem loaded_lecture_has_bytes (s : App) (i : nat) :
  reachable s →
  lectureUiState (caches s) !! i = Some AudioState.loaded
  ∨ is_Some (audioBufferCache (caches s) !! i) →
  is_Some (audioDataCache (caches s) !! i).
Proof.
  intros Hr H. destruct (reachable_caches s Hr) as [Hl Hb].
  destruct H as [H|H]; [by apply Hl|by apply Hb].
Qed.

(** Lecture 0 of the generated sample course. *)
Lemma loaded_lecture_has_bytes_witness :
  is_Some (audioDataCache (caches (run (initialState "key") Sample.generated)) !! 0%nat).
Proof.
  apply loaded_lecture_has_bytes.
  - by eexists _, _.
  - left. vm_compute. reflexivity.
Defined.

End CacheFacts.

Module ToastFacts.
Import EngineSpec EngineFacts StateSpec.

Lemma ToastInv_same (s s' : App) : sameToasts s s' → ToastInv s → ToastInv s'.
Proof. unfold ToastInv, sameToasts. by intros [-> ->]. Qed.

Lemma sameToasts_refl (s : App) : sameToasts s s.
Proof. by split. Qed.

Lemma sameToasts_trans (s1 s2 s3 : App) :
  sameToasts s1 s2 → sameToasts s2 s3 → sameToasts s1 s3.
Proof. unfold sameToasts. intros [? ?] [? ?]. split; congruence. Qed.

Lemma ToastInv_addToast (message : string) (type : Toast.kind) (s : App) :
  ToastInv s → ToastInv (addToast message type s).
Proof.
  intros [Hn Hb]. unfold ToastInv, ToastsOk, addToast. cbn. split.
  - rewrite fmap_app. apply NoDup_app. split; [exact Hn|]. split.
    + intros x Hx Hin. cbn in Hin. apply list_elem_of_singleton in Hin. subst x.
      apply list_elem_of_fmap in Hx as (t & Ht & Hin).
      rewrite Forall_forall in Hb. specialize (Hb t Hin). lia.
    + cbn. apply NoDup_singleton.
  - apply Forall_app. split.
    + eapply Forall_impl; [exact Hb|]. cbn. intros t Ht. lia.
    + repeat constructor.
Qed.

Lemma ToastInv_removeToast (id : nat) (s : App) :
  ToastInv s → ToastInv (removeToast id s).
Proof.
  intros [Hn Hb]. unfold ToastInv, ToastsOk, removeToast. cbn. split.
  - eapply sublist_NoDup; [exact Hn|]. apply fmap_sublist, sublist_filter.
  - rewrite Forall_forall in Hb. apply Forall_forall. intros t Ht.
    apply list_elem_of_filter in Ht as [_ Ht]. by apply Hb.
Qed.

Ltac same_toasts :=
  intros; repeat first [by split | case_match | progress cbn].

Lemma sameToasts_stopPlayback (clearPlayer : bool) (s : App) :
  sameToasts s (stopPlayback clearPlayer s).
Proof.
  destruct clearPlayer; [rewrite stopPlayback_true_eq|rewrite stopPlayback_false_eq];
    by split.
Qed.

Lemma sameToasts_startPlayback (b : Codec.AudioBuffer) (index : nat) (offset : Q)
    (s : App) :
  sameToasts s (startPlayback b index offset s).
Proof.
  destruct (audioContextRef (engine s)) as [ctx|] eqn:Hctx.
  - rewrite startPlayback_eq by (by eexists). by split.
  - rewrite startPlayback_no_context by done. apply sameToasts_refl.
Qed.

Lemma sameToasts_playResolved (index : nat) (audioData : option string) (s : App) :
  sameToasts s (playResolved index audioData s).
Proof.
  unfold playResolved. destruct (negb (truthy audioData)); [by split|].
  destruct (playAudioFromCache index s) as [s'|e] eqn:E; [|by split].
  apply playAudioFromCache_Ok in E as (b & s0 & -> & Hs0).
  eapply sameToasts_trans; [|apply sameToasts_startPlayback].
  destruct Hs0 as [[_ ->]|(_ & _ & _ & _ & _ & _ & _ & _ & _ & ->)]; by split.
Qed.

Lemma ToastInv_downloadResolved (lecture : Lecture.t) (audioData : option string)
    (s : App) :
  ToastInv s → ToastInv (downloadResolved lecture audioData s).
Proof.
  intros HI. unfold downloadResolved, downloadWav.
  destruct (truthy audioData); [|exact HI].
  destruct (Codec.createWavBlob _); cbn; [exact HI|].
  by apply ToastInv_addToast.
Qed.

Lemma ToastInv_afterAudio (k : AfterAudio) (lecture : Lecture.t) (index : nat)
    (audioData : option string) (s : App) :
  ToastInv s → ToastInv (afterAudio k lecture index audioData s).
Proof.
  intros HI. destruct k; cbn [afterAudio]; [exact HI| |].
  - eapply ToastInv_same; [apply sameToasts_playResolved|exact HI].
  - by apply ToastInv_downloadResolved.
Qed.

Lemma ToastInv_resumeSingleAudio (lecture : Lecture.t) (index : nat) (k : AfterAudio)
    (r : result string) (s : App) :
  ToastInv s → ToastInv (resumeSingleAudio lecture index k r s).
Proof.
  intros HI. unfold resumeSingleAudio. destruct r as [base64Audio|e];
    apply ToastInv_afterAudio; [exact HI|].
  by apply ToastInv_addToast.
Qed.

Lemma sameToasts_handleSetLectureToPlay (lecture : Lecture.t) (index : nat) (s : App) :
  sameToasts s (handleSetLectureToPlay lecture index s).
Proof.
  unfold handleSetLectureToPlay.
  repeat case_match; try apply sameToasts_refl.
  - eapply sameToasts_trans; [|apply sameToasts_stopPlayback]. by split.
  - apply sameToasts_stopPlayback.
  - apply sameToasts_startPlayback.
  - eapply sameToasts_trans; [apply (sameToasts_stopPlayback true)|]. by split.
  - eapply sameToasts_trans; [|apply sameToasts_playResolved].
    eapply sameToasts_trans; [apply (sameToasts_stopPlayback true)|]. by split.
Qed.

Lemma ToastInv_taskSettled (run : nat) (s : App) :
  ToastInv s → ToastInv (taskSettled run s).
Proof.
  intros HI. unfold taskSettled. repeat case_match; try exact HI.
  all: by apply ToastInv_addToast.
Qed.

Lemma ToastInv_taskFailed (run index : nat) (lecture : Lecture.t) (s : App) :
  ToastInv s → ToastInv (taskFailed run index lecture s).
Proof.
  intros HI. unfold taskFailed. apply ToastInv_taskSettled.
  by apply ToastInv_addToast.
Qed.

Lemma sameToasts_sends (c : Course.t) (run : nat) (tasks : list (nat * Lecture.t)) :
  ∀ s : App,
    sameToasts s
      (foldl (λ (s : App) '(index, lecture),
                send (GenerateLectureDetails (Course.courseTitle c)
                        (Lecture.title lecture) (Lecture.goals lecture))
                     (AwaitDetails run index lecture) s) s tasks).
Proof.
  induction tasks as [|[index lecture] tasks IH]; intros s; simpl.
  - apply sameToasts_refl.
  - eapply sameToasts_trans; [|apply IH]. by split.
Qed.

Lemma sameToasts_pollFailed (index : nat) (closure : option Course.t) (m : string)
    (s : App) :
  sameToasts s (pollFailed index closure m s).
Proof. unfold pollFailed, clearInterval, handleGenerateVideo. same_toasts. Qed.

Lemma sameToasts_resumePollStatus (index : nat) (closure : option Course.t)
    (r : result Operation.t) (s : App) :
  sameToasts s (resumePollStatus index closure r s).
Proof.
  unfold resumePollStatus. destruct r as [op|e]; [|apply sameToasts_pollFailed].
  destruct (Operation.done op); [|apply sameToasts_refl].
  assert (H : sameToasts s (s |> clearInterval (pollingIntervals (video s) !! index)
                              |> set_pollingIntervals (delete index)))
    by (by destruct (pollingIntervals (video s) !! index)).
  revert H.
  generalize (s |> clearInterval (pollingIntervals (video s) !! index)
                |> set_pollingIntervals (delete index)).
  intros s1 H. repeat case_match;
    first [ exact H
          | eapply sameToasts_trans; [exact H|apply sameToasts_pollFailed] ].
Qed.

Lemma sameToasts_clearAll (ids : list nat) (s : App) :
  sameToasts s (foldr (λ id s, clearInterval (Some id) s) s ids).
Proof. induction ids as [|id ids IH]; simpl; [apply sameToasts_refl|exact IH]. Qed.

Lemma ToastInv_resume (request : nat) (p : Pending) (r : Response) (s : App) :
  ToastInv s → ToastInv (resume p r (set_inflight (delete request) s)).
Proof.
  intros HI.
  assert (HI' : ToastInv (set_inflight (delete request) s)) by exact HI.
  generalize dependent (set_inflight (delete request) s). clear HI. intros s' HI.
  destruct p, r; cbn [resume]; try exact HI.
  - unfold resumeOutline. destruct r as [c|e]; [exact HI|].
    by apply (ToastInv_addToast (exnMessage e) Toast.error) in HI.
  - unfold resumeDetails. destruct r as [details|e].
    + destruct (course s'); exact HI.
    + by apply ToastInv_taskFailed.
  - unfold resumePipelineAudio. destruct r as [base64Audio|e].
    + by apply ToastInv_taskSettled.
    + by apply ToastInv_taskFailed.
  - by apply ToastInv_resumeSingleAudio.
  - eapply ToastInv_same; [|exact HI].
    unfold resumeHasKey, generationLogic. same_toasts.
  - eapply ToastInv_same; [|exact HI].
    unfold resumeSelectKey, runPendingAction, generationLogic, handleGenerateVideo.
    same_toasts.
  - eapply ToastInv_same; [|exact HI].
    unfold resumeStartVideo, pollForVideo, clearInterval. same_toasts.
  - eapply ToastInv_same; [apply sameToasts_resumePollStatus|exact HI].
Qed.

Lemma ToastInv_step (s : App) (ev : Event) : ToastInv s → ToastInv (step s ev).
Proof.
  apply Preservation.kept_by_step; clear s ev.
  - intros s HI. unfold handleGenerateCourse.
    eapply ToastInv_same; [|exact HI].
    eapply sameToasts_trans; [apply (sameToasts_stopPlayback true)|].
    eapply sameToasts_trans; [apply sameToasts_clearAll|]. by split.
  - intros lecture index s. apply ToastInv_same, sameToasts_handleSetLectureToPlay.
  - intros clearPlayer s. apply ToastInv_same, sameToasts_stopPlayback.
  - intros s. apply ToastInv_same. unfold handleRetryAudioGeneration. same_toasts.
  - intros newProgress s. apply ToastInv_same. unfold handleSeek.
    repeat case_match; try by split.
    eapply sameToasts_trans; [|apply sameToasts_startPlayback]. by split.
  - intros newVolume s. by apply ToastInv_same.
  - intros index updated s. apply ToastInv_same. unfold handleUpdateLecture.
    same_toasts.
  - intros lecture index s HI. unfold handleDownload. case_match; [exact HI|].
    by apply ToastInv_downloadResolved.
  - intros lecture index force closure s. by apply ToastInv_same.
  - intros s. by apply ToastInv_same.
  - intros s. by apply ToastInv_same.
  - intros. by apply ToastInv_resume.
  - intros id s. apply ToastInv_same. unfold pollTick. same_toasts.
  - intros n s. by apply ToastInv_same.
  - intros n s. apply ToastInv_same. unfold dispatchEnded, onendedHandler. same_toasts.
  - intros s. apply ToastInv_same. unfold updateProgress. same_toasts.
  - intros f s. by apply ToastInv_same.
  - intros s. apply ToastInv_same. unfold initializeAudio. same_toasts.
  - intros s. apply ToastInv_same. unfold autoAdvanceEffect.
    repeat case_match; try by split.
    + eapply sameToasts_trans; [apply sameToasts_handleSetLectureToPlay|]. by split.
    + eapply sameToasts_trans; [apply (sameToasts_stopPlayback true)|]. by split.
  - intros s. apply ToastInv_same. unfold populateEffect, populateAllLectures.
    repeat case_match; try by split.
    eapply sameToasts_trans; [|apply sameToasts_sends]. by split.
Qed.

Lemma reachable_toasts (s : App) : reachableWithDismissals s → ToastInv s.
Proof.
  intros (key & turns & ->).
  induction turns as [|t turns IH] using rev_ind.
  - split; [constructor|constructor].
  - rewrite foldl_app. cbn [foldl]. destruct t as [ev|id]; cbn [turn].
    + by apply ToastInv_step.
    + by apply ToastInv_removeToast.
Qed.

Lemma filter_other_ids (id : nat) (ts : list Toast.t) :
  id ∉ Toast.id <$> ts → filter (λ t, Toast.id t ≠ id) ts = ts.
Proof.
  induction ts as [|t ts IH]; intros Hid; [reflexivity|].
  rewrite fmap_cons, not_elem_of_cons in Hid. destruct Hid as [Hne Hid].
  rewrite filter_cons_True by (intros Heq; by apply Hne). by rewrite IH.
Qed.

Lemma removes_at_most_one (id : nat) (ts : list Toast.t) :
  NoDup (Toast.id <$> ts) →
  (length ts ≤ S (length (filter (λ t, Toast.id t ≠ id) ts)))%nat.
Proof.
  induction ts as [|t ts IH]; intros Hn; [cbn; lia|].
  rewrite fmap_cons in Hn. apply NoDup_cons in Hn as [Hnotin Hn].
  destruct (decide (Toast.id t = id)) as [Heq|Hne].
  - rewrite filter_cons_False by (intros H; by apply H).
    rewrite filter_other_ids by (by rewrite <- Heq). cbn. lia.
  - rewrite filter_cons_True by done. cbn. specialize (IH Hn). lia.
Qed.

(** X8. In every state the application reaches, with toasts dismissed at any
    time, the toasts on screen have pairwise distinct identifiers, all below
    the counter.  So [removeToast] removes the toast with the given
    identifier and no other: the toasts that stay are those with another
    identifier, and at most one toast goes. *)
Theorem toast_ids_unique (s : App) :
  reachableWithDismissals s →
  NoDup (Toast.id <$> toasts s)
  ∧ Forall (λ t, (Toast.id t < toastIdCounter s)%nat) (toasts s)
  ∧ ∀ id : nat,
      (∀ t, t ∈ toasts (removeToast id s) ↔ t ∈ toasts s ∧ Toast.id t ≠ id)
      ∧ (length (toasts s) ≤ S (length (toasts (removeToast id s))))%nat.
Proof.
  intros Hr. destruct (reachable_toasts s Hr) as [Hn Hb].
  split; [exact Hn|]. split; [exact Hb|]. intros id. split.
  - intros t. unfold removeToast. cbn. rewrite list_elem_of_filter. tauto.
  - unfold removeToast. cbn. by apply removes_at_most_one.
Qed.

(** Two failed course generations leave two toasts; the first is dismissed. *)
Lemma toast_ids_unique_witness :
  let s := foldl turn (initialState "key")
             [ Loop ClickGenerateCourse;
               Loop (Settle 0 (OutlineResponse (Throw (Error "no outline"))));
               Loop ClickGenerateCourse;
               Loop (Settle 1 (OutlineResponse (Throw (Error "no outline")))) ] in
  Toast.id <$> toasts s = [0%nat; 1%nat]
  ∧ NoDup (Toast.id <$> toasts s)
  ∧ Toast.id <$> toasts (removeToast 0 s) = [1%nat].
Proof.
  intros s. split; [vm_compute; reflexivity|]. split.
  - apply toast_ids_unique. by eexists _, _.
  - vm_compute. reflexivity.
Defined.

End ToastFacts.

Module TimerFacts.
Import EngineSpec EngineFacts VideoSpec VideoFacts StateSpec.

Lemma RegisteredOk_same (s s' : App) :
  sameTimers s s' → RegisteredOk s → RegisteredOk s'.
Proof. unfold RegisteredOk, sameTimers. by intros (-> & _ & ->). Qed.

Lemma RegisteredOk_cancel (index : nat) (s : App) :
  TimersInv s → RegisteredOk s →
  RegisteredOk (s |> clearInterval (pollingIntervals (video s) !! index)
                  |> set_pollingIntervals (delete index)).
Proof.
  intros [_ HI] HR j id Hj.
  assert (Hold : pollingIntervals (video s) !! j = Some id ∧ j ≠ index).
  { destruct (pollingIntervals (video s) !! index); cbn in Hj;
      apply lookup_delete_Some in Hj as [? ?]; by split. }
  destruct Hold as [Hreg Hne]. destruct (HR j id Hreg) as (t & Ht & Hidx).
  exists t. split; [|exact Hidx].
  destruct (pollingIntervals (video s) !! index) as [id0|] eqn:E; cbn; [|exact Ht].
  rewrite lookup_delete_ne; [exact Ht|]. intros ->.
  destruct (HR index id E) as (t' & Ht' & Hidx'). congruence.
Qed.

Lemma RegisteredOk_pollForVideo (operation index : nat) (closure : option Course.t)
    (s : App) :
  TimersInv s → RegisteredOk s → RegisteredOk (pollForVideo operation index closure s).
Proof.
  intros [Hpos HI] HR. unfold pollForVideo.
  set (s1 := match pollingIntervals (video s) !! index with
             | Some 0%nat | None => s
             | Some id => clearInterval (Some id) s
             end).
  assert (Hn : nextTimer (platform s1) = nextTimer (platform s)).
  { unfold s1. by repeat case_match. }
  assert (Hp : pollingIntervals (video s1) = pollingIntervals (video s)).
  { unfold s1. by repeat case_match. }
  assert (Ht : ∀ j id, j ≠ index → pollingIntervals (video s) !! j = Some id →
                 ∃ t, timers (platform s1) !! id = Some t ∧ pollIndex t = j).
  { intros j id Hne Hj. destruct (HR j id Hj) as (t & Ht & Hidx).
    exists t. split; [|exact Hidx]. unfold s1.
    destruct (pollingIntervals (video s) !! index) as [[|id0]|] eqn:E;
      [exact Ht| |exact Ht].
    unfold clearInterval. cbn. rewrite lookup_delete_ne; [exact Ht|]. intros <-.
    destruct (HR index (S id0) E) as (t' & Ht' & Hidx'). congruence. }
  clearbody s1. intros j id Hj. cbn in Hj. rewrite Hp in Hj. cbn.
  destruct (decide (j = index)) as [->|Hne].
  - rewrite lookup_insert_eq in Hj. injection Hj as <-.
    eexists. split; [apply lookup_insert_eq|reflexivity].
  - rewrite lookup_insert_ne in Hj by done.
    destruct (Ht j id Hne Hj) as (t & Ht' & Hidx). exists t. split; [|exact Hidx].
    rewrite lookup_insert_ne; [exact Ht'|]. intros <-.
    destruct (HR j _ Hj) as (t0 & Ht0 & _). destruct (HI _ t0 Ht0) as [_ Hb].
    rewrite Hn in Hb. lia.
Qed.

Lemma RegisteredOk_pollFailed (index : nat) (closure : option Course.t) (m : string)
    (s : App) :
  TimersInv s → RegisteredOk s → RegisteredOk (pollFailed index closure m s).
Proof.
  intros HI HR. unfold pollFailed.
  pose proof (RegisteredOk_cancel index s HI HR) as H.
  repeat case_match; exact H.
Qed.

Lemma RegisteredOk_resumePollStatus (index : nat) (closure : option Course.t)
    (r : result Operation.t) (s : App) :
  TimersInv s → RegisteredOk s → RegisteredOk (resumePollStatus index closure r s).
Proof.
  intros HI HR. unfold resumePollStatus.
  destruct r as [op|e]; [|by apply RegisteredOk_pollFailed].
  destruct (Operation.done op); [|exact HR].
  pose proof (RegisteredOk_cancel index s HI HR) as H.
  pose proof (TimersInv_cancel index s HI) as HI'.
  revert H HI'.
  generalize (s |> clearInterval (pollingIntervals (video s) !! index)
                |> set_pollingIntervals (delete index)).
  intros s1 H HI'.
  repeat case_match; first [exact H | by apply RegisteredOk_pollFailed].
Qed.

Lemma registered_resume (p : Pending) (r : Response) (s : App) :
  TimersInv s → RegisteredOk s → RegisteredOk (resume p r s).
Proof.
  intros HI HR. destruct p, r; cbn [resume]; try exact HR.
  - revert HR. apply RegisteredOk_same, sameTimers_resumeOutline.
  - revert HR. apply RegisteredOk_same, sameTimers_resumeDetails.
  - revert HR. apply RegisteredOk_same, sameTimers_resumePipelineAudio.
  - revert HR. apply RegisteredOk_same, sameTimers_resumeSingleAudio.
  - revert HR. apply RegisteredOk_same, sameTimers_resumeHasKey.
  - revert HR. apply RegisteredOk_same, sameTimers_resumeSelectKey.
  - unfold resumeStartVideo. destruct r as [op|e].
    + by apply RegisteredOk_pollForVideo.
    + case_match; exact HR.
  - by apply RegisteredOk_resumePollStatus.
Qed.

Lemma reachable_registered (s : App) : reachable s → TimersInv s ∧ RegisteredOk s.
Proof.
  apply (Preservation.kept_when_reachable (λ s, TimersInv s ∧ RegisteredOk s)).
  - intros key. split.
    + split; [cbn; lia|]. intros id t Hid. cbn in Hid. by rewrite lookup_empty in Hid.
    + intros index id Hid. cbn in Hid. by rewrite lookup_empty in Hid.
  - intros s0 [HI HR]. split; [by apply TimersInv_handleGenerateCourse|].
    destruct (handleGenerateCourse_cleared s0 HI) as (s1 & -> & _ & Hp & _).
    intros index id Hid. cbn in Hid. rewrite Hp in Hid. by rewrite lookup_empty in Hid.
  - intros lecture index s0 [HI HR].
    pose proof (sameTimers_handleSetLectureToPlay lecture index s0) as H.
    split; [by eapply TimersInv_same|by eapply RegisteredOk_same].
  - intros clearPlayer s0 [HI HR].
    pose proof (sameTimers_stopPlayback clearPlayer s0) as H.
    split; [by eapply TimersInv_same|by eapply RegisteredOk_same].
  - intros s0 H. unfold handleRetryAudioGeneration. repeat case_match; exact H.
  - intros newProgress s0 [HI HR].
    pose proof (sameTimers_handleSeek newProgress s0) as H.
    split; [by eapply TimersInv_same|by eapply RegisteredOk_same].
  - intros newVolume s0 H. exact H.
  - intros index updated s0 [HI HR].
    pose proof (sameTimers_handleUpdateLecture index updated s0) as H.
    split; [by eapply TimersInv_same|by eapply RegisteredOk_same].
  - intros lecture index s0 [HI HR].
    pose proof (sameTimers_handleDownload lecture index s0) as H.
    split; [by eapply TimersInv_same|by eapply RegisteredOk_same].
  - intros lecture index force closure s0 H. exact H.
  - intros s0 H. exact H.
  - intros s0 H. exact H.
  - intros request p r s0 [HI HR].
    assert (HI' : TimersInv (set_inflight (delete request) s0)) by exact HI.
    assert (HR' : RegisteredOk (set_inflight (delete request) s0)) by exact HR.
    split; [by apply TimersInv_resume|by apply registered_resume].
  - intros id s0 H. unfold pollTick. repeat case_match; exact H.
  - intros n s0 H. exact H.
  - intros n s0 H. unfold dispatchEnded, onendedHandler. repeat case_match; exact H.
  - intros s0 H. unfold updateProgress. repeat case_match; exact H.
  - intros f s0 H. exact H.
  - intros s0 H. unfold initializeAudio. repeat case_match; exact H.
  - intros s0 [HI HR]. pose proof (sameTimers_autoAdvanceEffect s0) as H.
    split; [by eapply TimersInv_same|by eapply RegisteredOk_same].
  - intros s0 [HI HR]. pose proof (sameTimers_populateEffect s0) as H.
    split; [by eapply TimersInv_same|by eapply RegisteredOk_same].
Qed.

(** X9. In every state the application reaches, the active poll timers and the
    intervals registered in [pollingIntervals] correspond one to one: a
    timer is registered under the lecture index it polls for, and a
    registered interval is an active timer for that index.  So no lecture
    has two poll timers, and no timer runs unregistered. *)
Theorem poll_timers_registered (s : App) :
  reachable s →
  (∀ (id : nat) (t : PollTimer), timers (platform s) !! id = Some t →
     pollingIntervals (video s) !! pollIndex t = Some id)
  ∧ (∀ (index id : nat), pollingIntervals (video s) !! index = Some id →
       ∃ t : PollTimer, timers (platform s) !! id = Some t ∧ pollIndex t = index)
  ∧ (∀ (id1 id2 : nat) (t1 t2 : PollTimer),
       timers (platform s) !! id1 = Some t1 → timers (platform s) !! id2 = Some t2 →
       pollIndex t1 = pollIndex t2 → id1 = id2).
Proof.
  intros Hr. destruct (reachable_registered s Hr) as [[_ HI] HR].
  split; [intros id t Ht; by apply HI|]. split; [exact HR|].
  intros id1 id2 t1 t2 H1 H2 Heq.
  destruct (HI id1 t1 H1) as [Hr1 _]. destruct (HI id2 t2 H2) as [Hr2 _].
  rewrite Heq in Hr1. congruence.
Qed.

(** The video of lecture 0 of the sample course is requested twice in a row;
    one timer is left. *)
Lemma poll_timers_registered_witness :
  let s := run (initialState "key")
             (Sample.generated ++
              [ ClickGenerateVideo 0; Settle 5 (HasKeyResponse true);
                Settle 6 (StartVideoResponse (Ok 42%nat)) ]) in
  pollingIntervals (video s) !! 0%nat = Some 1%nat
  ∧ ∃ t : PollTimer, timers (platform s) !! 1%nat = Some t ∧ pollIndex t = 0%nat.
Proof.
  intros s. assert (Hr : reachable s) by (by eexists _, _).
  destruct (poll_timers_registered s Hr) as (_ & Hreg & _).
  assert (H : pollingIntervals (video s) !! 0%nat = Some 1%nat)
    by (vm_compute; reflexivity).
  split; [exact H|]. by apply Hreg.
Defined.

End TimerFacts.

(* ================================================================== *)
(** * Further properties of the handlers *)
(* ================================================================== *)

Module TurnFacts.
Import EngineSpec EngineFacts StateSpec.

(** *** The outline settles *)

Lemma sends_requests (c : Course.t) (run : nat) (tasks : list (nat * Lecture.t)) :
  ∀ s : App,
    requests (platform
      (foldl (λ (s : App) '(index, lecture),
                send (GenerateLectureDetails (Course.courseTitle c)
                        (Lecture.title lecture) (Lecture.goals lecture))
                     (AwaitDetails run index lecture) s) s tasks))
    = requests (platform s) ++ ((detailsRequest c ∘ snd) <$> tasks).
Proof.
  induction tasks as [|[index lecture] tasks IH]; intros s; simpl.
  - by rewrite app_nil_r.
  - rewrite IH. cbn. by rewrite <- app_assoc.
Qed.

Lemma imap_snd {A} (l : list A) :
  snd <$> imap (λ (index : nat) (x : A), (index, x)) l = l.
Proof.
  assert (H : ∀ (f : nat → nat), snd <$> imap (λ index x, (f index, x)) l = l).
  { induction l as [|x l IH]; intros f; [reflexivity|].
    cbn. f_equal. apply (IH (f ∘ S)). }
  apply (H id).
Qed.

Lemma populateAllLectures_requests (c : Course.t) (s : App) :
  let s' := populateAllLectures c s in
  requests (platform s') = requests (platform s) ++ (detailsRequest c <$> Course.lectures c)
  ∧ course s' = course s ∧ caches s' = caches s ∧ toasts s' = toasts s
  ∧ isOutlining s' = isOutlining s ∧ courseChanged s' = courseChanged s
  ∧ player s' = player s ∧ engine s' = engine s.
Proof.
  unfold populateAllLectures.
  match goal with
  | |- context [foldl ?f ?s0 ?tasks] =>
      destruct (populateAllLectures_sends c (nextRun (platform s)) tasks s0)
        as (H1 & H2 & H3 & H4 & _ & H6 & H7 & H8 & _);
      pose proof (sends_requests c (nextRun (platform s)) tasks s0) as Hrq
  end.
  cbv zeta. rewrite Hrq, H1, H2, H3, H4, H6, H7, H8.
  split; [|done]. cbn. f_equal. by rewrite list_fmap_compose, imap_snd.
Qed.

Lemma populateEffect_requests (s : App) (c : Course.t) :
  courseChanged s = true → course s = Some c →
  let s' := populateEffect s in
  requests (platform s')
  = requests (platform s)
    ++ (if startsPipeline c then detailsRequest c <$> Course.lectures c else [])
  ∧ course s' = Some c ∧ caches s' = caches s ∧ toasts s' = toasts s
  ∧ isOutlining s' = isOutlining s.
Proof.
  intros Hch Hc. unfold populateEffect, startsPipeline. rewrite Hch.
  set (s0 := set_courseChanged (λ _, false) s).
  assert (H0 : course s0 = Some c) by exact Hc. cbv zeta. rewrite H0.
  destruct (Course.lectures c) as [|first rest] eqn:El.
  { cbn. by rewrite app_nil_r. }
  destruct (negb (truthy (Lecture.script first))).
  2:{ cbn. by rewrite app_nil_r. }
  destruct (populateAllLectures_requests c s0) as (H1 & H2 & H3 & H4 & H5 & _).
  rewrite H1, H2, H3, H4, H5, El. done.
Qed.

Lemma initialUiState_spec (n i : nat) :
  foldl (λ (initialUiState : gmap nat AudioState.t) (index : nat),
           <[index := AudioState.content_loading]> initialUiState) ∅ (seq 0 n) !! i
  = if decide (i < n)%nat then Some AudioState.content_loading else None.
Proof.
  assert (H : ∀ (k start : nat) (m : gmap nat AudioState.t),
            foldl (λ (m : gmap nat AudioState.t) (index : nat),
                     <[index := AudioState.content_loading]> m) m (seq start k) !! i
            = if decide (start ≤ i < start + k)%nat
              then Some AudioState.content_loading else m !! i).
  { induction k as [|k IH]; intros start m; simpl.
    - case_decide; [lia|reflexivity].
    - rewrite IH. destruct (decide (i = start)) as [->|Hne].
      + rewrite lookup_insert_eq. repeat case_decide; try reflexivity; lia.
      + rewrite lookup_insert_ne by done. repeat case_decide; try reflexivity; lia. }
  rewrite H, lookup_empty. repeat case_decide; try reflexivity; lia.
Qed.

(** X10. When the outline request settles in a reachable state in which no
    ended lecture is waiting for the auto-advance ([lastPlayedIndex] is
    [null]):
    - with a course, the course is stored, every lecture is marked
      [content-loading], and the pipeline requests the details of every
      lecture, in lecture order, exactly when the course has a first lecture
      and that lecture has no script; otherwise it requests nothing;
    - with a failure, the course, the caches and the requests are as before
      and one error toast is shown; it carries the message of the [Error]
      that [generateCourseOutline] threw.
    Either way the outlining flag is cleared. *)
Theorem outline_settles (s : App) (request : nat) (r : result Course.t) :
  reachable s →
  inflight (platform s) !! request = Some AwaitOutline →
  lastPlayedIndex (player s) = None →
  let s' := step s (Settle request (OutlineResponse r)) in
  isOutlining s' = false
  ∧ match r with
    | Ok c =>
        course s' = Some c
        ∧ (∀ i : nat,
             lectureUiState (caches s') !! i
             = if decide (i < length (Course.lectures c))%nat
               then Some AudioState.content_loading else None)
        ∧ requests (platform s')
          = requests (platform s)
            ++ (if startsPipeline c then detailsRequest c <$> Course.lectures c
                else [])
        ∧ toasts s' = toasts s
    | Throw e =>
        course s' = course s
        ∧ caches s' = caches s
        ∧ requests (platform s') = requests (platform s)
        ∧ (∃ message : string,
             toasts s'
             = toasts s ++ [{| Toast.id := toastIdCounter s;
                               Toast.message := message;
                               Toast.type := Toast.error |}]
             ∧ ∀ m : string, e = Error m → message = m)
    end.
Proof.
  intros Hr Hin Hlast s'. destruct (reachable_invariants s Hr) as [_ [Hch _]].
  unfold s', step. cbn [handle isClick]. unfold settle.
  rewrite Hin. cbn [answers resume]. unfold runEffects.
  set (s0 := set_inflight (delete request) s).
  assert (Ha : autoAdvanceEffect (resumeOutline r s0) = resumeOutline r s0).
  { unfold autoAdvanceEffect.
    assert (Hl : lastPlayedIndex (player (resumeOutline r s0)) = None)
      by (by destruct r).
    by rewrite Hl. }
  rewrite Ha. destruct r as [c|e].
  - destruct (populateEffect_requests (resumeOutline (Ok c) s0) c)
      as (H1 & H2 & H3 & H4 & H5); [reflexivity|reflexivity|].
    rewrite H1, H2, H3, H4, H5.
    split; [reflexivity|]. split; [reflexivity|]. split; [|done].
    intros i. cbn. apply initialUiState_spec.
  - unfold populateEffect.
    assert (Hc : courseChanged (resumeOutline (Throw e) s0) = false) by exact Hch.
    rewrite Hc. split; [reflexivity|]. split; [reflexivity|].
    split; [reflexivity|]. split; [reflexivity|].
    exists (exnMessage e). split; [reflexivity|]. by intros m ->.
Qed.

(** The outline of the sample course arrives. *)
Lemma outline_settles_witness :
  let s := run (initialState "key") [ClickGenerateCourse] in
  let s' := step s (Settle 0 (OutlineResponse (Ok Sample.outline))) in
  course s' = Some Sample.outline
  ∧ requests (platform s')
    = [ GenerateCourseOutline;
        GenerateLectureDetails "Sound" "Waves" "Understand the topic";
        GenerateLectureDetails "Sound" "Sampling" "Understand the topic" ].
Proof.
  intros s s'.
  destruct (outline_settles s 0 (Ok Sample.outline)) as (_ & Hc & _ & Hrq & _);
    [by eexists _, _|vm_compute; reflexivity|vm_compute; reflexivity|].
  split; [exact Hc|]. exact Hrq.
Defined.

(** *** A task of the pipeline fails *)




(** *** Turns that end where the handler ends *)

Lemma step_is_handle (s s1 : App) (ev : Event) :
  Quiescent s → handle ev s = s1 →
  (isClick ev = true → is_Some (audioContextRef (engine s1))) →
  courseChanged s1 = courseChanged s → course s1 = course s →
  lastPlayedIndex (player s1) = lastPlayedIndex (player s) →
  step s ev = s1.
Proof.
  intros HQ Hh Hctx H1 H2 H3. unfold step. rewrite Hh.
  assert (Hi : (if isClick ev then initializeAudio s1 else s1) = s1).
  { destruct (isClick ev); [|reflexivity]. unfold initializeAudio.
    by destruct (Hctx eq_refl) as [ctx ->]. }
  rewrite Hi. by apply (runEffects_quiescent s).
Qed.

End TurnFacts.

Module PlayFacts.
Import EngineSpec EngineFacts AdvanceFacts StateSpec TurnFacts.

Lemma handle_ClickPlay (s : App) (index : nat) (lecture : Lecture.t) :
  lectureAt index s = Some lecture →
  truthy (Lecture.script lecture) = true →
  lectureUiState (caches s) !! index = Some AudioState.loaded →
  handle (ClickPlay index) s = handleSetLectureToPlay lecture index s.
Proof.
  intros Hl Hs Hst. cbn [handle]. rewrite Hl, Hs, Hst.
  rewrite !bool_decide_eq_false_2 by discriminate. reflexivity.
Qed.

Lemma playbackFailed_selected (lecture : Lecture.t) (index : nat) (s : App) :
  Inv s →
  let s' := playbackFailed (selected lecture index s) in
  currentlyPlaying (player s') = Some (lecture, index)
  ∧ PlayerState.error (playerState (player s')) = Some "Audio failed to load."
  ∧ PlayerState.isLoading (playerState (player s')) = false
  ∧ PlayerState.isPlaying (playerState (player s')) = false
  ∧ currentSourceRef (engine s') = None
  ∧ caches s' = caches s ∧ platform s' = platform s
  ∧ course s' = course s ∧ courseChanged s' = courseChanged s
  ∧ lastPlayedIndex (player s') = lastPlayedIndex (player s)
  ∧ audioContextRef (engine s') = audioContextRef (engine s)
  ∧ ∀ (n : nat) (node : SourceNode.t),
      nodes (engine s') !! n = Some node → SourceNode.playing node = false.
Proof.
  intros [HI _]. unfold playbackFailed, selected. rewrite stopPlayback_true_eq. cbn.
  repeat split. intros n node Hn.
  by destruct (stoppedNodes_lookup _ _ _ _ HI Hn).
Qed.

(** X12. Clicking play on a lecture that is not the current one, is marked
    [loaded] and has bytes but no decoded buffer in the caches, with the
    audio context in place: the lecture becomes the current one and no
    request is issued.  When the bytes decode, the buffer is cached, its
    duration is recorded and playback of it starts from the beginning; when
    they do not (invalid base64, an odd number of bytes, no frame), the
    player shows [Audio failed to load.], nothing plays and the caches are as
    before. *)
Theorem click_play_cached (s : App) (index : nat) (lecture : Lecture.t)
    (base64Audio : string) (ctx : Codec.AudioContext) :
  reachable s →
  lectureAt index s = Some lecture →
  truthy (Lecture.script lecture) = true →
  lectureUiState (caches s) !! index = Some AudioState.loaded →
  snd <$> currentlyPlaying (player s) ≠ Some index →
  audioDataCache (caches s) !! index = Some base64Audio →
  truthy (Some base64Audio) = true →
  audioBufferCache (caches s) !! index = None →
  audioContextRef (engine s) = Some ctx →
  let s' := step s (ClickPlay index) in
  currentlyPlaying (player s') = Some (lecture, index)
  ∧ requests (platform s') = requests (platform s)
  ∧ match data ← Codec.decode base64Audio;
          Codec.decodeAudioData data ctx 24000 1 with
    | Ok b =>
        startedPlaying index b s s'
        ∧ audioBufferCache (caches s') !! index = Some b
        ∧ actualDurations (caches s') !! index = Some (Codec.duration b)
        ∧ PlayerState.duration (playerState (player s')) = Codec.duration b
        ∧ PlayerState.error (playerState (player s')) = None
    | Throw _ =>
        PlayerState.error (playerState (player s')) = Some "Audio failed to load."
        ∧ PlayerState.isLoading (playerState (player s')) = false
        ∧ PlayerState.isPlaying (playerState (player s')) = false
        ∧ currentSourceRef (engine s') = None
        ∧ caches s' = caches s
        ∧ ∀ (n : nat) (node : SourceNode.t),
            nodes (engine s') !! n = Some node → SourceNode.playing node = false
    end.
Proof.
  intros Hr Hl Hs Hst Hcur Hd Ht Hb Hctx s'.
  destruct (reachable_invariants s Hr) as [HI HQ].
  pose proof (handle_ClickPlay s index lecture Hl Hs Hst) as Hh.
  rewrite (handleSetLectureToPlay_other lecture index s Hcur) in Hh.
  rewrite Hd, Ht, Hst in Hh. rewrite bool_decide_eq_false_2 in Hh by discriminate.
  cbn [negb orb] in Hh.
  destruct (selected_frame lecture index s)
    as (Hsc & Hsp & Hsco & Hsch & Hsctx & Hslen & Hslast & Hscur & _).
  assert (Herr : PlayerState.error (playerState (player (selected lecture index s)))
                 = None)
    by (unfold selected; by rewrite stopPlayback_true_eq).
  pose proof (playbackFailed_selected lecture index s HI) as Hfail.
  revert Hh Hsc Hsp Hsco Hsch Hsctx Hslen Hslast Hscur Herr Hfail.
  generalize (selected lecture index s).
  intros sel Hh Hsc Hsp Hsco Hsch Hsctx Hslen Hslast Hscur Herr Hfail.
  destruct (Codec.decode base64Audio ≫= λ data, Codec.decodeAudioData data ctx 24000 1)
    as [b|e] eqn:Hdec.
  - assert (Hp : ∃ data, Codec.decode base64Audio = Ok data
                  ∧ Codec.decodeAudioData data ctx 24000 1 = Ok b).
    { destruct (Codec.decode base64Audio) as [data|]; [|discriminate]. by exists data. }
    destruct Hp as (data & Hdata & Hbuf).
    assert (Hplay : playAudioFromCache index sel
                    = Ok (startPlayback b index 0
                            (set_actualDurations (<[index := Codec.duration b]>)
                               (set_audioBufferCache (<[index := b]>) sel)))).
    { apply (playAudioFromCache_from_bytes index sel base64Audio data ctx b);
        rewrite ?Hsc, ?Hsctx; assumption. }
    unfold playResolved in Hh. rewrite Ht, Hplay in Hh. cbn [negb] in Hh.
    rewrite startPlayback_eq in Hh by (cbn; rewrite Hsctx, Hctx; by eexists).
    assert (Hstep : s' = handle (ClickPlay index) s).
    { apply step_is_handle; [exact HQ|reflexivity| | | |]; rewrite Hh; cbn;
        rewrite ?Hsctx, ?Hctx, ?Hsch, ?Hsco, ?Hslast; by eauto. }
    rewrite Hstep, Hh. cbn. rewrite Hscur, Hsp.
    split; [reflexivity|]. split; [reflexivity|].
    split; [|rewrite !lookup_insert_eq; repeat split].
    + unfold startedPlaying. cbn. rewrite Hslen. repeat split.
      rewrite <- Hslen.
      rewrite <- (stoppedNodes_length (nodes (engine sel)) (currentSourceRef (engine sel))).
      by apply list_lookup_middle.
    + exact Herr.
  - assert (Hplay : playAudioFromCache index sel
                    = Throw (Error "Failed to decode audio data.")).
    { unfold playAudioFromCache. rewrite Hsc, Hb, Hd, Ht. cbn.
      destruct (Codec.decode base64Audio) as [data|]; cbn in Hdec |- *;
        [|reflexivity].
      rewrite Hsctx, Hctx. cbn. by rewrite Hdec. }
    unfold playResolved in Hh. rewrite Ht, Hplay in Hh. cbn [negb] in Hh.
    destruct Hfail as (H1 & H2 & H3 & H4 & H5 & H6 & H7 & H8 & H9 & H10 & H11 & H12).
    assert (Hstep : s' = playbackFailed sel).
    { apply step_is_handle; try assumption. intros _. rewrite H11, Hctx. by eexists. }
    rewrite Hstep, H1, H2, H3, H4, H5, H6, H7. repeat split. exact H12.
Qed.

(** Lecture 1 of the generated sample course is played. *)
Lemma click_play_cached_witness :
  let s := run (initialState "key") Sample.generated in
  let lecture := mergeDetails (Sample.outlineLecture "Sampling")
                   (Sample.details "Sampling measures a signal.") in
  let s' := step s (ClickPlay 1) in
  currentlyPlaying (player s') = Some (lecture, 1%nat)
  ∧ PlayerState.isPlaying (playerState (player s')) = true.
Proof.
  intros s lecture s'.
  destruct (click_play_cached s 1 lecture Sample.audioB Codec.defaultContext)
    as (Hc & _ & Hm).
  - by eexists _, _.
  - vm_compute. reflexivity.
  - reflexivity.
  - vm_compute. reflexivity.
  - vm_compute. discriminate.
  - vm_compute. reflexivity.
  - reflexivity.
  - vm_compute. reflexivity.
  - vm_compute. reflexivity.
  - split; [exact Hc|].
    destruct (Codec.decode Sample.audioB
              ≫= λ data, Codec.decodeAudioData data Codec.defaultContext 24000 1)
      as [b|e] eqn:E; [|vm_compute in E; discriminate].
    by destruct Hm as ((Hp & _) & _).
Defined.

End PlayFacts.

Module DownloadFacts.
Import EngineSpec EngineFacts StateSpec TurnFacts Codec CodecSpec CodecFacts.










End DownloadFacts.

(* ================================================================== *)
(** * Properties of the service calls, the editor and the time display *)
(* ================================================================== *)

Module GeminiFacts.
Import Gemini.

(** X14. [generateLectureAudio] sends one request: the text-to-speech model, the
    given voice, and the script behind the tone that goes with the voice.  It
    returns exactly when the call returns a response whose first part of the
    first candidate carries non-empty data, and then it returns that data; so
    it never returns an empty payload.  Every failure, of the call or of the
    lookup, is reported with the same message.  The tone is the energetic
    one for the voices Puck and Charon, which are the voices the table lists
    as energetic, and the calm one otherwise. *)
Theorem generateLectureAudio_outcome
    (generateContent : AudioRequest → outcome AudioResponse) (script voice : string) :
  voiceName (audioRequest script voice) = voice
  ∧ audioText (audioRequest script voice)
    = String.append "Say with a "
        (String.append
           (if bool_decide (voice = "Puck" ∨ voice = "Charon")
            then "moderately energetic" else "calm and clear")
           (String.append " tone: " script))
  ∧ Forall (λ v, tone (Constants.ttsValue v)
                 = match Constants.style v with
                   | Constants.Energetic => "moderately energetic"
                   | Constants.Calm => "calm and clear"
                   end) Constants.VOICES
  ∧ match generateLectureAudio generateContent script voice with
    | Ok base64Audio =>
        truthy (Some base64Audio) = true
        ∧ ∃ response,
            generateContent (audioRequest script voice) = Returns response
            ∧ audioDataOf response = Some base64Audio
    | Throw e =>
        e = Error audioFailure
        ∧ ((∃ error, generateContent (audioRequest script voice) = Raises error)
           ∨ ∃ response,
               generateContent (audioRequest script voice) = Returns response
               ∧ truthy (audioDataOf response) = false)
    end.
Proof.
  split; [reflexivity|]. split.
  { unfold audioRequest, tone. cbn. do 2 f_equal.
    destruct (String.eqb_spec voice "Puck") as [->|H1]; [reflexivity|].
    destruct (String.eqb_spec voice "Charon") as [->|H2]; [reflexivity|].
    cbn. rewrite bool_decide_eq_false_2; [reflexivity|]. by intros [?|?]. }
  split; [repeat constructor|].
  unfold generateLectureAudio.
  destruct (generateContent (audioRequest script voice)) as [response|error] eqn:E.
  - destruct (truthy (audioDataOf response)) eqn:Et; cbn [negb].
    + destruct (audioDataOf response) as [b|] eqn:Ed; [|discriminate].
      split; [exact Et|]. by exists response.
    + split; [reflexivity|]. right. by exists response.
  - split; [reflexivity|]. left. by exists error.
Qed.

(** *** [trim] *)

Lemma trimStart_head (s : string) :
  match trimStart s with
  | String c _ => isTrimWhitespace c = false
  | EmptyString => True
  end.
Proof.
  induction s as [|c s IH]; cbn; [done|].
  destruct (isTrimWhitespace c) eqn:E; [exact IH|exact E].
Qed.

Lemma trimStart_kept (c : ascii) (rest : string) :
  isTrimWhitespace c = false → trimStart (String c rest) = String c rest.
Proof. intros H. cbn. by rewrite H. Qed.

Lemma trimEnd_head (c : ascii) (rest : string) :
  isTrimWhitespace c = false → ∃ rest', trimEnd (String c rest) = String c rest'.
Proof. intros Hc. cbn. destruct (trimEnd rest); [rewrite Hc|]; by eexists. Qed.

Lemma trimEnd_last (s : string) :
  match lastChar (trimEnd s) with
  | Some c => isTrimWhitespace c = false
  | None => True
  end.
Proof.
  induction s as [|c s IH]; cbn; [done|].
  destruct (trimEnd s) as [|c' kept] eqn:E.
  - destruct (isTrimWhitespace c) eqn:Ec; cbn; [done|exact Ec].
  - exact IH.
Qed.

Lemma trimEnd_idem (s : string) : trimEnd (trimEnd s) = trimEnd s.
Proof.
  induction s as [|c s IH]; [reflexivity|]. cbn [trimEnd].
  destruct (trimEnd s) as [|c' kept] eqn:E.
  - destruct (isTrimWhitespace c) eqn:Ec; cbn; [reflexivity|by rewrite Ec].
  - cbn [trimEnd] in IH |- *. by rewrite IH.
Qed.

Lemma trim_head (s : string) :
  match trim s with
  | String c _ => isTrimWhitespace c = false
  | EmptyString => True
  end.
Proof.
  unfold trim. pose proof (trimStart_head s) as H.
  destruct (trimStart s) as [|c rest]; [done|].
  by destruct (trimEnd_head c rest H) as [rest' ->].
Qed.

Lemma trim_idem (s : string) : trim (trim s) = trim s.
Proof.
  pose proof (trim_head s) as H. unfold trim at 1.
  destruct (trim s) as [|c rest] eqn:E; [reflexivity|].
  rewrite (trimStart_kept c rest H), <- E. unfold trim. apply trimEnd_idem.
Qed.

End GeminiFacts.

Module EditorFacts.
Import Gemini GeminiFacts EditLectureModal.

(** X15. The improve button of the editor.  A script that is empty or all white
    space is never sent: the editor shows an informational toast and stays
    as it is.  Any other script is sent as typed, with the busy flag set.
    When the call settles the busy flag is cleared and title and summary are
    untouched; on success the script is the text of the response without
    the white space around it, so it neither starts nor ends with white
    space; on failure the script is kept and the toast carries the one
    message of [improveScript]. *)
Theorem improve_script_flow (m : EditLectureModal.t)
    (generateContent : string * string → outcome (option string)) :
  match handleImproveScript m with
  | NothingToImprove toast =>
      (∃ sc, script m = Some sc ∧ trim sc = EmptyString)
      ∧ toast = ("Script is empty, nothing to improve.", Toast.info)
  | Improving busy sc =>
      script m = Some sc ∧ trim sc ≠ EmptyString
      ∧ isImproving busy = true ∧ script busy = Some sc
      ∧ let settled := improveSettled (improveScript generateContent sc) busy in
        isImproving settled.1 = false
        ∧ title settled.1 = title m ∧ summary settled.1 = summary m
        ∧ match improveScript generateContent sc with
          | Ok improved =>
              script settled.1 = Some improved
              ∧ settled.2 = ("Script improved successfully!", Toast.success)
              ∧ trim improved = improved
              ∧ match improved with
                | String c _ => isTrimWhitespace c = false
                | EmptyString => True
                end
              ∧ match lastChar improved with
                | Some c => isTrimWhitespace c = false
                | None => True
                end
          | Throw _ =>
              script settled.1 = Some sc
              ∧ settled.2 = ("Failed to improve script with AI.", Toast.error)
          end
  | RaisedTypeError => script m = None
  end.
Proof.
  unfold handleImproveScript. destruct (script m) as [sc|] eqn:Es; [|reflexivity].
  destruct (truthy (Some (trim sc))) eqn:Et; cbn [negb].
  - cbn in Et. apply negb_true_iff, String.eqb_neq in Et.
    split; [reflexivity|]. split; [exact Et|]. split; [reflexivity|].
    split; [reflexivity|]. cbv zeta. unfold improveScript.
    destruct (generateContent _) as [[text|]|error]; cbn; repeat split.
    + apply trim_idem.
    + apply trim_head.
    + apply trimEnd_last.
  - cbn in Et. apply negb_false_iff, String.eqb_eq in Et.
    split; [by exists sc|reflexivity].
Qed.

(** X16. Saving the editor's fields for lecture [index].  The saved lecture has
    the editor's title, summary and script and keeps the duration, goals and
    quiz of the lecture the editor was opened for.  When the script in the
    editor is the script the course holds for that lecture, however title and
    summary were changed, [handleUpdateLecture] stores the lecture and
    touches nothing else: the caches, the video states and the requests are
    as before.  An editor saved as it was opened gives back the lecture it
    was opened for. *)
Theorem save_keeps_audio_unless_script_changes (s : App) (c : Course.t) (index : nat)
    (current opened : Lecture.t) (m : EditLectureModal.t) :
  course s = Some c →
  Course.lectures c !! index = Some current →
  script m = Lecture.script current →
  let updated := handleSave opened m in
  let s' := handleUpdateLecture index updated s in
  handleSave opened (lectureEffect (Some opened) m) = opened
  ∧ Lecture.title updated = title m
  ∧ Lecture.summary updated = summary m
  ∧ Lecture.script updated = script m
  ∧ Lecture.duration updated = Lecture.duration opened
  ∧ Lecture.goals updated = Lecture.goals opened
  ∧ Lecture.quiz updated = Lecture.quiz opened
  ∧ (Course.lectures <$> course s') = Some (<[index := updated]> (Course.lectures c))
  ∧ caches s' = caches s ∧ video s' = video s ∧ platform s' = platform s
  ∧ engine s' = engine s ∧ player s' = player s.
Proof.
  intros Hc Hl Hs updated s'.
  split; [by destruct opened|]. do 6 (split; [reflexivity|]).
  unfold s', handleUpdateLecture. rewrite Hc, Hl.
  rewrite bool_decide_eq_false_2 by (intros H; apply H; cbn; by rewrite Hs).
  by cbn.
Qed.

(** The title of lecture 1 of the generated sample course is edited. *)
Lemma save_keeps_audio_unless_script_changes_witness :
  let s := run (initialState "key") Sample.generated in
  let lecture := mergeDetails (Sample.outlineLecture "Sampling")
                   (Sample.details "Sampling measures a signal.") in
  let m := {| title := "Sampling, revisited";
              summary := Lecture.summary lecture;
              script := Lecture.script lecture;
              isImproving := false |} in
  caches (handleUpdateLecture 1 (handleSave lecture m) s) = caches s.
Proof.
  intros s lecture m.
  apply (save_keeps_audio_unless_script_changes s
           {| Course.courseTitle := "Sound"; Course.totalDuration := "20 Minutes";
              Course.lectures :=
                [ mergeDetails (Sample.outlineLecture "Waves")
                    (Sample.details "A wave is a disturbance.");
                  lecture ] |}
           1 lecture lecture m).
  - vm_compute. reflexivity.
  - reflexivity.
  - reflexivity.
Defined.

End EditorFacts.

Module VideoCallFacts.
Import EngineSpec EngineFacts VideoSpec VideoFacts StateSpec TurnFacts TimerFacts.

(** X17. When the call that starts a video job throws, [startVideoGeneration]
    turns the failure into one of two messages, and the application routes
    on the message.  An error whose message says that the requested entity
    was not found becomes the invalid-key message: the key dialog opens with
    a retry as the pending action, and the video state of the lecture is not
    written.  Any other failure marks the video of the lecture as failed
    with the billing message, and the dialog stays as it is.  Neither path
    sets a timer or issues a request. *)
Theorem video_start_failure (s : App) (request index : nat) (lecture : option Lecture.t)
    (closure : option Course.t)
    (generateVideos : Gemini.VideoRequest → Gemini.outcome nat)
    (prompt : string) (error : Gemini.thrown) :
  reachable s →
  inflight (platform s) !! request = Some (AwaitStartVideo lecture index closure) →
  generateVideos (Gemini.videoRequest prompt) = Gemini.Raises error →
  let r := Gemini.startVideoGeneration generateVideos prompt in
  let s' := step s (Settle request (StartVideoResponse r)) in
  timers (platform s') = timers (platform s)
  ∧ pollingIntervals (video s') = pollingIntervals (video s)
  ∧ requests (platform s') = requests (platform s)
  ∧ if Gemini.errorIncludes "Requested entity was not found" error then
      r = Throw (Error Gemini.invalidKey)
      ∧ isApiKeyModalOpen (video s') = true
      ∧ pendingAction (video s') = Some (RetryGenerateVideo lecture index closure)
      ∧ videoStates (video s') = videoStates (video s)
    else
      videoStates (video s')
      = <[index := videoError
            "Failed to start video generation. Check your API key and billing status."]>
          (videoStates (video s))
      ∧ isApiKeyModalOpen (video s') = isApiKeyModalOpen (video s)
      ∧ pendingAction (video s') = pendingAction (video s).
Proof.
  intros Hr Hin Hsdk r s'. destruct (reachable_invariants s Hr) as [_ HQ].
  set (s0 := set_inflight (delete request) s).
  assert (Hh : handle (Settle request (StartVideoResponse r)) s
               = resumeStartVideo lecture index closure r s0).
  { cbn [handle]. unfold settle. by rewrite Hin. }
  assert (Hstep : s' = resumeStartVideo lecture index closure r s0).
  { unfold s'. apply step_is_handle; [exact HQ|exact Hh|done| | |];
      unfold resumeStartVideo; repeat case_match; try reflexivity.
    all: unfold pollForVideo; repeat case_match; reflexivity. }
  rewrite Hstep. unfold r, Gemini.startVideoGeneration. rewrite Hsdk.
  destruct (Gemini.errorIncludes "Requested entity was not found" error).
  - change (resumeStartVideo lecture index closure (Throw (Error Gemini.invalidKey)) s0)
      with (s0 |> set_pendingAction
                    (λ _, Some (RetryGenerateVideo lecture index closure))
               |> set_isApiKeyModalOpen (λ _, true)).
    by repeat split.
  - change (resumeStartVideo lecture index closure
              (Throw (Error "Failed to start video generation. Check your API key and billing status."))
              s0)
      with (set_videoStates
              (<[index := videoError
                   "Failed to start video generation. Check your API key and billing status."]>)
              s0).
    by repeat split.
Qed.

(** A video of lecture 0 of the sample course cannot be started. *)
Lemma video_start_failure_witness :
  let s := run (initialState "key")
             (Sample.generated ++
              [ClickGenerateVideo 0; Settle 5 (HasKeyResponse true)]) in
  let notFound := λ _ : Gemini.VideoRequest,
    @Gemini.Raises nat
      (Gemini.ErrorObject "404: Requested entity was not found." false) in
  let r := Gemini.startVideoGeneration notFound "A wave is a disturbance." in
  isApiKeyModalOpen (video (step s (Settle 6 (StartVideoResponse r)))) = true.
Proof.
  intros s notFound r.
  destruct (video_start_failure s 6 0
              (Some (mergeDetails (Sample.outlineLecture "Waves")
                       (Sample.details "A wave is a disturbance.")))
              (course (run (initialState "key") Sample.generated))
              notFound "A wave is a disturbance."
              (Gemini.ErrorObject "404: Requested entity was not found." false))
    as (_ & _ & _ & H).
  - by eexists _, _.
  - vm_compute. reflexivity.
  - reflexivity.
  - cbn in H. by destruct H as (_ & H & _).
Defined.

Lemma cancel_timers (index : nat) (s : App) :
  let s' := s |> clearInterval (pollingIntervals (video s) !! index)
              |> set_pollingIntervals (delete index) in
  pollingIntervals (video s') = delete index (pollingIntervals (video s))
  ∧ (∀ id t, timers (platform s') !! id = Some t → timers (platform s) !! id = Some t)
  ∧ course s' = course s ∧ courseChanged s' = courseChanged s
  ∧ lastPlayedIndex (player s') = lastPlayedIndex (player s).
Proof.
  cbv zeta. destruct (pollingIntervals (video s) !! index) as [id0|]; cbn;
    repeat split; try done.
  intros id t Ht. by apply lookup_delete_Some in Ht as [_ Ht].
Qed.

Lemma pollFailed_timers (index : nat) (closure : option Course.t) (m : string)
    (s : App) :
  let s' := pollFailed index closure m s in
  pollingIntervals (video s') = delete index (pollingIntervals (video s))
  ∧ (∀ id t, timers (platform s') !! id = Some t → timers (platform s) !! id = Some t)
  ∧ course s' = course s ∧ courseChanged s' = courseChanged s
  ∧ lastPlayedIndex (player s') = lastPlayedIndex (player s).
Proof.
  cbv zeta. unfold pollFailed.
  pose proof (cancel_timers index s) as H. cbv zeta in H. revert H.
  generalize (s |> clearInterval (pollingIntervals (video s) !! index)
                |> set_pollingIntervals (delete index)).
  intros s1 H. unfold handleGenerateVideo. repeat case_match; exact H.
Qed.

Lemma delete_twice (index : nat) (m : gmap nat nat) :
  delete index (delete index m) = delete index m.
Proof.
  apply map_eq. intros j. destruct (decide (j = index)) as [->|Hne].
  - by rewrite !lookup_delete_eq.
  - by rewrite !lookup_delete_ne.
Qed.

Lemma resumePollStatus_timers (index : nat) (closure : option Course.t)
    (r : result Operation.t) (s : App) :
  (∀ op, r = Ok op → Operation.done op = true) →
  let s' := resumePollStatus index closure r s in
  pollingIntervals (video s') = delete index (pollingIntervals (video s))
  ∧ (∀ id t, timers (platform s') !! id = Some t → timers (platform s) !! id = Some t)
  ∧ course s' = course s ∧ courseChanged s' = courseChanged s
  ∧ lastPlayedIndex (player s') = lastPlayedIndex (player s).
Proof.
  intros Hdone. cbv zeta. unfold resumePollStatus.
  destruct r as [op|e]; [|apply pollFailed_timers].
  rewrite (Hdone op eq_refl).
  pose proof (cancel_timers index s) as H. cbv zeta in H. revert H.
  generalize (s |> clearInterval (pollingIntervals (video s) !! index)
                |> set_pollingIntervals (delete index)).
  intros s1 (H1 & H2 & H3 & H4 & H5).
  assert (Hf : ∀ m,
    pollingIntervals (video (pollFailed index closure m s1))
    = delete index (pollingIntervals (video s))
    ∧ (∀ id t, timers (platform (pollFailed index closure m s1)) !! id = Some t →
               timers (platform s) !! id = Some t)
    ∧ course (pollFailed index closure m s1) = course s
    ∧ courseChanged (pollFailed index closure m s1) = courseChanged s
    ∧ lastPlayedIndex (player (pollFailed index closure m s1))
      = lastPlayedIndex (player s)).
  { intros m. destruct (pollFailed_timers index closure m s1)
      as (F1 & F2 & F3 & F4 & F5).
    rewrite F1, F3, F4, F5, H1, H3, H4, H5, delete_twice.
    repeat split. intros id t Ht. by apply H2, F2. }
  repeat case_match; first [apply Hf | by cbn].
Qed.

(** X18. Polling stops when the job settles.  When the status request of a poll
    answers that the job is done, or fails, the turn removes the interval
    registered for the lecture; afterwards no active timer polls for that
    lecture, no timer was added, and the intervals of the other lectures are
    as before. *)
Theorem polling_stops (s : App) (request index : nat) (closure : option Course.t)
    (r : result Operation.t) :
  reachable s →
  inflight (platform s) !! request = Some (AwaitPollStatus index closure) →
  (∀ op, r = Ok op → Operation.done op = true) →
  let s' := step s (Settle request (StatusResponse r)) in
  pollingIntervals (video s') !! index = None
  ∧ (∀ (id : nat) (t : PollTimer),
       timers (platform s') !! id = Some t →
       pollIndex t ≠ index ∧ timers (platform s) !! id = Some t)
  ∧ (∀ j : nat, j ≠ index →
       pollingIntervals (video s') !! j = pollingIntervals (video s) !! j).
Proof.
  intros Hr Hin Hdone s'. destruct (reachable_invariants s Hr) as [_ HQ].
  set (s0 := set_inflight (delete request) s).
  assert (Hr' : reachable s').
  { destruct Hr as (key & evs & ->).
    exists key, (evs ++ [Settle request (StatusResponse r)]).
    unfold s', run. by rewrite foldl_app. }
  destruct (reachable_registered s' Hr') as [[_ HI'] _].
  destruct (resumePollStatus_timers index closure r s0 Hdone)
    as (Hp & Ht & Hc1 & Hc2 & Hc3).
  assert (Hstep : s' = resumePollStatus index closure r s0).
  { unfold s'. apply step_is_handle; try assumption; [|done].
    cbn [handle]. unfold settle. by rewrite Hin. }
  assert (Hnone : pollingIntervals (video s') !! index = None)
    by (by rewrite Hstep, Hp, lookup_delete_eq).
  split; [exact Hnone|]. split.
  - intros id t Hid. split.
    + intros Heq. destruct (HI' id t Hid) as [Hreg _]. rewrite Heq in Hreg. congruence.
    + apply Ht. by rewrite <- Hstep.
  - intros j Hj. by rewrite Hstep, Hp, lookup_delete_ne.
Qed.

(** The video job of lecture 0 of the sample course is reported as done. *)
Lemma polling_stops_witness :
  let s := run (initialState "key")
             (Sample.generated ++
              [ ClickGenerateVideo 0; Settle 5 (HasKeyResponse true);
                Settle 6 (StartVideoResponse (Ok 42%nat)); TimerFires 1 ]) in
  let s' := step s (Settle 7 (StatusResponse (Ok (finished "https://video/1")))) in
  timers (platform s) !! 1%nat ≠ None
  ∧ pollingIntervals (video s') !! 0%nat = None
  ∧ timers (platform s') = ∅.
Proof.
  intros s s'.
  destruct (polling_stops s 7 0
              (course (run (initialState "key") Sample.generated))
              (Ok (finished "https://video/1")))
    as (Hn & _ & _).
  - by eexists _, _.
  - vm_compute. reflexivity.
  - intros op [= <-]. reflexivity.
  - split; [vm_compute; discriminate|]. split; [exact Hn|].
    vm_compute. reflexivity.
Defined.

End VideoCallFacts.

(* ------------------------------------------------------------------ *)
(** ** Seeking, pausing and resuming *)
(* ------------------------------------------------------------------ *)

Module SeekFacts.
Import EngineSpec EngineFacts StateSpec TurnFacts.

Lemma reachable_step (s : App) (ev : Event) : reachable s → reachable (step s ev).
Proof.
  intros (key & evs & ->). exists key, (evs ++ [ev]). unfold run. by rewrite foldl_app.
Qed.

(** The turn in which the clock of the audio context advances. *)
Lemma clock_turn (s : App) (dt : Q) :
  reachable s → Qle_bool 0 dt = true →
  step s (ClockAdvances dt) = set_contextTime (λ t, (t + dt)%Q) s.
Proof.
  intros Hr Hdt. destruct (reachable_invariants s Hr) as [_ HQ].
  apply step_is_handle; try done. cbn [handle]. by rewrite Hdt.
Qed.

(** A node that is not the new one does not play after [startPlayback]. *)
Lemma restarted_nodes (ns : list SourceNode.t) (cur : option nat)
    (new : SourceNode.t) (n : nat) (node : SourceNode.t) :
  NodesInv ns cur →
  (stoppedNodes ns cur ++ [new]) !! n = Some node → n ≠ length ns →
  SourceNode.playing node = false.
Proof.
  intros HI Hn Hne. apply lookup_app_Some in Hn as [Hn|[Hlen Hn]].
  - by destruct (stoppedNodes_lookup ns cur n node HI Hn).
  - rewrite stoppedNodes_length in Hlen, Hn.
    destruct (n - length ns)%nat as [|k] eqn:E; [lia|by destruct k].
Qed.

Lemma restarted_new (ns : list SourceNode.t) (cur : option nat) (new : SourceNode.t) :
  (stoppedNodes ns cur ++ [new]) !! length ns = Some new.
Proof.
  rewrite <- (stoppedNodes_length ns cur). by apply list_lookup_middle.
Qed.

(** The turn of a seek while the current lecture plays. *)
Lemma seek_turn (s : App) (lecture : Lecture.t) (index : nat)
    (b : Codec.AudioBuffer) (ctx : Codec.AudioContext) (newProgress : Q) :
  reachable s →
  currentlyPlaying (player s) = Some (lecture, index) →
  truthy (PlayerState.error (playerState (player s))) = false →
  PlayerState.isPlaying (playerState (player s)) = true →
  Qeq_bool (PlayerState.duration (playerState (player s))) 0 = false →
  audioBufferCache (caches s) !! index = Some b →
  audioContextRef (engine s) = Some ctx →
  let newTime := (PlayerState.duration (playerState (player s)) * newProgress)%Q in
  let s' := step s (Seek newProgress) in
  (currentSourceRef (engine s') = Some (length (nodes (engine s)))
   ∧ nodes (engine s') !! length (nodes (engine s)) = Some (startedNode b index newTime)
   ∧ (∀ (n : nat) (node : SourceNode.t),
        nodes (engine s') !! n = Some node → n ≠ length (nodes (engine s)) →
        SourceNode.playing node = false)
   ∧ PlayerState.isPlaying (playerState (player s')) = true
   ∧ PlayerState.progress (playerState (player s')) = newProgress
   ∧ PlayerState.currentTime (playerState (player s')) = newTime
   ∧ PlayerState.duration (playerState (player s')) = Codec.duration b)
  ∧ (playbackPausedTimeRef (engine s') = newTime
     ∧ playbackStartTimeRef (engine s') = (contextTime (engine s) - newTime)%Q
     ∧ contextTime (engine s') = contextTime (engine s)
     ∧ length (nodes (engine s')) = S (length (nodes (engine s))))
  ∧ (currentlyPlaying (player s') = currentlyPlaying (player s)
     ∧ PlayerState.error (playerState (player s'))
       = PlayerState.error (playerState (player s))
     ∧ audioContextRef (engine s') = audioContextRef (engine s)
     ∧ caches s' = caches s
     ∧ requests (platform s') = requests (platform s)).
Proof.
  intros Hr Hcur Herr Hplay Hdur Hb Hctx newTime s'.
  destruct (reachable_invariants s Hr) as [[HN _] HQ].
  assert (Hh : handle (Seek newProgress) s = handleSeek newProgress s)
    by (cbn [handle]; by rewrite Hcur, Herr).
  unfold handleSeek in Hh. rewrite Hcur, Hdur, Hb, Hplay in Hh. cbv zeta in Hh.
  rewrite startPlayback_eq in Hh by (cbn; rewrite Hctx; by eexists).
  assert (Hstep : s' = handle (Seek newProgress) s).
  { apply step_is_handle; [exact HQ|reflexivity| | | |]; rewrite Hh; cbn;
      rewrite ?Hctx; by eauto. }
  rewrite Hstep, Hh. cbn. fold newTime. rewrite Hcur, Hctx.
  repeat split.
  - apply restarted_new.
  - intros n node Hn Hne. by eapply restarted_nodes.
  - rewrite length_app, stoppedNodes_length. cbn. lia.
Qed.

(** The turn of a click on pause while the current lecture plays. *)
Lemma pause_turn (s : App) (lecture : Lecture.t) (index : nat)
    (ctx : Codec.AudioContext) :
  reachable s →
  currentlyPlaying (player s) = Some (lecture, index) →
  truthy (PlayerState.error (playerState (player s))) = false →
  PlayerState.isPlaying (playerState (player s)) = true →
  audioContextRef (engine s) = Some ctx →
  let s' := step s ClickPlayPause in
  (PlayerState.isPlaying (playerState (player s')) = false
   ∧ currentSourceRef (engine s') = None
   ∧ (∀ (n : nat) (node : SourceNode.t),
        nodes (engine s') !! n = Some node → SourceNode.playing node = false)
   ∧ length (nodes (engine s')) = length (nodes (engine s))
   ∧ PlayerState.currentTime (playerState (player s'))
     = PlayerState.currentTime (playerState (player s))
   ∧ PlayerState.duration (playerState (player s'))
     = PlayerState.duration (playerState (player s)))
  ∧ (playbackPausedTimeRef (engine s')
     = (playbackPausedTimeRef (engine s)
        + (contextTime (engine s) - playbackStartTimeRef (engine s)))%Q
     ∧ contextTime (engine s') = contextTime (engine s))
  ∧ (currentlyPlaying (player s') = currentlyPlaying (player s)
     ∧ PlayerState.error (playerState (player s'))
       = PlayerState.error (playerState (player s))
     ∧ audioContextRef (engine s') = audioContextRef (engine s)
     ∧ caches s' = caches s
     ∧ requests (platform s') = requests (platform s)).
Proof.
  intros Hr Hcur Herr Hplay Hctx s'.
  destruct (reachable_invariants s Hr) as [[HN _] HQ].
  assert (Hh : handle ClickPlayPause s = handleSetLectureToPlay lecture index s)
    by (cbn [handle]; by rewrite Hcur, Herr).
  unfold handleSetLectureToPlay in Hh.
  rewrite Hcur, Herr, Hplay, Hctx in Hh. cbn [fmap option_fmap option_map snd] in Hh.
  rewrite bool_decide_eq_true_2 in Hh by reflexivity.
  rewrite stopPlayback_false_eq in Hh.
  assert (Hstep : s' = handle ClickPlayPause s).
  { apply step_is_handle; [exact HQ|reflexivity| | | |]; rewrite Hh; cbn;
      rewrite ?Hctx; by eauto. }
  rewrite Hstep, Hh. cbn. rewrite Hcur, Hctx, stoppedNodes_length.
  repeat split.
  intros n node Hn. by destruct (stoppedNodes_lookup _ _ _ _ HN Hn).
Qed.

(** The turn of a click on play while the current lecture is paused. *)
Lemma resume_turn (s : App) (lecture : Lecture.t) (index : nat)
    (b : Codec.AudioBuffer) (ctx : Codec.AudioContext) :
  reachable s →
  currentlyPlaying (player s) = Some (lecture, index) →
  truthy (PlayerState.error (playerState (player s))) = false →
  PlayerState.isPlaying (playerState (player s)) = false →
  audioBufferCache (caches s) !! index = Some b →
  audioContextRef (engine s) = Some ctx →
  let offset := playbackPausedTimeRef (engine s) in
  let s' := step s ClickPlayPause in
  (currentSourceRef (engine s') = Some (length (nodes (engine s)))
   ∧ nodes (engine s') !! length (nodes (engine s)) = Some (startedNode b index offset)
   ∧ (∀ (n : nat) (node : SourceNode.t),
        nodes (engine s') !! n = Some node → n ≠ length (nodes (engine s)) →
        SourceNode.playing node = false)
   ∧ PlayerState.isPlaying (playerState (player s')) = true
   ∧ PlayerState.duration (playerState (player s')) = Codec.duration b)
  ∧ (playbackPausedTimeRef (engine s') = offset
     ∧ playbackStartTimeRef (engine s') = (contextTime (engine s) - offset)%Q
     ∧ contextTime (engine s') = contextTime (engine s)
     ∧ length (nodes (engine s')) = S (length (nodes (engine s))))
  ∧ (currentlyPlaying (player s') = currentlyPlaying (player s)
     ∧ PlayerState.error (playerState (player s'))
       = PlayerState.error (playerState (player s))
     ∧ audioContextRef (engine s') = audioContextRef (engine s)
     ∧ caches s' = caches s
     ∧ requests (platform s') = requests (platform s)).
Proof.
  intros Hr Hcur Herr Hplay Hb Hctx offset s'.
  destruct (reachable_invariants s Hr) as [[HN _] HQ].
  assert (Hh : handle ClickPlayPause s = handleSetLectureToPlay lecture index s)
    by (cbn [handle]; by rewrite Hcur, Herr).
  unfold handleSetLectureToPlay in Hh.
  rewrite Hcur, Herr, Hplay, Hb in Hh. cbn [fmap option_fmap option_map snd] in Hh.
  rewrite bool_decide_eq_true_2 in Hh by reflexivity.
  rewrite startPlayback_eq in Hh by (rewrite Hctx; by eexists).
  assert (Hstep : s' = handle ClickPlayPause s).
  { apply step_is_handle; [exact HQ|reflexivity| | | |]; rewrite Hh; cbn;
      rewrite ?Hctx; by eauto. }
  rewrite Hstep, Hh. cbn. fold offset. rewrite Hcur, Hctx.
  repeat split.
  - apply restarted_new.
  - intros n node Hn Hne. by eapply restarted_nodes.
  - rewrite length_app, stoppedNodes_length. cbn. lia.
Qed.

(** X20. Seeking while the current lecture plays.  With the decoded buffer of the
    lecture cached and a player that shows a non-zero duration, a seek to
    [newProgress] moves the display to that progress and to the time
    [duration * newProgress], stops the playing source and starts a new one
    on the cached buffer at that time offset; it is the only source that
    plays.  The caches are untouched and nothing is requested. *)
Theorem seek_restarts_playback (s : App) (lecture : Lecture.t) (index : nat)
    (b : Codec.AudioBuffer) (ctx : Codec.AudioContext) (newProgress : Q) :
  reachable s →
  currentlyPlaying (player s) = Some (lecture, index) →
  truthy (PlayerState.error (playerState (player s))) = false →
  PlayerState.isPlaying (playerState (player s)) = true →
  Qeq_bool (PlayerState.duration (playerState (player s))) 0 = false →
  audioBufferCache (caches s) !! index = Some b →
  audioContextRef (engine s) = Some ctx →
  let newTime := (PlayerState.duration (playerState (player s)) * newProgress)%Q in
  let s' := step s (Seek newProgress) in
  currentSourceRef (engine s') = Some (length (nodes (engine s)))
  ∧ nodes (engine s') !! length (nodes (engine s)) = Some (startedNode b index newTime)
  ∧ (∀ (n : nat) (node : SourceNode.t),
       nodes (engine s') !! n = Some node → n ≠ length (nodes (engine s)) →
       SourceNode.playing node = false)
  ∧ PlayerState.isPlaying (playerState (player s')) = true
  ∧ PlayerState.progress (playerState (player s')) = newProgress
  ∧ PlayerState.currentTime (playerState (player s')) = newTime
  ∧ currentlyPlaying (player s') = Some (lecture, index)
  ∧ caches s' = caches s
  ∧ requests (platform s') = requests (platform s).
Proof.
  intros Hr Hcur Herr Hplay Hdur Hb Hctx newTime s'.
  destruct (seek_turn s lecture index b ctx newProgress Hr Hcur Herr Hplay Hdur Hb Hctx)
    as ((H1 & H2 & H3 & H4 & H5 & H6 & _) & _ & (H7 & _ & _ & H8 & H9)).
  rewrite Hcur in H7. by repeat split.
Qed.

(** A seek to the middle while lecture 1 of the sample course plays. *)
Lemma seek_restarts_playback_witness :
  let s := run (initialState "key") (Sample.generated ++ [ClickPlay 1%nat]) in
  let s' := step s (Seek (1 # 2)) in
  PlayerState.isPlaying (playerState (player s')) = true
  ∧ PlayerState.progress (playerState (player s')) = 1 # 2.
Proof.
  intros s s'.
  destruct (audioBufferCache (caches s) !! 1%nat) as [b|] eqn:Hb;
    [|vm_compute in Hb; discriminate].
  destruct (seek_restarts_playback s
              (mergeDetails (Sample.outlineLecture "Sampling")
                 (Sample.details "Sampling measures a signal."))
              1 b Codec.defaultContext (1 # 2))
    as (_ & _ & _ & Hp & Hg & _).
  - by eexists _, _.
  - first [exact Hb | vm_compute; reflexivity].
  - first [exact Hb | vm_compute; reflexivity].
  - first [exact Hb | vm_compute; reflexivity].
  - first [exact Hb | vm_compute; reflexivity].
  - first [exact Hb | vm_compute; reflexivity].
  - first [exact Hb | vm_compute; reflexivity].
  - split; [exact Hp|exact Hg].
Defined.

(** X21. Pause and resume.  A click on pause while the current lecture plays stops
    the source, so that nothing plays, and leaves the displayed time as it is;
    a later click on play starts a new source on the cached buffer.  The
    offset of that source is the paused-time reference plus the time the
    context clock ran since the start-time reference, both read when pause
    was clicked; the time that passes while paused does not count. *)
Theorem pause_then_resume (s : App) (lecture : Lecture.t) (index : nat)
    (b : Codec.AudioBuffer) (ctx : Codec.AudioContext) (dt : Q) :
  reachable s →
  currentlyPlaying (player s) = Some (lecture, index) →
  truthy (PlayerState.error (playerState (player s))) = false →
  PlayerState.isPlaying (playerState (player s)) = true →
  audioBufferCache (caches s) !! index = Some b →
  audioContextRef (engine s) = Some ctx →
  Qle_bool 0 dt = true →
  let offset := (playbackPausedTimeRef (engine s)
                 + (contextTime (engine s) - playbackStartTimeRef (engine s)))%Q in
  let s1 := step s ClickPlayPause in
  let s2 := step (step s1 (ClockAdvances dt)) ClickPlayPause in
  (PlayerState.isPlaying (playerState (player s1)) = false
   ∧ currentSourceRef (engine s1) = None
   ∧ (∀ (n : nat) (node : SourceNode.t),
        nodes (engine s1) !! n = Some node → SourceNode.playing node = false)
   ∧ PlayerState.currentTime (playerState (player s1))
     = PlayerState.currentTime (playerState (player s)))
  ∧ (PlayerState.isPlaying (playerState (player s2)) = true
     ∧ currentSourceRef (engine s2) = Some (length (nodes (engine s)))
     ∧ nodes (engine s2) !! length (nodes (engine s)) = Some (startedNode b index offset)
     ∧ (∀ (n : nat) (node : SourceNode.t),
          nodes (engine s2) !! n = Some node → n ≠ length (nodes (engine s)) →
          SourceNode.playing node = false)).
Proof.
  intros Hr Hcur Herr Hplay Hb Hctx Hdt offset s1 s2.
  destruct (pause_turn s lecture index ctx Hr Hcur Herr Hplay Hctx)
    as ((P1 & P2 & P3 & P4 & P5 & _) & (P6 & _) & (P7 & P8 & P9 & P10 & _)).
  fold s1 in P1, P2, P3, P4, P5, P6, P7, P8, P9, P10.
  split; [by repeat split|].
  assert (Hr1 : reachable s1) by by apply reachable_step.
  pose proof (clock_turn s1 dt Hr1 Hdt) as Hc.
  assert (Hr1' : reachable (step s1 (ClockAdvances dt))) by by apply reachable_step.
  unfold s2. revert Hr1'. rewrite Hc. intros Hr1'.
  destruct (resume_turn (set_contextTime (λ t, (t + dt)%Q) s1) lecture index b ctx)
    as ((R1 & R2 & R3 & R4 & _) & _); try assumption.
  - cbn. by rewrite P7.
  - cbn. by rewrite P8.
  - cbn. by rewrite P10.
  - cbn. by rewrite P9.
  - cbn in R1, R2, R3. rewrite P4, P6 in *. by repeat split.
Qed.

(** Lecture 1 of the sample course is paused and, two seconds later,
    resumed. *)
Lemma pause_then_resume_witness :
  let s := run (initialState "key") (Sample.generated ++ [ClickPlay 1%nat]) in
  let s1 := step s ClickPlayPause in
  let s2 := step (step s1 (ClockAdvances 2)) ClickPlayPause in
  PlayerState.isPlaying (playerState (player s1)) = false
  ∧ PlayerState.isPlaying (playerState (player s2)) = true.
Proof.
  intros s s1 s2.
  destruct (audioBufferCache (caches s) !! 1%nat) as [b|] eqn:Hb;
    [|vm_compute in Hb; discriminate].
  destruct (pause_then_resume s
              (mergeDetails (Sample.outlineLecture "Sampling")
                 (Sample.details "Sampling measures a signal."))
              1 b Codec.defaultContext 2) as ((Hp & _) & (Hq & _)).
  - by eexists _, _.
  - first [exact Hb | vm_compute; reflexivity].
  - first [exact Hb | vm_compute; reflexivity].
  - first [exact Hb | vm_compute; reflexivity].
  - first [exact Hb | vm_compute; reflexivity].
  - first [exact Hb | vm_compute; reflexivity].
  - first [exact Hb | vm_compute; reflexivity].
  - split; [exact Hp|exact Hq].
Defined.



End SeekFacts.

(* ------------------------------------------------------------------ *)
(** ** Course regeneration and the calls in flight *)
(* ------------------------------------------------------------------ *)

Module RegenerationFacts.
Import EngineSpec EngineFacts VideoSpec VideoFacts StateSpec TurnFacts RegenerationSpec.

Lemma laterTimers_refl (s : App) : laterTimers s s.
Proof. split; [lia|]. by intros. Qed.

Lemma laterTimers_trans (s1 s2 s3 : App) :
  laterTimers s1 s2 → laterTimers s2 s3 → laterTimers s1 s3.
Proof.
  intros [H1 K1] [H2 K2]. split; [lia|].
  intros id t Hid Ht. apply K1; [exact Hid|]. apply K2; [lia|exact Ht].
Qed.

Lemma laterTimers_same (s s' : App) : sameTimers s s' → laterTimers s s'.
Proof. intros (Ht & Hn & _). split; [lia|]. intros id t _. by rewrite Ht. Qed.

Lemma laterTimers_cancel (index : nat) (s : App) :
  laterTimers s (s |> clearInterval (pollingIntervals (video s) !! index)
                   |> set_pollingIntervals (delete index)).
Proof.
  destruct (pollingIntervals (video s) !! index) as [id0|]; cbn;
    (split; [cbn; lia|]); intros id t _ Ht; cbn in Ht; [|exact Ht].
  by apply lookup_delete_Some in Ht as [_ Ht].
Qed.

Lemma laterTimers_pollForVideo (operation index : nat) (closure : option Course.t)
    (s : App) :
  laterTimers s (pollForVideo operation index closure s).
Proof.
  unfold pollForVideo.
  set (s1 := match pollingIntervals (video s) !! index with
             | Some 0%nat | None => s
             | Some id => clearInterval (Some id) s
             end).
  assert (H1 : laterTimers s s1).
  { unfold s1. repeat case_match; try apply laterTimers_refl.
    split; [cbn; lia|]. intros id t _ Ht. cbn in Ht.
    by apply lookup_delete_Some in Ht as [_ Ht]. }
  assert (Hn : nextTimer (platform s1) = nextTimer (platform s))
    by (unfold s1; by repeat case_match).
  eapply laterTimers_trans; [exact H1|]. clearbody s1.
  split; [cbn; lia|]. intros id t Hid Ht. cbn in Ht.
  apply lookup_insert_Some in Ht as [[<- _]|[_ Ht]]; [lia|exact Ht].
Qed.

Lemma laterTimers_pollFailed (index : nat) (closure : option Course.t) (m : string)
    (s : App) :
  laterTimers s (pollFailed index closure m s).
Proof.
  unfold pollFailed. pose proof (laterTimers_cancel index s) as H. revert H.
  generalize (s |> clearInterval (pollingIntervals (video s) !! index)
                |> set_pollingIntervals (delete index)).
  intros s1 H. eapply laterTimers_trans; [exact H|].
  apply laterTimers_same. unfold handleGenerateVideo. repeat case_match; by repeat split.
Qed.

Lemma laterTimers_resumePollStatus (index : nat) (closure : option Course.t)
    (r : result Operation.t) (s : App) :
  laterTimers s (resumePollStatus index closure r s).
Proof.
  unfold resumePollStatus. destruct r as [op|e]; [|apply laterTimers_pollFailed].
  destruct (Operation.done op); [|apply laterTimers_refl].
  pose proof (laterTimers_cancel index s) as H. revert H.
  generalize (s |> clearInterval (pollingIntervals (video s) !! index)
                |> set_pollingIntervals (delete index)).
  intros s1 H. eapply laterTimers_trans; [exact H|].
  repeat case_match; first [apply laterTimers_pollFailed
                           | apply laterTimers_same; by repeat split].
Qed.

Lemma laterTimers_resume (p : Pending) (r : Response) (s : App) :
  laterTimers s (resume p r s).
Proof.
  destruct p, r; cbn [resume]; try apply laterTimers_refl.
  - apply laterTimers_same, sameTimers_resumeOutline.
  - apply laterTimers_same, sameTimers_resumeDetails.
  - apply laterTimers_same, sameTimers_resumePipelineAudio.
  - apply laterTimers_same, sameTimers_resumeSingleAudio.
  - apply laterTimers_same, sameTimers_resumeHasKey.
  - apply laterTimers_same, sameTimers_resumeSelectKey.
  - unfold resumeStartVideo. destruct r as [op|e].
    + apply laterTimers_pollForVideo.
    + apply laterTimers_same. case_match; by repeat split.
  - apply laterTimers_resumePollStatus.
Qed.

Lemma laterTimers_handleGenerateCourse (s : App) :
  TimersInv s → laterTimers s (handleGenerateCourse s).
Proof.
  intros HI. destruct (handleGenerateCourse_cleared s HI)
    as (s0 & -> & Ht & _ & _ & _ & _ & _ & _ & _ & _ & Hn & _).
  split; [cbn; lia|]. intros id t _ Hid. cbn in Hid. rewrite Ht in Hid.
  by rewrite lookup_empty in Hid.
Qed.

Lemma laterTimers_handle (ev : Event) (s : App) :
  TimersInv s → laterTimers s (handle ev s).
Proof.
  intros HI. destruct ev; cbn [handle];
    try (unfold handleRetryAudioGeneration, pollTick, dispatchEnded, onendedHandler,
           updateProgress, closeApiKeyModal, handleSelectApiKey, handleVolumeChange,
           handleGenerateVideo;
         repeat case_match; first [apply laterTimers_refl
                                  | apply laterTimers_same; by repeat split]).
  - case_match; [apply laterTimers_refl|]. by apply laterTimers_handleGenerateCourse.
  - repeat case_match; try apply laterTimers_refl.
    apply laterTimers_same, sameTimers_handleSetLectureToPlay.
  - repeat case_match; try apply laterTimers_refl.
    apply laterTimers_same, sameTimers_handleSetLectureToPlay.
  - repeat case_match; try apply laterTimers_refl.
    apply laterTimers_same, sameTimers_stopPlayback.
  - repeat case_match; try apply laterTimers_refl.
    apply laterTimers_same, sameTimers_handleSeek.
  - repeat case_match; try apply laterTimers_refl.
    apply laterTimers_same, sameTimers_handleUpdateLecture.
  - repeat case_match; try apply laterTimers_refl.
    apply laterTimers_same, sameTimers_handleDownload.
  - unfold settle. repeat case_match; try apply laterTimers_refl.
    eapply laterTimers_trans; [|apply laterTimers_resume].
    apply laterTimers_same. by repeat split.
Qed.

Lemma laterTimers_step (s : App) (ev : Event) :
  TimersInv s → laterTimers s (step s ev).
Proof.
  intros HI. unfold step, runEffects.
  eapply laterTimers_trans; [|apply laterTimers_same, sameTimers_populateEffect].
  eapply laterTimers_trans; [|apply laterTimers_same, sameTimers_autoAdvanceEffect].
  eapply laterTimers_trans; [by apply (laterTimers_handle ev)|].
  apply laterTimers_same. destruct (isClick ev); [|apply sameTimers_refl].
  unfold initializeAudio. case_match; by repeat split.
Qed.

Lemma run_nil (s : App) : run s [] = s.
Proof. reflexivity. Qed.

Lemma reachable_run (s : App) (evs : list Event) :
  reachable s → reachable (run s evs).
Proof.
  intros (key & evs0 & ->). exists key, (evs0 ++ evs). unfold run.
  by rewrite foldl_app.
Qed.

(** No later turn brings a timer back. *)
Lemma laterTimers_run (s : App) (evs : list Event) :
  reachable s → laterTimers s (run s evs).
Proof.
  intros Hr. induction evs as [|ev evs IH] using rev_ind.
  - apply laterTimers_refl.
  - unfold run. rewrite foldl_app. cbn [foldl]. fold (run s evs).
    eapply laterTimers_trans; [exact IH|].
    apply laterTimers_step, reachable_timers. by apply reachable_run.
Qed.

Lemma handleGenerateCourse_nextRequest (s : App) :
  nextRequest (platform (handleGenerateCourse s)) = S (nextRequest (platform s)).
Proof.
  assert (H1 : nextRequest (platform (stopPlayback true s)) = nextRequest (platform s))
    by (by rewrite stopPlayback_true_eq).
  unfold handleGenerateCourse. revert H1. generalize (stopPlayback true s).
  intros s1 H1.
  assert (H2 : ∀ ids, nextRequest (platform (foldr (λ id s, clearInterval (Some id) s)
                                               s1 ids))
                      = nextRequest (platform s1)).
  { induction ids as [|id ids IH]; simpl; [done|exact IH]. }
  specialize (H2 (map_to_list (pollingIntervals (video s1))).*2). revert H2.
  generalize (foldr (λ id s, clearInterval (Some id) s) s1
                (map_to_list (pollingIntervals (video s1))).*2).
  intros s2 H2. cbn. congruence.
Qed.

(** The turn of a click on the generate button. *)
Lemma generate_turn (s : App) :
  reachable s → isOutlining s = false →
  ∃ s0 : App,
    handleGenerateCourse s = send GenerateCourseOutline AwaitOutline s0
    ∧ step s ClickGenerateCourse
      = set_courseChanged (λ _, false)
          (initializeAudio (send GenerateCourseOutline AwaitOutline s0))
    ∧ timers (platform s0) = ∅
    ∧ pollingIntervals (video s0) = ∅
    ∧ audioDataCache (caches s0) = ∅
    ∧ audioBufferCache (caches s0) = ∅
    ∧ lectureUiState (caches s0) = ∅
    ∧ actualDurations (caches s0) = ∅
    ∧ videoStates (video s0) = ∅
    ∧ course s0 = None
    ∧ nextTimer (platform s0) = nextTimer (platform s)
    ∧ inflight (platform s0) = inflight (platform s)
    ∧ requests (platform s0) = requests (platform s).
Proof.
  intros Hr Hout. pose proof (reachable_timers s Hr) as HI.
  destruct (handleGenerateCourse_cleared s HI)
    as (s0 & Hs & Ht & Hp & Hd & Hb & Hu & Ha & Hv & Hc & _ & Hn & Hin & Hrq).
  exists s0. split; [exact Hs|]. split; [|by repeat split].
  unfold step. cbn [handle isClick]. rewrite Hout, Hs.
  set (s1 := initializeAudio (send GenerateCourseOutline AwaitOutline s0)).
  assert (Hc1 : course s1 = None)
    by (unfold s1, initializeAudio; case_match; exact Hc).
  assert (Hch0 : courseChanged s0 = true).
  { assert (H : courseChanged (handleGenerateCourse s) = true) by reflexivity.
    by rewrite Hs in H. }
  assert (Hch1 : courseChanged s1 = true)
    by (unfold s1, initializeAudio; case_match; exact Hch0).
  unfold runEffects.
  assert (Hauto : autoAdvanceEffect s1 = s1).
  { unfold autoAdvanceEffect. rewrite Hc1. by destruct (lastPlayedIndex (player s1)). }
  rewrite Hauto. unfold populateEffect. rewrite Hch1. cbn. by rewrite Hc1.
Qed.

(** A turn in which a call settles and the effects find nothing to do. *)
Lemma settle_turn (s : App) (request : nat) (p : Pending) (r : Response) :
  reachable s →
  inflight (platform s) !! request = Some p → answers p r = true →
  let s1 := resume p r (set_inflight (delete request) s) in
  course s1 = course s → courseChanged s1 = courseChanged s →
  lastPlayedIndex (player s1) = lastPlayedIndex (player s) →
  step s (Settle request r) = s1.
Proof.
  intros Hr Hin Ha s1 H1 H2 H3. destruct (reachable_invariants s Hr) as [_ HQ].
  apply step_is_handle; try assumption; [|done].
  cbn [handle]. unfold settle. by rewrite Hin, Ha.
Qed.

Lemma pollFailed_state (index : nat) (closure : option Course.t) (m : string)
    (s : App) :
  includes "API key is invalid" m = false ∨ is_Some closure →
  videoStates (video (pollFailed index closure m s)) !! index = Some (videoError m).
Proof.
  intros H. unfold pollFailed.
  generalize (s |> clearInterval (pollingIntervals (video s) !! index)
                |> set_pollingIntervals (delete index)). intros s1.
  destruct (includes "API key is invalid" m) eqn:E.
  - destruct H as [Hf|[c ->]]; [discriminate|]. cbn. apply lookup_insert_eq.
  - cbn. apply lookup_insert_eq.
Qed.

Lemma pollForVideo_sets (operation index : nat) (closure : option Course.t)
    (s : App) :
  let s' := pollForVideo operation index closure s in
  pollingIntervals (video s') !! index = Some (nextTimer (platform s))
  ∧ timers (platform s') !! nextTimer (platform s)
    = Some {| operation := operation; pollIndex := index; pollClosure := closure |}.
Proof.
  cbv zeta. unfold pollForVideo.
  set (s1 := match pollingIntervals (video s) !! index with
             | Some 0%nat | None => s
             | Some id => clearInterval (Some id) s
             end).
  assert (Hn : nextTimer (platform s1) = nextTimer (platform s))
    by (unfold s1; by repeat case_match).
  clearbody s1. cbn. rewrite Hn. split; apply lookup_insert_eq.
Qed.

(** The callback of a poll whose job has ended in an error. *)
Lemma resumePollStatus_error (index : nat) (closure : option Course.t)
    (r : result Operation.t) (message : string) (s : App) :
  endsInError (apiKey (video s)) r message →
  (∀ op, r = Ok op → Operation.done op = true)
  ∧ (includes "API key is invalid" message = false ∨ is_Some closure →
     videoStates (video (resumePollStatus index closure r s)) !! index
     = Some (videoError message)).
Proof.
  assert (Hkey : ∀ s1, apiKey (video (s1 |> clearInterval (pollingIntervals (video s1) !! index)
                                         |> set_pollingIntervals (delete index)))
                       = apiKey (video s1)).
  { intros s1. by destruct (pollingIntervals (video s1) !! index). }
  intros [m|op Hd Hn|op link Hd Hl Hf].
  - split; [intros op [=]|]. intros H. by apply pollFailed_state.
  - split; [by intros ? [= <-]|]. intros H. unfold resumePollStatus.
    rewrite Hd, Hn. by apply pollFailed_state.
  - split; [by intros ? [= <-]|]. intros H. unfold resumePollStatus.
    rewrite Hd, Hl, Hkey, Hf. by apply pollFailed_state.
Qed.

(** C9 (amended).  A click on the generate button, in a reachable state in
    which no outline is being generated:
    - before the outline request is issued, every poll timer is cancelled
      and the registry of intervals, the byte cache, the buffer cache, the
      lecture states, the durations and the video states are empty; they
      are still empty at the end of the turn, in which the outline request
      is the only call issued and the calls in flight stay in flight;
    - a timer that was cancelled never runs again: whatever happens later,
      no timer with an identifier handed out before the click is active,
      and a tick of such a timer changes nothing.
    The calls in flight are not cancelled, for the old course or any other:
    - when a call that starts a video job resolves, a new poll timer is set
      for its lecture index, on the operation the call returns;
    - when the status request of a poll resolves with a job that is not
      done, nothing changes; when it resolves with a job that is done and
      has a video URI, and an API key is configured, the video of its
      lecture index is written as ready; when the request fails or the job
      is done without a video, the video of its lecture index is written as
      failed, with the message (for a message that says the API key is
      invalid: when the callback has captured a course). *)
Theorem regeneration_cancels_timers (s : App) :
  reachable s → isOutlining s = false →
  let s' := step s ClickGenerateCourse in
  (∃ s0 : App,
     handleGenerateCourse s = send GenerateCourseOutline AwaitOutline s0
     ∧ timers (platform s0) = ∅
     ∧ pollingIntervals (video s0) = ∅
     ∧ audioDataCache (caches s0) = ∅
     ∧ audioBufferCache (caches s0) = ∅
     ∧ lectureUiState (caches s0) = ∅
     ∧ actualDurations (caches s0) = ∅
     ∧ videoStates (video s0) = ∅
     ∧ course s0 = None)
  ∧ (timers (platform s') = ∅
     ∧ pollingIntervals (video s') = ∅
     ∧ audioDataCache (caches s') = ∅
     ∧ audioBufferCache (caches s') = ∅
     ∧ lectureUiState (caches s') = ∅
     ∧ actualDurations (caches s') = ∅
     ∧ videoStates (video s') = ∅
     ∧ requests (platform s') = requests (platform s) ++ [GenerateCourseOutline]
     ∧ inflight (platform s')
       = <[nextRequest (platform s) := AwaitOutline]> (inflight (platform s)))
  ∧ (∀ (evs : list Event) (id : nat),
       (id < nextTimer (platform s))%nat →
       timers (platform (run s' evs)) !! id = None
       ∧ step (run s' evs) (TimerFires id) = run s' evs)
  ∧ (∀ (s2 : App) (request : nat) (lecture : option Lecture.t) (index : nat)
       (closure : option Course.t) (operation : nat),
       reachable s2 →
       inflight (platform s2) !! request = Some (AwaitStartVideo lecture index closure) →
       let s3 := step s2 (Settle request (StartVideoResponse (Ok operation))) in
       pollingIntervals (video s3) !! index = Some (nextTimer (platform s2))
       ∧ timers (platform s3) !! nextTimer (platform s2)
         = Some {| operation := operation; pollIndex := index;
                   pollClosure := closure |})
  ∧ (∀ (s2 : App) (request index : nat) (closure : option Course.t),
       reachable s2 →
       inflight (platform s2) !! request = Some (AwaitPollStatus index closure) →
       (∀ op : Operation.t,
          Operation.done op = false →
          step s2 (Settle request (StatusResponse (Ok op)))
          = set_inflight (delete request) s2)
       ∧ (∀ (op : Operation.t) (uri : string),
            Operation.done op = true →
            Operation.response op = Some (Some uri) →
            truthy (Some uri) = true →
            truthy (Some (apiKey (video s2))) = true →
            videoStates (video (step s2 (Settle request (StatusResponse (Ok op)))))
              !! index
            = Some {| VideoState.status := VideoStateStatus.ready;
                      VideoState.url :=
                        Some (String.append uri
                                (String.append "&key=" (apiKey (video s2))));
                      VideoState.error := None |})
       ∧ (∀ (r : result Operation.t) (message : string),
            endsInError (apiKey (video s2)) r message →
            includes "API key is invalid" message = false ∨ is_Some closure →
            videoStates (video (step s2 (Settle request (StatusResponse r)))) !! index
            = Some (videoError message))).
Proof.
  intros Hr Hout s'.
  destruct (generate_turn s Hr Hout)
    as (s0 & Hs & Hs' & Ht & Hp & Hd & Hb & Hu & Ha & Hv & Hc & Hn & Hin & Hrq).
  fold s' in Hs'.
  assert (Hfields :
    timers (platform s') = timers (platform s0)
    ∧ nextTimer (platform s') = nextTimer (platform s0)
    ∧ pollingIntervals (video s') = pollingIntervals (video s0)
    ∧ caches s' = caches s0 ∧ videoStates (video s') = videoStates (video s0)
    ∧ requests (platform s') = requests (platform s0) ++ [GenerateCourseOutline]
    ∧ inflight (platform s')
      = <[nextRequest (platform s0) := AwaitOutline]> (inflight (platform s0))
    ∧ nextRequest (platform s0) = nextRequest (platform s)).
  { assert (H : nextRequest (platform (send GenerateCourseOutline AwaitOutline s0))
                = S (nextRequest (platform s)))
      by (rewrite <- Hs; apply handleGenerateCourse_nextRequest).
    cbn in H. injection H as H.
    rewrite Hs'. unfold initializeAudio. case_match; cbn; by repeat split. }
  destruct Hfields as (F1 & F2 & F3 & F4 & F5 & F6 & F7 & F8).
  split; [by exists s0|].
  split.
  { rewrite F1, F3, F4, F5, F6, F7, F8, Ht, Hp, Hd, Hb, Hu, Ha, Hv, Hrq, Hin.
    by repeat split. }
  assert (Hr' : reachable s') by (by apply SeekFacts.reachable_step).
  split; [|split].
  - intros evs id Hid.
    assert (Hnone : timers (platform (run s' evs)) !! id = None).
    { destruct (laterTimers_run s' evs Hr') as [_ Hold].
      destruct (timers (platform (run s' evs)) !! id) as [t|] eqn:E; [|done].
      apply Hold in E; [|rewrite F2, Hn; exact Hid].
      rewrite F1, Ht in E. by rewrite lookup_empty in E. }
    split; [exact Hnone|].
    destruct (reachable_invariants _ (reachable_run s' evs Hr')) as [_ HQ].
    apply step_is_handle; try done. cbn [handle]. unfold pollTick. by rewrite Hnone.
  - intros s2 request lecture index closure operation Hr2 Hin2 s3.
    assert (Hs3 : s3 = pollForVideo operation index closure
                         (set_inflight (delete request) s2)).
    { unfold s3.
      rewrite (settle_turn s2 request _ (StartVideoResponse (Ok operation)) Hr2 Hin2);
        [reflexivity|done| | |];
        cbn [resume resumeStartVideo]; unfold pollForVideo; cbn;
        by repeat case_match. }
    rewrite Hs3.
    apply (pollForVideo_sets operation index closure (set_inflight (delete request) s2)).
  - intros s2 request index closure Hr2 Hin2. split; [|split].
    + intros op Hdone.
      rewrite (settle_turn s2 request _ (StatusResponse (Ok op)) Hr2 Hin2);
        [|done| | |]; cbn [resume resumePollStatus]; by rewrite Hdone.
    + intros op uri Hdone Hresp Huri Hkey.
      assert (Hres : resumePollStatus index closure (Ok op)
                       (set_inflight (delete request) s2)
                     = set_videoStates
                         (<[index := {| VideoState.status := VideoStateStatus.ready;
                                        VideoState.url :=
                                          Some (String.append uri
                                                  (String.append "&key="
                                                     (apiKey (video s2))));
                                        VideoState.error := None |}]>)
                         (set_inflight (delete request) s2
                            |> clearInterval
                                 (pollingIntervals (video s2) !! index)
                            |> set_pollingIntervals (delete index))).
      { unfold resumePollStatus. rewrite Hdone, Hresp.
        destruct (pollingIntervals (video (set_inflight (delete request) s2)) !! index)
          eqn:E; cbn in E; rewrite E; cbn; cbn in Huri, Hkey; by rewrite Huri, Hkey. }
      rewrite (settle_turn s2 request _ (StatusResponse (Ok op)) Hr2 Hin2);
        cbn [resume answers]; rewrite ?Hres; try done.
      * cbn. apply lookup_insert_eq.
      * by destruct (pollingIntervals (video s2) !! index).
      * by destruct (pollingIntervals (video s2) !! index).
      * by destruct (pollingIntervals (video s2) !! index).
    + intros r message Hend Hok.
      destruct (resumePollStatus_error index closure r message
                  (set_inflight (delete request) s2) Hend) as [Hdone Hstate].
      destruct (VideoCallFacts.resumePollStatus_timers index closure r
                  (set_inflight (delete request) s2) Hdone)
        as (_ & _ & G1 & G2 & G3).
      rewrite (settle_turn s2 request _ (StatusResponse r) Hr2 Hin2);
        cbn [resume answers]; try done.
      by apply Hstate.
Qed.

(** The job of lecture 0 is being polled and the job of lecture 1 is being
    started when the course is regenerated: the timer of lecture 0 is gone
    for good, and the start call, once it resolves, sets a timer for
    lecture 1. *)
Lemma regeneration_cancels_timers_witness :
  let s := run (initialState "key") pollingAndStarting in
  let s' := step s ClickGenerateCourse in
  let s'' := step s' (Settle 8 (StartVideoResponse (Ok 43%nat))) in
  size (timers (platform s)) = 1%nat
  ∧ timers (platform s') = ∅
  ∧ step s' (TimerFires 1) = s'
  ∧ pollingIntervals (video s'') !! 1%nat = Some (nextTimer (platform s')).
Proof.
  intros s s' s''. assert (Hr : reachable s) by (by eexists _, _).
  destruct (regeneration_cancels_timers s Hr) as (_ & (Ht & _) & Hfire & Hstart & _);
    [vm_compute; reflexivity|].
  split; [vm_compute; reflexivity|]. split; [exact Ht|]. split.
  - assert (Hid : (1 < nextTimer (platform s))%nat) by (vm_compute; lia).
    destruct (Hfire [] 1%nat Hid) as [_ H]. by rewrite !run_nil in H.
  - destruct (Hstart s' 8%nat (Course.lectures detailed !! 1%nat) 1%nat (Some detailed)
                43%nat) as [Hp _]; [|vm_compute; reflexivity|exact Hp].
    by apply SeekFacts.reachable_step.
Defined.

End RegenerationFacts.

(* ------------------------------------------------------------------ *)
(** ** The turn of a save *)
(* ------------------------------------------------------------------ *)

Module SaveFacts.
Import EngineSpec EngineFacts StateSpec TurnFacts EditSpec RegenerationFacts.






End SaveFacts.
